(** * The Go WASM runtime module of wagon ([modules/go.go])

    A shallow embedding of the host side of the [syscall/js] bridge: the
    handle table, the 8-byte slot codec ([storeValue], [loadValue],
    [loadSliceOfValues]) and the exported host functions, followed by the
    properties of the natural-language specification that can be settled
    on that embedding.

    Conventions.
    - Fixed-width Go integers are [Z] with the wrap-around written out
      ([uint32], [int32], [uint64], [int64] below).
    - A [float64] is carried as its IEEE-754 bit pattern, a 64-bit [Z].
    - Guest memory is a [list byte]; a Go slice obtained from [BufferAt]
      aliases it, so it is modelled as the offset of its first byte.
    - A Go [map] is a reference: map objects live in a heap and the
      [values] field of a [Go] instance holds a location.
    - A panic is the [Panic] outcome of the state-and-error monad [M].
    - Diagnostics printed with [fmt.Println] or [log.Printf] go to the host
      console only; they are left out. *)

From Stdlib Require Import ZArith List String Ascii Lia Bool.
From Stdlib.Strings Require Import Byte.
From stdpp Require Import base gmap strings list fin_maps pretty.

Local Open Scope Z_scope.
Set Warnings "-register-all".

(* ===================================================================== *)
(** ** Fixed-width integers *)
(* ===================================================================== *)

Module Int.

(** Go conversions [uint8(x)], [uint32(x)], [uint64(x)] between integer
    types: the value modulo 2^w. *)
Definition uint8 (x : Z) : Z := x mod 2 ^ 8.
Definition uint32 (x : Z) : Z := x mod 2 ^ 32.
Definition uint64 (x : Z) : Z := x mod 2 ^ 64.

(** Go conversions [int32(x)], [int64(x)]: two's complement. *)
Definition int32 (x : Z) : Z := (x + 2 ^ 31) mod 2 ^ 32 - 2 ^ 31.
Definition int64 (x : Z) : Z := (x + 2 ^ 63) mod 2 ^ 64 - 2 ^ 63.

(** [int] is 64 bits wide on the platforms wagon runs on. *)
Definition int (x : Z) : Z := int64 x.

(** Arithmetic on [int32] and [int64] operands. *)
Definition add32 (a b : Z) : Z := int32 (a + b).
Definition add64 (a b : Z) : Z := int64 (a + b).
Definition mul64 (a b : Z) : Z := int64 (a * b).

End Int.

(* ===================================================================== *)
(** ** IEEE-754 binary64, by bit pattern *)
(* ===================================================================== *)

Module Float64.

Definition sign (bits : Z) : Z := Z.shiftr bits 63.
Definition expo (bits : Z) : Z := Z.land (Z.shiftr bits 52) 2047.
Definition frac (bits : Z) : Z := Z.land bits (2 ^ 52 - 1).

(** [math.IsNaN]. *)
Definition IsNaN (bits : Z) : bool := (expo bits =? 2047) && negb (frac bits =? 0).

Definition finite (bits : Z) : bool := negb (expo bits =? 2047).

(** The integer part of a finite double, rounded toward zero. *)
Definition trunc (bits : Z) : Z :=
  let m := if expo bits =? 0 then frac bits else frac bits + 2 ^ 52 in
  let e := (if expo bits =? 0 then 1 else expo bits) - 1075 in
  let a := if 0 <=? e then Z.shiftl m e else Z.shiftr m (- e) in
  if sign bits =? 0 then a else - a.

(** The Go conversion [uint64(f)] of a [float64]: the fraction is
    discarded.  Where the value does not fit, the Go specification leaves
    the result to the implementation; the model takes what conversion
    through a signed 64-bit integer gives (two's complement for negative
    values, [2^63] where that fails too).  No property below depends on
    that choice. *)
Definition to_uint64 (bits : Z) : Z :=
  if finite bits then
    let t := trunc bits in
    if (- 2 ^ 63 <=? t) && (t <? 2 ^ 64) then Int.uint64 t else 2 ^ 63
  else 2 ^ 63.

(** The Go operator [==] on two [float64]: a NaN differs from everything
    and the two zeros are equal. *)
Definition eqb (a b : Z) : bool :=
  if IsNaN a || IsNaN b then false
  else if (Z.land a (2 ^ 63 - 1) =? 0) && (Z.land b (2 ^ 63 - 1) =? 0) then true
  else a =? b.

(** The Go conversion [float64(u)] of a [uint64]: the nearest double, ties
    to the even mantissa.  Up to [2^53] the integer is represented exactly;
    above, the mantissa keeps the 53 leading bits, rounded, and a mantissa
    rounded up to [2^53] carries into the exponent field. *)
Definition of_uint64 (u : Z) : Z :=
  if u <=? 0 then 0
  else
    let e := Z.log2 u in
    if e <=? 52 then Z.shiftl (e + 1023) 52 + (Z.shiftl u (52 - e) - 2 ^ 52)
    else
      let s := e - 52 in
      let m := Z.shiftr u s in
      let r := Z.land u (Z.ones s) in
      let half := Z.shiftl 1 (s - 1) in
      let m' := if (half <? r) || ((r =? half) && Z.odd m) then m + 1 else m in
      Z.shiftl (e + 1023) 52 + (m' - 2 ^ 52).

End Float64.

(* ===================================================================== *)
(** ** Bytes and little-endian words *)
(* ===================================================================== *)

Module Bytes.

Definition to_Z (b : byte) : Z := Z.of_N (Byte.to_N b).

(** [byte(x)]: the low 8 bits. *)
Definition of_Z (x : Z) : byte :=
  match Byte.of_N (Z.to_N (x mod 256)) with
  | Some b => b
  | None => x00
  end.

(** [binary.LittleEndian.PutUint32] and [PutUint64] write the [n] low
    bytes of [x], least significant first. *)
Fixpoint le_encode (n : nat) (x : Z) : list byte :=
  match n with
  | O => []
  | S n' => of_Z x :: le_encode n' (x / 256)
  end.

(** [binary.LittleEndian.Uint32] and [Uint64]. *)
Fixpoint le_decode (bs : list byte) : Z :=
  match bs with
  | [] => 0
  | b :: bs' => to_Z b + 256 * le_decode bs'
  end.

End Bytes.

(* ===================================================================== *)
(** ** Guest linear memory *)
(* ===================================================================== *)

Module Mem.

(** Modelled from the spec: the [BufferAt] method of the process (package
    [exec], not part of this file) "fails with an out-of-bounds error if
    the span exceeds the guest's linear memory size".  On success the
    returned slice aliases memory from [offset] on; it is represented by
    that offset. *)
Definition BufferAt (m : list byte) (offset len : Z) : option nat :=
  if (0 <=? offset) && (0 <=? len) && (offset + len <=? Z.of_nat (length m))
  then Some (Z.to_nat offset) else None.

(** The bytes [buf[0:n]] of a slice starting at [off]. *)
Definition read (m : list byte) (off n : nat) : list byte :=
  take n (drop off m).

(** Overwriting [buf[0:len bs]] of a slice starting at [off]. *)
Definition write (m : list byte) (off : nat) (bs : list byte) : list byte :=
  take off m ++ bs ++ drop (off + length bs) m.

End Mem.

(* ===================================================================== *)
(** ** Host values *)
(* ===================================================================== *)

(** [type ref uint64]. *)
Abbreviation ref := Z (only parsing).

(** What an [interface{}] of this program can hold.  [DValue r d] is a
    [Value{ref: r, v: d}] held in an interface; [DFunc] stands for any
    function value, identified by a code address. *)
Inductive datum : Type :=
| DNil                                        (* the nil interface *)
| DStruct                                     (* struct{}{} *)
| DBool (b : bool)
| DInt (n : Z)
| DInt8 (n : Z)
| DFloat64 (bits : Z)
| DString (s : string)
| DFunc (code : Z)
| DJsObject (o : list (string * datum))       (* map[string]interface{} *)
| DJsArray (a : list datum)                   (* []interface{} *)
| DJsInt8Array (a : list Z)                   (* []int8 *)
| DValue (r : ref) (d : datum).

(** [type Value struct { ref ref; v interface{} }]. *)
Record Value := mkValue { Value_ref : ref; Value_v : datum }.

Definition of_Value (x : Value) : datum := DValue (Value_ref x) (Value_v x).

(** The zero [Value], which indexing a map yields for a missing key. *)
Definition zeroValue : Value := mkValue 0 DNil.

(** Dynamic types and [reflect.Kind]. *)
Inductive gotype :=
| TStruct0 | TBool | TInt | TInt8 | TFloat64 | TString | TFunc
| TjsObject | TjsArray | TjsInt8Array | TValue.

Inductive Kind :=
| KBool | KInt | KInt8 | KFloat64 | KString | KFunc | KMap | KSlice | KStruct.

(** [reflect.TypeOf]: [None] is the nil [reflect.Type] of a nil interface. *)
Definition TypeOf (d : datum) : option gotype :=
  match d with
  | DNil => None
  | DStruct => Some TStruct0
  | DBool _ => Some TBool
  | DInt _ => Some TInt
  | DInt8 _ => Some TInt8
  | DFloat64 _ => Some TFloat64
  | DString _ => Some TString
  | DFunc _ => Some TFunc
  | DJsObject _ => Some TjsObject
  | DJsArray _ => Some TjsArray
  | DJsInt8Array _ => Some TjsInt8Array
  | DValue _ _ => Some TValue
  end.

Definition Kind_of (t : gotype) : Kind :=
  match t with
  | TStruct0 => KStruct
  | TBool => KBool
  | TInt => KInt
  | TInt8 => KInt8
  | TFloat64 => KFloat64
  | TString => KString
  | TFunc => KFunc
  | TjsObject => KMap
  | TjsArray => KSlice
  | TjsInt8Array => KSlice
  | TValue => KStruct
  end.

(** The Go operator [==] on two interface values.  Different dynamic types
    are unequal; equal dynamic types that are not comparable (function, map,
    slice) make the comparison panic, which is [None].  Two [Value] structs
    are compared field by field in source order, stopping at the first
    difference. *)
Fixpoint iface_eq (x y : datum) : option bool :=
  match x, y with
  | DNil, DNil => Some true
  | DStruct, DStruct => Some true
  | DBool a, DBool b => Some (Bool.eqb a b)
  | DInt a, DInt b => Some (a =? b)
  | DInt8 a, DInt8 b => Some (a =? b)
  | DFloat64 a, DFloat64 b => Some (Float64.eqb a b)
  | DString a, DString b => Some (String.eqb a b)
  | DFunc _, DFunc _ => None
  | DJsObject _, DJsObject _ => None
  | DJsArray _, DJsArray _ => None
  | DJsInt8Array _, DJsInt8Array _ => None
  | DValue r1 d1, DValue r2 d2 => if r1 =? r2 then iface_eq d1 d2 else Some false
  | _, _ => Some false
  end.

(** [tv == w] on two [Value] structs. *)
Definition Value_eq (x y : Value) : option bool :=
  if Value_ref x =? Value_ref y then iface_eq (Value_v x) (Value_v y) else Some false.

(* ===================================================================== *)
(** ** Outcomes and the monad of host code *)
(* ===================================================================== *)

Inductive Result (A : Type) : Type :=
| Ok (a : A)
| Panic (msg : string).
Arguments Ok {A} a.
Arguments Panic {A} msg.

(** A location of a map object in the heap. *)
Definition loc := nat.

(** Everything a host function can touch: guest memory, the heap of
    handle-table map objects, and the process's termination flag. *)
Record World := mkWorld {
  memory : list byte;
  heap : list (gmap Z Value);
  terminated : bool
}.

Definition set_memory (w : World) (m : list byte) : World :=
  mkWorld m (heap w) (terminated w).
Definition set_heap (w : World) (h : list (gmap Z Value)) : World :=
  mkWorld (memory w) h (terminated w).
Definition set_terminated (w : World) : World :=
  mkWorld (memory w) (heap w) true.

Definition M (A : Type) : Type := World -> Result (A * World).

Definition ret {A} (a : A) : M A := fun w => Ok (a, w).

Definition bind {A B} (m : M A) (k : A -> M B) : M B :=
  fun w =>
    match m w with
    | Ok (a, w') => k a w'
    | Panic e => Panic e
    end.

Definition panic {A} (msg : string) : M A := fun _ => Panic msg.

Declare Scope go_scope.
Delimit Scope go_scope with go.
Notation "x <- m ;; k" := (bind m (fun x => k))
  (at level 60, m at next level, right associativity) : go_scope.
Notation "m ;;; k" := (bind m (fun _ => k))
  (at level 60, right associativity) : go_scope.
Local Open Scope go_scope.

(* ===================================================================== *)
(** ** Stand-in host objects and their capabilities *)
(* ===================================================================== *)

(** [o[v]] on a [jsObject]; a missing key gives the nil interface. *)
Fixpoint jsObject_index (o : list (string * datum)) (k : string) : datum :=
  match o with
  | [] => DNil
  | (k', d) :: o' => if String.eqb k' k then d else jsObject_index o' k
  end.

(** [func (o jsObject) Get(v string) interface{}]. *)
Definition jsObject_Get (o : list (string * datum)) (v : string) : datum :=
  jsObject_index o v.

(** [func newJSError(err error) jsObject], on the text of [err.Error()]. *)
Definition newJSError (err : string) : datum :=
  DJsObject [("message"%string, DString err)].

(** [func (a jsInt8Array) New(args ...interface{}) interface{}]: the
    assertion [v.(int8)] panics on the first argument that is not an
    [int8]. *)
Fixpoint jsInt8Array_fill (args : list datum) : Result (list Z) :=
  match args with
  | [] => Ok []
  | DInt8 n :: args' =>
      match jsInt8Array_fill args' with
      | Ok a => Ok (n :: a)
      | Panic e => Panic e
      end
  | _ :: _ => Panic "interface conversion: interface {} is not int8"
  end.

Definition jsInt8Array_New (args : list datum) : M datum :=
  fun w =>
    match jsInt8Array_fill args with
    | Ok a => Ok (DJsInt8Array a, w)
    | Panic e => Panic e
    end.

(** [func (a jsArray) New(args ...interface{}) interface{}]. *)
Definition jsArray_New (args : list datum) : M datum := ret (DJsArray args).

(** The type assertion [x.(getter)]: only [jsObject] has a [Get] method. *)
Definition getter (x : datum) : option (string -> datum) :=
  match x with
  | DJsObject o => Some (jsObject_Get o)
  | _ => None
  end.

(** The type assertion [x.(newer)]: [jsArray] and [jsInt8Array] have a
    [New] method. *)
Definition newer (x : datum) : option (list datum -> M datum) :=
  match x with
  | DJsArray _ => Some jsArray_New
  | DJsInt8Array _ => Some jsInt8Array_New
  | _ => None
  end.

Definition nan : datum := DStruct.
Definition undefined : datum := DStruct.
Definition jsGlobal : datum :=
  DJsObject [("Array"%string, DJsArray []); ("Int8Array"%string, DJsInt8Array [])].

Definition jsValueNaN : Z := 0.
Definition jsValueUndefined : Z := 1.
Definition jsValueNull : Z := 2.
Definition jsValueTrue : Z := 3.
Definition jsValueFalse : Z := 4.
Definition jsValueGlobal : Z := 5.
Definition jsValueMemory : Z := 6.
Definition jsVsGo : Z := 7.

(** The initial contents of the package-level map [defaultValues]. *)
Definition defaultValues_init : gmap Z Value :=
  <[jsValueNaN := mkValue jsValueNaN nan]>
  (<[jsValueUndefined := mkValue jsValueUndefined undefined]>
  (<[jsValueNull := mkValue jsValueNull DNil]>
  (<[jsValueTrue := mkValue jsValueTrue (DBool true)]>
  (<[jsValueFalse := mkValue jsValueFalse (DBool false)]>
  (<[jsValueGlobal := mkValue jsValueGlobal jsGlobal]>
  (<[jsValueMemory := mkValue jsValueMemory (DInt jsValueMemory)]>
  (<[jsVsGo := mkValue jsVsGo (DInt jsVsGo)]> ∅))))))).

(** The package-level variable [defaultValues] holds a reference to the one
    map object that the initialiser creates: location 0 of the heap. *)
Definition defaultValues : loc := 0%nat.

(** The world when the package has been initialised, over a guest memory. *)
Definition init_world (m : list byte) : World :=
  mkWorld m [defaultValues_init] false.

(* ===================================================================== *)
(** ** Go maps in the heap *)
(* ===================================================================== *)

(** A location outside the heap is the nil map: reads see an empty map and
    a write panics. *)
Definition table (w : World) (l : loc) : gmap Z Value :=
  match heap w !! l with
  | Some m => m
  | None => ∅
  end.

(** [m[k]]. *)
Definition map_index (l : loc) (k : Z) : M Value :=
  fun w => Ok (default zeroValue (table w l !! k), w).

(** [len(m)]. *)
Definition map_len (l : loc) : M Z :=
  fun w => Ok (Z.of_nat (size (table w l)), w).

(** [m[k] = x]. *)
Definition map_assign (l : loc) (k : Z) (x : Value) : M unit :=
  fun w =>
    match heap w !! l with
    | Some m => Ok (tt, set_heap w (<[l := <[k := x]> m]> (heap w)))
    | None => Panic "assignment to entry in nil map"
    end.

(* ===================================================================== *)
(** ** The runtime instance *)
(* ===================================================================== *)

(** [type Go struct]: the embedded module and the export table play no part
    in the codec and are left out. *)
Record Go := mkGo {
  timeOrigin : Z;
  values : loc;
  valueIndex : ref
}.

Definition set_valueIndex (g : Go) (i : ref) : Go :=
  mkGo (timeOrigin g) (values g) i.

(** [func NewGo], at the time [now] that [time.Now()] returns: [values] is
    the reference held by [defaultValues], not a copy. *)
Definition NewGo (now : Z) : M Go :=
  n <- map_len defaultValues ;;
  ret (mkGo now defaultValues (Int.uint64 n)).

(* ===================================================================== *)
(** ** Memory accessors *)
(* ===================================================================== *)

(** [buf, err := ba.BufferAt(int64(addr), 8); if err != nil panic(err)]:
    every fixed-width accessor asks for 8 bytes, whatever it goes on to
    use. *)
Definition buffer8 (addr : Z) : M nat :=
  fun w =>
    match Mem.BufferAt (memory w) addr 8 with
    | Some off => Ok (off, w)
    | None => Panic "out of bounds memory access"
    end.

Definition poke (off : nat) (bs : list byte) : M unit :=
  fun w => Ok (tt, set_memory w (Mem.write (memory w) off bs)).

Definition peek (off n : nat) : M (list byte) :=
  fun w => Ok (Mem.read (memory w) off n, w).

Definition setUInt8 (addr : Z) (v : Z) : M unit :=
  buf <- buffer8 addr ;; poke buf [Bytes.of_Z v].

Definition setUInt32 (addr : Z) (v : Z) : M unit :=
  buf <- buffer8 addr ;; poke buf (Bytes.le_encode 4 v).

Definition setRef (addr : Z) (v : ref) : M unit :=
  setUInt32 addr (Int.uint32 v).

Definition setInt32 (addr : Z) (v : Z) : M unit :=
  setUInt32 addr (Int.uint32 v).

Definition setUInt64 (addr : Z) (v : Z) : M unit :=
  buf <- buffer8 addr ;; poke buf (Bytes.le_encode 8 v).

Definition setInt64 (addr : Z) (v : Z) : M unit :=
  setUInt64 addr (Int.uint64 v).

(** [g.setUInt64(ba, addr, uint64(v))]: a numeric conversion of the
    [float64], not [math.Float64bits]. *)
Definition setFloat64 (addr : Z) (bits : Z) : M unit :=
  setUInt64 addr (Float64.to_uint64 bits).

Definition getUInt64 (addr : Z) : M Z :=
  buf <- buffer8 addr ;; bs <- peek buf 8 ;; ret (Bytes.le_decode bs).

Definition getInt64 (addr : Z) : M Z :=
  u <- getUInt64 addr ;; ret (Int.int64 u).

Definition getUInt32 (addr : Z) : M Z :=
  buf <- buffer8 addr ;; bs <- peek buf 4 ;; ret (Bytes.le_decode bs).

Definition getRef (addr : Z) : M ref :=
  getUInt32 addr.

Definition getInt32 (addr : Z) : M Z :=
  u <- getUInt32 addr ;; ret (Int.int32 u).

(** [float64(g.getUInt64(ba, addr))]: a numeric conversion of the integer,
    not [math.Float64frombits]. *)
Definition getFloat64 (addr : Z) : M Z :=
  u <- getUInt64 addr ;; ret (Float64.of_uint64 u).

(** [func (g *Go) loadSlice]: the slice as (first byte, length), or [None]
    for the error that [BufferAt] returns. *)
Definition loadSlice (sp : Z) : M (option (nat * nat)) :=
  offset <- getInt64 sp ;;
  len <- getInt64 (Int.add32 sp 8) ;;
  fun w =>
    match Mem.BufferAt (memory w) offset len with
    | Some off => Ok (Some (off, Z.to_nat len), w)
    | None => Ok (None, w)
    end.

(** [func (g *Go) setSlice]: [copy] stops at the shorter of the two. *)
Definition setSlice (sp : Z) (v : list byte) : M unit :=
  s <- loadSlice sp ;;
  match s with
  | None => panic "out of bounds memory access"
  | Some (off, n) => poke off (take n v)
  end.

(** [func (g *Go) loadString]. *)
Definition loadString (sp : Z) : M (option string) :=
  s <- loadSlice sp ;;
  match s with
  | None => ret None
  | Some (off, n) => bs <- peek off n ;; ret (Some (string_of_list_byte bs))
  end.

(* ===================================================================== *)
(** ** The value codec *)
(* ===================================================================== *)

(** [func (g *Go) loadValue]. *)
Definition loadValue (g : Go) (addr : Z) : M Value :=
  r <- getRef addr ;;
  n <- map_len (values g) ;;
  if Int.int r >? n then map_index (values g) jsValueUndefined
  else map_index (values g) r.

(** The body of the loop of [loadSliceOfValues], for the [n] indices from
    [i] on. *)
Fixpoint loadSliceOfValues_from (g : Go) (arrayAddr : Z) (i : Z) (n : nat)
  : M (list datum) :=
  match n with
  | O => ret []
  | S n' =>
      id <- getRef (Int.int32 (Int.add64 arrayAddr (Int.mul64 i 4))) ;;
      x <- map_index (values g) id ;;
      rest <- loadSliceOfValues_from g arrayAddr (i + 1) n' ;;
      ret (of_Value x :: rest)
  end.

(** [func (g *Go) loadSliceOfValues]: [make] panics on a negative
    length. *)
Definition loadSliceOfValues (g : Go) (addr : Z) : M (list datum) :=
  arrayAddr <- getInt64 addr ;;
  len <- getInt64 (Int.add32 addr 8) ;;
  if len <? 0 then panic "makeslice: len out of range"
  else loadSliceOfValues_from g arrayAddr 0 (Z.to_nat len).

Definition nanHead : Z := 0x7FF80000.
Definition typeFlagString : Z := 1.
Definition typeFlagSymbol : Z := 2.
Definition typeFlagFunction : Z := 3.

(** The second [switch] of [storeValue], on the kind of the dynamic type of
    [v]: [tf] stays 0 unless that kind is [String] or [Func]. *)
Definition typeFlag_of (k : Kind) : Z :=
  match k with
  | KString => typeFlagString
  | KFunc => typeFlagFunction
  | _ => 0
  end.

(** [reflect.TypeOf(v).Kind()] would panic on the nil type of a nil
    interface. *)
Definition typeFlag (v : datum) : M Z :=
  match TypeOf v with
  | None => panic "invalid memory address or nil pointer dereference"
  | Some t => ret (typeFlag_of (Kind_of t))
  end.

(** The statements of [storeValue] after its first [switch]. *)
Definition storeValue_tail (g : Go) (addr : Z) (v : datum) (r : ref) : M Go :=
  tf <- typeFlag v ;;
  setUInt32 (Int.add32 addr 4) (Z.lor nanHead tf) ;;;
  setRef addr r ;;;
  ret g.

(** The [default] case of the first [switch] of [storeValue]: the next
    handle is taken for [tv]. *)
Definition allocate (g : Go) (tv : datum) : M (ref * Go) :=
  let r := valueIndex g in
  map_assign (values g) r (mkValue r tv) ;;;
  ret (r, set_valueIndex g (Int.uint64 (valueIndex g + 1))).

(** [func (g *Go) storeValue].  A case of the first [switch] that does not
    return goes on to the tail, with [r] still zero in the [float64]
    case. *)
Definition storeValue (g : Go) (addr : Z) (v : datum) : M Go :=
  match v with
  | DNil =>
      setUInt32 (Int.add32 addr 4) nanHead ;;;
      setUInt32 addr jsValueNull ;;;
      ret g
  | DFloat64 tv =>
      if Float64.IsNaN tv then
        setUInt32 (Int.add32 addr 4) nanHead ;;;
        setUInt32 addr 0 ;;;
        ret g
      else
        setFloat64 addr tv ;;;
        storeValue_tail g addr v 0
  | DBool tv =>
      setUInt32 (Int.add32 addr 4) nanHead ;;;
      (if tv then setUInt32 addr jsValueTrue else setUInt32 addr jsValueFalse) ;;;
      ret g
  | DValue tr td =>
      let tv := mkValue tr td in
      u <- map_index (values g) jsValueUndefined ;;
      match Value_eq tv u with
      | None => panic "comparing uncomparable type"
      | Some true => setInt32 addr 0 ;;; ret g
      | Some false =>
          n <- map_index (values g) jsValueNull ;;
          match Value_eq tv n with
          | None => panic "comparing uncomparable type"
          | Some true => setInt32 addr 1 ;;; ret g
          | Some false => storeValue_tail g addr v (Value_ref tv)
          end
      end
  | tv =>
      a <- allocate g tv ;;
      storeValue_tail (snd a) addr v (fst a)
  end.

(* ===================================================================== *)
(** ** Error text *)
(* ===================================================================== *)

(** The text that the verb [%v] of package [fmt] prints for a host value.
    Only the shape matters here: map keys are printed in stored order, a
    [float64] by its bit pattern and a function by its code address. *)
Fixpoint Sprint (d : datum) : string :=
  match d with
  | DNil => "<nil>"
  | DStruct => "{}"
  | DBool true => "true"
  | DBool false => "false"
  | DInt n => pretty n
  | DInt8 n => pretty n
  | DFloat64 bits => "float64bits(" +:+ pretty bits +:+ ")"
  | DString s => s
  | DFunc code => "func(" +:+ pretty code +:+ ")"
  | DJsObject o =>
      "map[" +:+
      (fix entries (o : list (string * datum)) : string :=
         match o with
         | [] => ""
         | (k, d') :: o' =>
             k +:+ ":" +:+ Sprint d' +:+
             (match o' with [] => "" | _ => " " end) +:+ entries o'
         end) o +:+ "]"
  | DJsArray a =>
      "[" +:+
      (fix items (a : list datum) : string :=
         match a with
         | [] => ""
         | d' :: a' =>
             Sprint d' +:+ (match a' with [] => "" | _ => " " end) +:+ items a'
         end) a +:+ "]"
  | DJsInt8Array a =>
      "[" +:+
      (fix items (a : list Z) : string :=
         match a with
         | [] => ""
         | n :: a' =>
             pretty n +:+ (match a' with [] => "" | _ => " " end) +:+ items a'
         end) a +:+ "]"
  | DValue r d' => "{" +:+ pretty r +:+ " " +:+ Sprint d' +:+ "}"
  end.

Definition quoted (s : string) : string :=
  String "034"%char (s +:+ String "034"%char EmptyString).

(** [fmt.Errorf("value %v of type %q is not a newer", v, reflect.TypeOf(v))]
    on a [Value] [v], whose static type is printed. *)
Definition Errorf_not_a_newer (v : Value) : string :=
  "value " +:+ Sprint (of_Value v) +:+ " of type " +:+
  quoted "modules.Value" +:+ " is not a newer".

(* ===================================================================== *)
(** ** The exported host functions *)
(* ===================================================================== *)

(** [proc.Terminate()]. *)
Definition Terminate : M unit := fun w => Ok (tt, set_terminated w).

(** [func stub(name string)]: prints and returns. *)
Definition stub (name : string) (sp : Z) : M unit := ret tt.

Definition exportValuePrepareString (g : Go) (sp : Z) : M Go :=
  s <- loadString (Int.add32 sp 8) ;;
  match s with
  | None => panic "out of bounds memory access"
  | Some str =>
      g' <- storeValue g (Int.add32 sp 16) (DString str) ;;
      setInt64 (Int.add32 sp 24) (Z.of_nat (String.length str)) ;;;
      ret g'
  end.

(** The assertion [str.v.(string)] panics on anything but a string. *)
Definition exportValueLoadString (g : Go) (sp : Z) : M Go :=
  str <- loadValue g (Int.add32 sp 8) ;;
  match Value_v str with
  | DString s => setSlice (Int.add32 sp 8) (list_byte_of_string s) ;;; ret g
  | _ => panic "interface conversion: interface {} is not string"
  end.

Definition exportStringVal (g : Go) (sp : Z) : M Go :=
  s <- loadString (Int.add32 sp 8) ;;
  match s with
  | None => panic "out of bounds memory access"
  | Some str => storeValue g (Int.add32 sp 24) (DString str)
  end.

Definition exportValueNew (g : Go) (sp : Z) : M Go :=
  v <- loadValue g (Int.add32 sp 8) ;;
  args <- loadSliceOfValues g (Int.add32 sp 16) ;;
  match newer (Value_v v) with
  | None =>
      let err := Errorf_not_a_newer v in
      g' <- storeValue g (Int.add32 sp 40) (newJSError err) ;;
      setUInt8 (Int.add32 sp 48) 0 ;;;
      ret g'
  | Some New =>
      c <- New args ;;
      g' <- storeValue g (Int.add32 sp 40) c ;;
      setUInt8 (Int.add32 sp 48) 1 ;;;
      ret g'
  end.

Definition exportValueCall (g : Go) (sp : Z) : M Go :=
  v <- loadValue g (Int.add32 sp 8) ;;
  f <- loadString (Int.add32 sp 16) ;;
  match f with
  | None => panic "out of bounds memory access"
  | Some _ =>
      match getter (Value_v v) with
      | None => Terminate ;;; ret g
      | Some _ =>
          args <- loadSliceOfValues g (Int.add32 sp 32) ;;
          ret g
      end
  end.

Definition exportValueGet (g : Go) (sp : Z) : M Go :=
  v <- loadValue g (Int.add32 sp 8) ;;
  s <- loadString (Int.add32 sp 16) ;;
  match s with
  | None => panic "out of bounds memory access"
  | Some str =>
      match getter (Value_v v) with
      | None => Terminate ;;; ret g
      | Some Get => storeValue g (Int.add32 sp 32) (Get str)
      end
  end.

(** [time.Now().UnixNano()] is the argument [now]; the Go operator [/]
    truncates toward zero. *)
Definition exportWalltime (g : Go) (now : Z) (sp : Z) : M Go :=
  let nsec := Int.int64 now in
  let secs := Int.int64 (Z.quot nsec 1000000000) in
  let nsec := Int.int64 (nsec - Int.mul64 secs 1000000000) in
  setInt64 (Int.add32 sp 8) secs ;;;
  setInt32 (Int.add32 sp 16) (Int.int32 nsec) ;;;
  ret g.

(** [time.Since(g.timeOrigin).Nanoseconds()], at the time [now]. *)
Definition exportNanotime (g : Go) (now : Z) (sp : Z) : M Go :=
  setInt64 (Int.add32 sp 8) (Int.int64 (now - timeOrigin g)) ;;;
  ret g.

(** [rand.Read(s)] fills the whole slice; [rnd] is the source of bytes. *)
Definition exportGetRandomData (g : Go) (rnd : nat -> byte) (sp : Z) : M Go :=
  s <- loadSlice sp ;;
  match s with
  | None => panic "out of bounds memory access"
  | Some (off, n) => poke off (map rnd (seq 0 n)) ;;; ret g
  end.

Definition exportWasmWrite (g : Go) (sp : Z) : M Go :=
  s <- loadString (Int.add32 sp 16) ;;
  match s with
  | None => panic "out of bounds memory access"
  | Some _ => ret g
  end.

Definition exportExit (g : Go) (sp : Z) : M Go :=
  Terminate ;;; ret g.

(* ===================================================================== *)
(** ** The export table and a guest session *)
(* ===================================================================== *)

(** The names under which [loadExports] registers the host functions. *)
Inductive export : Type :=
| debug
| runtime_wasmExit
| runtime_wasmWrite
| runtime_nanotime
| runtime_walltime
| runtime_scheduleCallback
| runtime_clearScheduledCallback
| runtime_getRandomData
| syscall_js_stringVal
| syscall_js_valueGet
| syscall_js_valueCall
| syscall_js_valueNew
| syscall_js_valuePrepareString
| syscall_js_valueLoadString.

(** What the host supplies to a call from outside the program: the reading
    of the clock and the random bytes. *)
Record Env := mkEnv { now : Z; random : nat -> byte }.

(** The [Func] entry of an export, called on the stack pointer [sp]. *)
Definition call (e : export) (g : Go) (env : Env) (sp : Z) : M Go :=
  match e with
  | debug => stub "debug" sp ;;; ret g
  | runtime_wasmExit => exportExit g sp
  | runtime_wasmWrite => exportWasmWrite g sp
  | runtime_nanotime => exportNanotime g (now env) sp
  | runtime_walltime => exportWalltime g (now env) sp
  | runtime_scheduleCallback => stub "runtime.scheduleCallback" sp ;;; ret g
  | runtime_clearScheduledCallback => stub "runtime.clearScheduledCallback" sp ;;; ret g
  | runtime_getRandomData => exportGetRandomData g (random env) sp
  | syscall_js_stringVal => exportStringVal g sp
  | syscall_js_valueGet => exportValueGet g sp
  | syscall_js_valueCall => exportValueCall g sp
  | syscall_js_valueNew => exportValueNew g sp
  | syscall_js_valuePrepareString => exportValuePrepareString g sp
  | syscall_js_valueLoadString => exportValueLoadString g sp
  end.

(** What happens during a session of one instance: the guest calls a host
    function, the guest runs and leaves its memory changed, or host code
    encodes a value with [storeValue]. *)
Inductive event : Type :=
| Call (e : export) (env : Env) (sp : Z)
| Guest (m : list byte)
| Store (addr : Z) (v : datum).

Definition step (ev : event) (g : Go) : M Go :=
  match ev with
  | Call e env sp => call e g env sp
  | Guest m => fun w => Ok (g, set_memory w m)
  | Store addr v => storeValue g addr v
  end.

Fixpoint run (evs : list event) (g : Go) : M Go :=
  match evs with
  | [] => ret g
  | ev :: evs' => g' <- step ev g ;; run evs' g'
  end.

(** A sequence of encodes, with the handle [r = g.valueIndex] that the
    [default] case of each takes. *)
Fixpoint storeValues (g : Go) (l : list (Z * datum)) : M (list ref * Go) :=
  match l with
  | [] => ret ([], g)
  | (addr, v) :: l' =>
      g' <- storeValue g addr v ;;
      r <- storeValues g' l' ;;
      ret (valueIndex g :: fst r, snd r)
  end.

(* ===================================================================== *)
(** ** Vocabulary of the statements *)
(* ===================================================================== *)

(** The 8 bytes from [addr] on lie inside guest memory: what every
    fixed-width accessor needs in order not to panic. *)
Definition in_bounds8 (w : World) (addr : Z) : Prop :=
  0 <= addr /\ addr + 8 <= Z.of_nat (length (memory w)).

(** The value of an [int32] variable. *)
Definition is_int32 (x : Z) : Prop := - 2 ^ 31 <= x < 2 ^ 31.

(** The 32-bit word that guest memory holds at [addr]. *)
Definition word32_at (w : World) (addr : Z) : Z :=
  Bytes.le_decode (Mem.read (memory w) (Z.to_nat addr) 4).

(** The 64-bit word that guest memory holds at [addr]. *)
Definition word64_at (w : World) (addr : Z) : Z :=
  Bytes.le_decode (Mem.read (memory w) (Z.to_nat addr) 8).

(** The byte that guest memory holds at [addr]. *)
Definition byte_at (w : World) (addr : Z) : option byte :=
  memory w !! Z.to_nat addr.

(** The world once the tag word and then the payload word of the slot at
    [addr] have been written. *)
Definition slot_written (w : World) (addr : Z) (tag payload : Z) : World :=
  set_memory w
    (Mem.write
       (Mem.write (memory w) (Z.to_nat (Int.add32 addr 4)) (Bytes.le_encode 4 tag))
       (Z.to_nat addr) (Bytes.le_encode 4 payload)).

(** A guest memory of [n] zero bytes, and the instance that [NewGo] returns
    the first time: sample states for the concrete runs below. *)
Definition zeros (n : nat) : list byte := replicate n x00.

Definition first_Go : Go := mkGo 0 defaultValues 8.

(** The bit patterns of the doubles 1.0, 1.5 and 2.0, and of the canonical
    quiet NaN that has the tag word [nanHead] over a zero payload. *)
Definition float64_1_0 : Z := 0x3FF0000000000000.
Definition float64_1_5 : Z := 0x3FF8000000000000.
Definition float64_2_0 : Z := 0x4000000000000000.
Definition float64_quiet_NaN : Z := 0x7FF8000000000000.

Definition ones (n : nat) : list byte := replicate n xff.

(** The type flag as the specification words it: by the underlying datum of
    the value, so that a [Value] wrapping a string counts as a string. *)
Definition underlying (v : datum) : datum :=
  match v with
  | DValue _ d => d
  | _ => v
  end.

Definition claimed_typeFlag (v : datum) : Z :=
  match underlying v with
  | DString _ => 1
  | DFunc _ => 3
  | _ => 0
  end.

(** The encodes that the specification calls non-fast-path: every value but
    a finite [float64]. *)
Definition non_fast_path (v : datum) : bool :=
  match v with
  | DFloat64 d => negb (Float64.finite d)
  | _ => true
  end.

(** The type flag by the dynamic type of the value itself. *)
Definition own_typeFlag (v : datum) : Z :=
  match v with
  | DString _ => typeFlagString
  | DFunc _ => typeFlagFunction
  | _ => 0
  end.

(** The values for which [storeValue] writes a tag word of its own accord:
    everything but an existing [Value] and a [float64] that is not a NaN. *)
Definition writes_tag_word (v : datum) : bool :=
  match v with
  | DValue _ _ => false
  | DFloat64 d => Float64.IsNaN d
  | _ => true
  end.

(** The values that take the [default] case of [storeValue]: a new handle
    is allocated for them. *)
Definition is_new (v : datum) : bool :=
  match v with
  | DNil | DFloat64 _ | DBool _ | DValue _ _ => false
  | _ => true
  end.

(** The instance and the world once [allocate] has taken a handle for
    [v]. *)
Definition next_Go (g : Go) : Go :=
  set_valueIndex g (Int.uint64 (valueIndex g + 1)).

Definition allocated (g : Go) (w : World) (v : datum) : World :=
  set_heap w
    (<[values g := <[valueIndex g := mkValue (valueIndex g) v]> (table w (values g))]>
       (heap w)).

(** The first eight handles are bound as [defaultValues] binds them. *)
Definition reserved_bound (g : Go) (w : World) : Prop :=
  forall h, 0 <= h < 8 -> table w (values g) !! h = defaultValues_init !! h.

(** No handle from the counter on is in the table yet. *)
Definition fresh_above (g : Go) (w : World) : Prop :=
  forall k, valueIndex g <= k -> table w (values g) !! k = None.

(** A guest memory of [n] zero bytes with the given byte strings placed at
    the given offsets. *)
Definition layout (n : nat) (l : list (nat * list byte)) : list byte :=
  fold_left (fun m p => Mem.write m (fst p) (snd p)) l (zeros n).

(** What a host operation may do to an instance and its table: nothing, or
    one allocation. *)
Definition table_effect (g : Go) (w : World) (g' : Go) (w' : World) : Prop :=
  (g' = g /\ heap w' = heap w) \/
  (exists v, is_new v = true /\ is_Some (heap w !! values g) /\
             g' = next_Go g /\ heap w' = heap (allocated g w v)).

(** Scenario B of the specification, as far as the wire format lets it be
    set up: the table binds handle 8 to the array constructor and, since an
    argument list is a list of handles, handles 9 and 10 to the numbers 1.0
    and 2.0.  Memory holds a construct-new frame at 0 (target 8, two
    arguments at 64) and a get-property frame at 80 (target 11, the name [0]
    at 120). *)
Definition scenario_B_table : gmap Z Value :=
  <[10 := mkValue 10 (DFloat64 float64_2_0)]>
  (<[9 := mkValue 9 (DFloat64 float64_1_0)]>
  (<[8 := mkValue 8 (DJsArray [])]> defaultValues_init)).

Definition scenario_B_memory : list byte :=
  layout 128
    [(8%nat, Bytes.le_encode 4 8);
     (16%nat, Bytes.le_encode 8 64); (24%nat, Bytes.le_encode 8 2);
     (64%nat, Bytes.le_encode 4 9); (68%nat, Bytes.le_encode 4 10);
     (88%nat, Bytes.le_encode 4 11);
     (96%nat, Bytes.le_encode 8 120); (104%nat, Bytes.le_encode 8 1);
     (120%nat, list_byte_of_string "0")].

Definition scenario_B_world : World :=
  mkWorld scenario_B_memory [scenario_B_table] false.

Definition scenario_B_Go : Go := mkGo 0 defaultValues 11.

Definition scenario_B_array : datum :=
  DJsArray [DValue 9 (DFloat64 float64_1_0); DValue 10 (DFloat64 float64_2_0)].

(** A session on a new instance: a get-property frame at 0 (target 5, the
    global object; the name [Int8Array] at 128) and a construct-new frame
    at 64 (target 8, one argument at 144: handle 3). *)
Definition scenario_Int8Array_memory : list byte :=
  layout 160
    [(8%nat, Bytes.le_encode 4 5);
     (16%nat, Bytes.le_encode 8 128); (24%nat, Bytes.le_encode 8 9);
     (128%nat, list_byte_of_string "Int8Array");
     (72%nat, Bytes.le_encode 4 8);
     (80%nat, Bytes.le_encode 8 144); (88%nat, Bytes.le_encode 8 1);
     (144%nat, Bytes.le_encode 4 3)].

(** A get-property frame at 0 whose target is handle 3, the boolean
    [true], with the name [x] at 40. *)
Definition scenario_bool_memory : list byte :=
  layout 48
    [(8%nat, Bytes.le_encode 4 3);
     (16%nat, Bytes.le_encode 8 40); (24%nat, Bytes.le_encode 8 1);
     (40%nat, list_byte_of_string "x")].

(** A host environment for the concrete runs: the clock reads 0 and the
    random bytes are zero. *)
Definition env0 : Env := mkEnv 0 (fun _ => x00).

(** A session on a new instance: get-property of [Int8Array] on the global
    object, an encode of a string, and the guest leaving handle 5 at the
    start of a fresh memory. *)
Definition sample_session : list event :=
  [Call syscall_js_valueGet env0 0;
   Store 40 (DString "hi");
   Guest (Bytes.le_encode 4 5 ++ zeros 12)].

(** Three values that take the new-value path, with the slots they are
    encoded at. *)
Definition sample_stores : list (Z * datum) :=
  [(0, DString "a"); (8, DJsArray []); (0, DFunc 4096)].

(** The [n] consecutive handles from [r] on. *)
Fixpoint handles_from (r : ref) (n : nat) : list ref :=
  match n with
  | O => []
  | S n' => r :: handles_from (r + 1) n'
  end.

(** Two memories of one size that agree on every byte outside the [n]
    bytes from [off] on. *)
Definition same_outside (m m' : list byte) (off n : nat) : Prop :=
  length m' = length m /\
  forall i : nat, (i < off \/ off + n <= i)%nat -> m' !! i = m !! i.

(** The reserved handle that [storeValue] writes for a value it encodes
    without consulting the table. *)
Definition reserved_handle_of (v : datum) : option Z :=
  match v with
  | DNil => Some jsValueNull
  | DBool true => Some jsValueTrue
  | DBool false => Some jsValueFalse
  | DFloat64 d => if Float64.IsNaN d then Some jsValueNaN else None
  | _ => None
  end.

(** The slice that the descriptor at [sp] denotes: offset in the 8 bytes at
    [sp], length in the 8 bytes after them; [None] where [BufferAt]
    refuses it. *)
Definition slice_at (w : World) (sp : Z) : option (nat * nat) :=
  let len := Int.int64 (word64_at w (Int.add32 sp 8)) in
  match Mem.BufferAt (memory w) (Int.int64 (word64_at w sp)) len with
  | Some off => Some (off, Z.to_nat len)
  | None => None
  end.

(** The address of the [j]-th handle of an argument list whose array
    starts at [arrayAddr]. *)
Definition element_addr (arrayAddr : Z) (j : nat) : Z :=
  Int.int32 (Int.add64 arrayAddr (Int.mul64 (Z.of_nat j) 4)).

(** A slice descriptor at 0 for the two bytes at 16. *)
Definition scenario_slice_memory : list byte :=
  layout 24 [(0%nat, Bytes.le_encode 8 16); (8%nat, Bytes.le_encode 8 2)].

(** A make-string frame at 0: the descriptor at 8 denotes the two bytes
    [hi] at 40; the result slot is at 24. *)
Definition scenario_string_memory : list byte :=
  layout 48
    [(8%nat, Bytes.le_encode 8 40); (16%nat, Bytes.le_encode 8 2);
     (40%nat, list_byte_of_string "hi")].

(** A load-string-bytes frame at 0 whose slot at 8 holds handle 8 over a
    zero high word, followed by the length 2; the slot at 24 is free. *)
Definition scenario_load_memory : list byte :=
  layout 40 [(8%nat, Bytes.le_encode 8 8); (16%nat, Bytes.le_encode 8 2)].

(** A get-property frame at 0 on the global object (handle 5) with the
    name [Nope] at 128. *)
Definition scenario_missing_memory : list byte :=
  layout 160
    [(8%nat, Bytes.le_encode 4 5);
     (16%nat, Bytes.le_encode 8 128); (24%nat, Bytes.le_encode 8 4);
     (128%nat, list_byte_of_string "Nope")].

(** A get-property frame at 0 on the global object with the name [Array]
    at 128. *)
Definition scenario_get_memory : list byte :=
  layout 160
    [(8%nat, Bytes.le_encode 4 5);
     (16%nat, Bytes.le_encode 8 128); (24%nat, Bytes.le_encode 8 5);
     (128%nat, list_byte_of_string "Array")].

(** An argument list at 0: the two handles 3 and 100 at 16. *)
Definition scenario_arguments_memory : list byte :=
  layout 32
    [(0%nat, Bytes.le_encode 8 16); (8%nat, Bytes.le_encode 8 2);
     (16%nat, Bytes.le_encode 4 3); (20%nat, Bytes.le_encode 4 100)].

(** The second world has guest memory of the same size and the same
    termination flag as the first. *)
Definition same_shape (w w' : World) : Prop :=
  length (memory w') = length (memory w) /\ terminated w' = terminated w.

(** The exports that call [proc.Terminate]. *)
Definition may_terminate (e : export) : bool :=
  match e with
  | runtime_wasmExit | syscall_js_valueGet | syscall_js_valueCall => true
  | _ => false
  end.

(** The exports that write to guest memory. *)
Definition may_write (e : export) : bool :=
  match e with
  | debug | runtime_wasmExit | runtime_wasmWrite
  | runtime_scheduleCallback | runtime_clearScheduledCallback
  | syscall_js_valueCall => false
  | _ => true
  end.

(** A call-method frame at 0 on the global object with the name [Nope] at
    128 and an argument list of the one handle 3 at 144. *)
Definition scenario_call_memory : list byte :=
  layout 160
    [(8%nat, Bytes.le_encode 4 5);
     (16%nat, Bytes.le_encode 8 128); (24%nat, Bytes.le_encode 8 4);
     (32%nat, Bytes.le_encode 8 144); (40%nat, Bytes.le_encode 8 1);
     (128%nat, list_byte_of_string "Nope");
     (144%nat, Bytes.le_encode 4 3)].

(* ===================================================================== *)
(** * Properties *)
(* ===================================================================== *)

(** ** Little-endian words *)

Section LittleEndian.

Lemma to_Z_of_Z (x : Z) : Bytes.to_Z (Bytes.of_Z x) = x mod 256.
Proof.
  unfold Bytes.to_Z, Bytes.of_Z.
  assert (Hb : 0 <= x mod 256 < 256) by (apply Z.mod_pos_bound; lia).
  destruct (Byte.of_N (Z.to_N (x mod 256))) as [b|] eqn:E.
  - apply Byte.to_of_N in E. rewrite E. lia.
  - apply Byte.of_N_None_iff in E. lia.
Qed.

Lemma length_le_encode (n : nat) (x : Z) : length (Bytes.le_encode n x) = n.
Proof. revert x. induction n as [|n IH]; intros x; simpl; [reflexivity | now rewrite IH]. Qed.

Lemma le_decode_encode (n : nat) (x : Z) :
  Bytes.le_decode (Bytes.le_encode n x) = x mod 256 ^ Z.of_nat n.
Proof.
  revert x. induction n as [|n IH]; intros x.
  - simpl. now rewrite Z.mod_1_r.
  - cbn [Bytes.le_encode Bytes.le_decode]. rewrite to_Z_of_Z, IH.
    rewrite Nat2Z.inj_succ, Z.pow_succ_r by lia.
    rewrite Z.rem_mul_r by lia. reflexivity.
Qed.

Lemma le_decode_encode_4 (x : Z) :
  Bytes.le_decode (Bytes.le_encode 4 x) = Int.uint32 x.
Proof. rewrite le_decode_encode. reflexivity. Qed.

(** Two 32-bit words side by side read as one 64-bit word. *)
Lemma le_decode_app (a b : list byte) :
  Bytes.le_decode (a ++ b) =
  Bytes.le_decode a + 256 ^ Z.of_nat (length a) * Bytes.le_decode b.
Proof.
  induction a as [|x a IH].
  - simpl. lia.
  - cbn [app Bytes.le_decode length]. rewrite IH, Nat2Z.inj_succ, Z.pow_succ_r by lia. ring.
Qed.

End LittleEndian.

(** ** Reads and writes of guest memory *)

Section Memory.

Implicit Types (m bs : list byte) (off n i : nat).

Lemma length_write m off bs :
  (off + length bs <= length m)%nat -> length (Mem.write m off bs) = length m.
Proof.
  intros H. unfold Mem.write.
  rewrite !length_app, length_take, length_drop. lia.
Qed.

Lemma lookup_write m off bs i :
  (off + length bs <= length m)%nat ->
  Mem.write m off bs !! i =
  if decide (off <= i < off + length bs)%nat then bs !! (i - off)%nat else m !! i.
Proof.
  intros H. unfold Mem.write.
  assert (Ht : length (take off m) = off) by (rewrite length_take; lia).
  destruct (decide (i < off)%nat) as [Hlt|Hge].
  - rewrite lookup_app_l by lia. rewrite lookup_take_lt by lia.
    destruct (decide _); [lia | reflexivity].
  - rewrite lookup_app_r by lia. rewrite Ht.
    destruct (decide (i < off + length bs)%nat) as [Hin|Hout].
    + rewrite lookup_app_l by lia. destruct (decide _); [reflexivity | lia].
    + rewrite lookup_app_r by lia. rewrite lookup_drop.
      destruct (decide _); [lia | f_equal; lia].
Qed.

Lemma lookup_read m off n i :
  Mem.read m off n !! i = if decide (i < n)%nat then m !! (off + i)%nat else None.
Proof. unfold Mem.read. rewrite lookup_take, lookup_drop. reflexivity. Qed.

(** Reading back the bytes just written. *)
Lemma read_write_same m off bs n :
  n = length bs -> (off + n <= length m)%nat ->
  Mem.read (Mem.write m off bs) off n = bs.
Proof.
  intros -> H. apply list_eq. intros i.
  rewrite lookup_read. destruct (decide (i < length bs)%nat) as [Hi|Hi].
  - rewrite lookup_write by lia. destruct (decide _); [f_equal; lia | lia].
  - symmetry. apply lookup_ge_None. lia.
Qed.

(** A write leaves every disjoint span as it was. *)
Lemma read_write_disjoint m off bs off' n :
  (off + length bs <= length m)%nat ->
  (off' + n <= off \/ off + length bs <= off')%nat ->
  Mem.read (Mem.write m off bs) off' n = Mem.read m off' n.
Proof.
  intros H Hd. apply list_eq. intros i.
  rewrite !lookup_read. destruct (decide (i < n)%nat) as [Hi|Hi]; [|reflexivity].
  rewrite lookup_write by lia. destruct (decide _); [lia | reflexivity].
Qed.

Lemma length_read m off n :
  (off + n <= length m)%nat -> length (Mem.read m off n) = n.
Proof. intros H. unfold Mem.read. rewrite length_take, length_drop. lia. Qed.

Lemma read_app m off n k :
  Mem.read m off (n + k) = Mem.read m off n ++ Mem.read m (off + n) k.
Proof.
  unfold Mem.read. rewrite <- (take_take_drop (drop off m) n k).
  now rewrite drop_drop.
Qed.

Lemma BufferAt_Some m offset len off :
  Mem.BufferAt m offset len = Some off <->
  0 <= offset /\ 0 <= len /\ offset + len <= Z.of_nat (length m) /\ off = Z.to_nat offset.
Proof.
  unfold Mem.BufferAt.
  destruct (0 <=? offset) eqn:E1, (0 <=? len) eqn:E2,
    (offset + len <=? Z.of_nat (length m)) eqn:E3; simpl;
    split; intros H; try discriminate; try (inversion H; subst; lia);
    try (destruct H as (? & ? & ? & ->); first [reflexivity | lia]).
Qed.

End Memory.

(** ** Running host code *)

Section Monad.

Context {A B : Type}.

Lemma bind_Ok (m : M A) (k : A -> M B) (w : World) (r : B * World) :
  bind m k w = Ok r <-> exists a w', m w = Ok (a, w') /\ k a w' = Ok r.
Proof.
  unfold bind. split.
  - destruct (m w) as [[a w']|e]; [eauto | discriminate].
  - intros (a & w' & -> & H). exact H.
Qed.

Lemma bind_run (m : M A) (k : A -> M B) (w w' : World) (a : A) :
  m w = Ok (a, w') -> bind m k w = k a w'.
Proof. unfold bind. now intros ->. Qed.

Lemma bind_Panic (m : M A) (k : A -> M B) (w : World) (e : string) :
  m w = Panic e -> bind m k w = Panic e.
Proof. unfold bind. now intros ->. Qed.

End Monad.

(** Breaks a hypothesis [H : (x <- m ;; k) w = Ok r] into its steps. *)
Ltac bind_inv H :=
  let a := fresh "a" in
  let w := fresh "w" in
  let H1 := fresh "Hstep" in
  apply bind_Ok in H; destruct H as (a & w & H1 & H).

Ltac ret_inv H :=
  unfold ret in H; injection H as; subst.

Section Accessors.

Implicit Types (w : World) (addr v : Z).

Lemma buffer8_Ok addr w off w' :
  buffer8 addr w = Ok (off, w') <->
  in_bounds8 w addr /\ off = Z.to_nat addr /\ w' = w.
Proof.
  unfold buffer8, in_bounds8.
  destruct (Mem.BufferAt (memory w) addr 8) as [o|] eqn:E.
  - apply BufferAt_Some in E. destruct E as (H0 & _ & H1 & ->).
    split; [intros [= <- <-]; auto | intros (_ & -> & ->); reflexivity].
  - split; [discriminate|]. intros ((H0 & H1) & _).
    assert (Hs : Mem.BufferAt (memory w) addr 8 = Some (Z.to_nat addr))
      by (apply BufferAt_Some; repeat split; lia).
    congruence.
Qed.

Lemma buffer8_run addr w :
  in_bounds8 w addr -> buffer8 addr w = Ok (Z.to_nat addr, w).
Proof. intros H. apply buffer8_Ok. auto. Qed.

Lemma setUInt32_Ok addr v w u w' :
  setUInt32 addr v w = Ok (u, w') <->
  in_bounds8 w addr /\
  w' = set_memory w (Mem.write (memory w) (Z.to_nat addr) (Bytes.le_encode 4 v)).
Proof.
  unfold setUInt32. rewrite bind_Ok. split.
  - intros (off & w1 & H1 & H2). apply buffer8_Ok in H1. destruct H1 as (Hb & -> & ->).
    unfold poke in H2. injection H2 as _ <-. auto.
  - intros (Hb & ->). exists (Z.to_nat addr), w. split; [now apply buffer8_run|].
    unfold poke. now destruct u.
Qed.

Lemma setUInt64_Ok addr v w u w' :
  setUInt64 addr v w = Ok (u, w') <->
  in_bounds8 w addr /\
  w' = set_memory w (Mem.write (memory w) (Z.to_nat addr) (Bytes.le_encode 8 v)).
Proof.
  unfold setUInt64. rewrite bind_Ok. split.
  - intros (off & w1 & H1 & H2). apply buffer8_Ok in H1. destruct H1 as (Hb & -> & ->).
    unfold poke in H2. injection H2 as _ <-. auto.
  - intros (Hb & ->). exists (Z.to_nat addr), w. split; [now apply buffer8_run|].
    unfold poke. now destruct u.
Qed.

Lemma setUInt8_Ok addr v w u w' :
  setUInt8 addr v w = Ok (u, w') <->
  in_bounds8 w addr /\
  w' = set_memory w (Mem.write (memory w) (Z.to_nat addr) [Bytes.of_Z v]).
Proof.
  unfold setUInt8. rewrite bind_Ok. split.
  - intros (off & w1 & H1 & H2). apply buffer8_Ok in H1. destruct H1 as (Hb & -> & ->).
    unfold poke in H2. injection H2 as _ <-. auto.
  - intros (Hb & ->). exists (Z.to_nat addr), w. split; [now apply buffer8_run|].
    unfold poke. now destruct u.
Qed.

Lemma getUInt32_Ok addr w x w' :
  getUInt32 addr w = Ok (x, w') <->
  in_bounds8 w addr /\ x = word32_at w addr /\ w' = w.
Proof.
  unfold getUInt32, word32_at. rewrite bind_Ok. split.
  - intros (off & w1 & H1 & H2). apply buffer8_Ok in H1. destruct H1 as (Hb & -> & ->).
    unfold bind, peek, ret in H2. injection H2 as <- <-. auto.
  - intros (Hb & -> & ->). exists (Z.to_nat addr), w. split; [now apply buffer8_run|].
    reflexivity.
Qed.

Lemma getUInt64_Ok addr w x w' :
  getUInt64 addr w = Ok (x, w') <->
  in_bounds8 w addr /\ x = word64_at w addr /\ w' = w.
Proof.
  unfold getUInt64, word64_at. rewrite bind_Ok. split.
  - intros (off & w1 & H1 & H2). apply buffer8_Ok in H1. destruct H1 as (Hb & -> & ->).
    unfold bind, peek, ret in H2. injection H2 as <- <-. auto.
  - intros (Hb & -> & ->). exists (Z.to_nat addr), w. split; [now apply buffer8_run|].
    reflexivity.
Qed.

Lemma getInt64_Ok addr w x w' :
  getInt64 addr w = Ok (x, w') <->
  in_bounds8 w addr /\ x = Int.int64 (word64_at w addr) /\ w' = w.
Proof.
  unfold getInt64. rewrite bind_Ok. split.
  - intros (u & w1 & H1 & H2). apply getUInt64_Ok in H1. destruct H1 as (Hb & -> & ->).
    unfold ret in H2. injection H2 as <- <-. auto.
  - intros (Hb & -> & ->). exists (word64_at w addr), w.
    split; [apply getUInt64_Ok; auto | reflexivity].
Qed.

(** A write of [k] bytes inside bounds keeps every span in bounds. *)
Lemma in_bounds8_write w off bs addr :
  (off + length bs <= length (memory w))%nat ->
  in_bounds8 (set_memory w (Mem.write (memory w) off bs)) addr <-> in_bounds8 w addr.
Proof. intros H. unfold in_bounds8. simpl. now rewrite length_write. Qed.

End Accessors.

(** ** Address arithmetic *)

Section Addresses.

(** An [int32] sum that is a valid address has not wrapped around. *)
Lemma add32_no_wrap (a k : Z) :
  is_int32 a -> 0 <= k < 2 ^ 31 -> 0 <= a -> 0 <= Int.add32 a k ->
  Int.add32 a k = a + k.
Proof.
  unfold is_int32, Int.add32, Int.int32. intros Ha Hk H0 H.
  destruct (Z_lt_dec (a + k) (2 ^ 31)) as [Hs|Hl].
  - rewrite Z.mod_small by lia. lia.
  - assert (E : (a + k + 2 ^ 31) mod 2 ^ 32 = a + k + 2 ^ 31 - 2 ^ 32)
      by (symmetry; apply Z.mod_unique with 1; lia).
    rewrite E in H. lia.
Qed.

Lemma add32_in_bounds (w : World) (a k : Z) :
  is_int32 a -> 0 <= k < 2 ^ 31 -> 0 <= a -> in_bounds8 w (Int.add32 a k) ->
  Int.add32 a k = a + k.
Proof. intros Ha Hk H0 [H _]. now apply add32_no_wrap. Qed.

Lemma add32_small (a k : Z) :
  0 <= a -> 0 <= k -> a + k < 2 ^ 31 -> Int.add32 a k = a + k.
Proof.
  intros. unfold Int.add32, Int.int32. rewrite Z.mod_small by lia. lia.
Qed.

Lemma uint32_small (x : Z) : 0 <= x < 2 ^ 32 -> Int.uint32 x = x.
Proof. intros. unfold Int.uint32. now apply Z.mod_small. Qed.

Lemma uint64_small (x : Z) : 0 <= x < 2 ^ 64 -> Int.uint64 x = x.
Proof. intros. unfold Int.uint64. now apply Z.mod_small. Qed.

Lemma int64_small (x : Z) : - 2 ^ 63 <= x < 2 ^ 63 -> Int.int64 x = x.
Proof. intros. unfold Int.int64. rewrite Z.mod_small by lia. lia. Qed.

Lemma uint32_range (x : Z) : 0 <= Int.uint32 x < 2 ^ 32.
Proof. unfold Int.uint32. apply Z.mod_pos_bound. lia. Qed.

Lemma word32_at_range (w : World) (a : Z) :
  in_bounds8 w a -> 0 <= word32_at w a < 2 ^ 32.
Proof.
  intros [H0 H1]. unfold word32_at.
  assert (L : length (Mem.read (memory w) (Z.to_nat a) 4) = 4%nat)
    by (apply length_read; lia).
  destruct (Mem.read (memory w) (Z.to_nat a) 4) as [|b0 [|b1 [|b2 [|b3 [|]]]]];
    try discriminate.
  cbn [Bytes.le_decode].
  assert (Hb : forall b, 0 <= Bytes.to_Z b < 256).
  { intros b. unfold Bytes.to_Z.
    pose proof (Byte.to_N_bounded b). lia. }
  pose proof (Hb b0). pose proof (Hb b1). pose proof (Hb b2). pose proof (Hb b3). lia.
Qed.

End Addresses.

(** ** The two words of a slot *)

Section Slot.

(** After the tag word and then the payload word have been written, both
    read back. *)
Lemma slot_words (m : list byte) (a : Z) (tag payload : Z) :
  0 <= a -> a + 12 <= Z.of_nat (length m) ->
  let m' := Mem.write (Mem.write m (Z.to_nat (a + 4)) (Bytes.le_encode 4 tag))
                      (Z.to_nat a) (Bytes.le_encode 4 payload) in
  length m' = length m /\
  Bytes.le_decode (Mem.read m' (Z.to_nat a) 4) = Int.uint32 payload /\
  Bytes.le_decode (Mem.read m' (Z.to_nat (a + 4)) 4) = Int.uint32 tag.
Proof.
  intros H0 H1 m'.
  assert (L1 : length (Mem.write m (Z.to_nat (a + 4)) (Bytes.le_encode 4 tag)) = length m)
    by (apply length_write; rewrite length_le_encode; lia).
  assert (L2 : length m' = length m).
  { unfold m'. rewrite length_write by (rewrite length_le_encode, L1; lia). exact L1. }
  split; [exact L2|]. split.
  - unfold m'.
    rewrite read_write_same by (rewrite ?length_le_encode, ?L1; lia).
    apply le_decode_encode_4.
  - unfold m'.
    rewrite read_write_disjoint by (rewrite length_le_encode, ?L1; lia).
    rewrite read_write_same by (rewrite ?length_le_encode; lia).
    apply le_decode_encode_4.
Qed.

Lemma word64_of_words (w : World) (a : Z) :
  0 <= a ->
  word64_at w a = word32_at w a + 2 ^ 32 * word32_at w (a + 4).
Proof.
  intros H0. unfold word64_at, word32_at.
  change 8%nat with (4 + 4)%nat. rewrite read_app, le_decode_app.
  replace (Z.to_nat a + 4)%nat with (Z.to_nat (a + 4)) by lia.
  destruct (Z_le_dec (a + 4) (Z.of_nat (length (memory w)))) as [Hin|Hout].
  - rewrite length_read by lia. reflexivity.
  - (* fewer than four bytes are left: nothing lies beyond them *)
    assert (E : Mem.read (memory w) (Z.to_nat (a + 4)) 4 = []).
    { unfold Mem.read. rewrite drop_ge by lia. reflexivity. }
    rewrite E. simpl. lia.
Qed.

End Slot.

(** ** The handle table in the heap *)

Section Heap.

Implicit Types (w : World) (l : loc) (k : Z) (x : Value).

Lemma map_assign_Ok l k x w u w' :
  map_assign l k x w = Ok (u, w') <->
  exists m, heap w !! l = Some m /\ w' = set_heap w (<[l := <[k := x]> m]> (heap w)).
Proof.
  unfold map_assign. destruct (heap w !! l) as [m|] eqn:E.
  - split.
    + intros [= <-]. eauto.
    + intros (m' & [= <-] & ->). now destruct u.
  - split; [discriminate | intros (m' & [=] & _)].
Qed.

(** After [m[k] = x] the map at [l] is the old one with [k] bound to [x],
    and every other map object is as before. *)
Lemma table_assign w l k x m l' :
  heap w !! l = Some m ->
  table (set_heap w (<[l := <[k := x]> m]> (heap w))) l' =
  if decide (l = l') then <[k := x]> (table w l) else table w l'.
Proof.
  intros E. unfold table. simpl.
  destruct (decide (l = l')) as [<-|Hne].
  - rewrite list_lookup_insert_eq by (eapply lookup_lt_Some; eauto).
    now rewrite E.
  - now rewrite list_lookup_insert_ne.
Qed.

Lemma map_index_Ok l k w x w' :
  map_index l k w = Ok (x, w') <-> x = default zeroValue (table w l !! k) /\ w' = w.
Proof. unfold map_index. split; [intros [= <- <-]; auto | intros [-> ->]; reflexivity]. Qed.

Lemma map_len_Ok l w n w' :
  map_len l w = Ok (n, w') <-> n = Z.of_nat (size (table w l)) /\ w' = w.
Proof. unfold map_len. split; [intros [= <- <-]; auto | intros [-> ->]; reflexivity]. Qed.

End Heap.

(** ** The encoder, step by step *)

Section Encoder.

Implicit Types (g : Go) (w : World) (addr : Z) (v : datum) (r : ref).

Lemma typeFlag_Ok v w tf w' :
  typeFlag v w = Ok (tf, w') <->
  exists t, TypeOf v = Some t /\ tf = typeFlag_of (Kind_of t) /\ w' = w.
Proof.
  unfold typeFlag. destruct (TypeOf v) as [t|].
  - split; [intros [= <- <-]; exists t; auto | intros (t' & [= <-] & -> & ->); reflexivity].
  - split; [discriminate | intros (t' & [=] & _)].
Qed.

Lemma two_words_Ok addr tag payload w u w' :
  (setUInt32 (Int.add32 addr 4) tag ;;; setUInt32 addr payload) w = Ok (u, w') <->
  in_bounds8 w (Int.add32 addr 4) /\ in_bounds8 w addr /\
  w' = slot_written w addr tag payload.
Proof.
  rewrite bind_Ok. split.
  - intros (u1 & w1 & H1 & H2).
    apply setUInt32_Ok in H1. destruct H1 as ([Ha Hb] & ->).
    apply setUInt32_Ok in H2. destruct H2 as (H2 & ->).
    apply in_bounds8_write in H2; [|rewrite length_le_encode; lia].
    split; [split; assumption|]. split; [exact H2 | reflexivity].
  - intros (H1 & H2 & ->). destruct H1 as [Ha Hb].
    exists tt, (set_memory w (Mem.write (memory w) (Z.to_nat (Int.add32 addr 4))
                                (Bytes.le_encode 4 tag))).
    split; apply setUInt32_Ok; split; try (split; assumption); try reflexivity.
    apply in_bounds8_write; [rewrite length_le_encode; lia | exact H2].
Qed.

(** The same two writes in front of the rest of a function. *)
Lemma two_words_then {B} addr tag payload (k : M B) w (r : B * World) :
  (setUInt32 (Int.add32 addr 4) tag ;;; setUInt32 addr payload ;;; k) w = Ok r <->
  in_bounds8 w (Int.add32 addr 4) /\ in_bounds8 w addr /\
  k (slot_written w addr tag payload) = Ok r.
Proof.
  split.
  - intros H. bind_inv H. bind_inv H.
    assert (H2 : (setUInt32 (Int.add32 addr 4) tag ;;; setUInt32 addr payload) w
                 = Ok (a0, w1)) by (apply bind_Ok; eauto).
    apply two_words_Ok in H2. destruct H2 as (Ha & Hb & ->). auto.
  - intros (Ha & Hb & H).
    assert (H2 : (setUInt32 (Int.add32 addr 4) tag ;;; setUInt32 addr payload) w
                 = Ok (tt, slot_written w addr tag payload))
      by (apply two_words_Ok; auto).
    apply bind_Ok in H2. destruct H2 as (u1 & w1 & H1 & H2).
    apply bind_Ok. exists u1, w1. split; [exact H1|].
    apply bind_Ok. eexists tt, _. split; [exact H2 | exact H].
Qed.

(** One 32-bit word written at [addr]: it reads back, and the word after
    it is untouched. *)
Lemma word_written w addr p :
  in_bounds8 w addr ->
  let w' := set_memory w (Mem.write (memory w) (Z.to_nat addr) (Bytes.le_encode 4 p)) in
  word32_at w' addr = Int.uint32 p /\
  word32_at w' (addr + 4) = word32_at w (addr + 4) /\
  heap w' = heap w.
Proof.
  intros [H0 H1] w'. unfold w', word32_at. cbn [memory set_memory].
  split; [|split; [|reflexivity]].
  - rewrite read_write_same by (rewrite ?length_le_encode; lia).
    apply le_decode_encode_4.
  - rewrite read_write_disjoint by (rewrite length_le_encode; lia). reflexivity.
Qed.

Lemma storeValue_tail_Ok g addr v r w g' w' :
  storeValue_tail g addr v r w = Ok (g', w') <->
  exists t, TypeOf v = Some t /\ g' = g /\
    in_bounds8 w (Int.add32 addr 4) /\ in_bounds8 w addr /\
    w' = slot_written w addr (Z.lor nanHead (typeFlag_of (Kind_of t))) (Int.uint32 r).
Proof.
  unfold storeValue_tail, setRef. rewrite bind_Ok. split.
  - intros (tf & w1 & H1 & H2).
    apply typeFlag_Ok in H1. destruct H1 as (t & Ht & -> & ->).
    bind_inv H2. bind_inv H2. ret_inv H2.
    assert (H : (setUInt32 (Int.add32 addr 4) (Z.lor nanHead (typeFlag_of (Kind_of t))) ;;;
                 setUInt32 addr (Int.uint32 r)) w = Ok (a0, w'))
      by (apply bind_Ok; eauto).
    apply two_words_Ok in H.
    destruct H as (Ha & Hb & ->). exists t. auto.
  - intros (t & Ht & -> & Ha & Hb & ->).
    exists (typeFlag_of (Kind_of t)), w. split; [apply typeFlag_Ok; eauto|].
    assert (H : (setUInt32 (Int.add32 addr 4) (Z.lor nanHead (typeFlag_of (Kind_of t))) ;;;
                 setUInt32 addr (Int.uint32 r)) w =
                Ok (tt, slot_written w addr (Z.lor nanHead (typeFlag_of (Kind_of t)))
                          (Int.uint32 r)))
      by (apply two_words_Ok; auto).
    apply bind_Ok in H. destruct H as (u1 & w1 & H1 & H2).
    apply bind_Ok. exists u1, w1. split; [exact H1|].
    apply bind_Ok. eexists tt, _. split; [exact H2 | reflexivity].
Qed.

(** What the two words of the slot hold once they have been written. *)
Lemma slot_written_words w addr tag payload :
  is_int32 addr -> in_bounds8 w (Int.add32 addr 4) -> in_bounds8 w addr ->
  let w' := slot_written w addr tag payload in
  Int.add32 addr 4 = addr + 4 /\
  length (memory w') = length (memory w) /\
  word32_at w' addr = Int.uint32 payload /\
  word32_at w' (addr + 4) = Int.uint32 tag /\
  heap w' = heap w /\ terminated w' = terminated w.
Proof.
  intros Hi Ha Hb w'.
  assert (E : Int.add32 addr 4 = addr + 4).
  { destruct Hb. eapply add32_in_bounds; eauto. lia. }
  unfold w', slot_written, word32_at. simpl. rewrite E in *.
  destruct Ha as [Ha1 Ha2], Hb as [Hb1 Hb2].
  destruct (slot_words (memory w) addr tag payload) as (L & P & T); [lia | lia |].
  repeat split; auto.
Qed.

Lemma allocate_Ok g tv w r g' w' :
  allocate g tv w = Ok ((r, g'), w') <->
  exists m, heap w !! values g = Some m /\
    r = valueIndex g /\
    g' = set_valueIndex g (Int.uint64 (valueIndex g + 1)) /\
    w' = set_heap w (<[values g := <[valueIndex g := mkValue (valueIndex g) tv]> m]> (heap w)).
Proof.
  unfold allocate. rewrite bind_Ok. split.
  - intros (u & w1 & H1 & H2). apply map_assign_Ok in H1. destruct H1 as (m & E & ->).
    ret_inv H2. eauto.
  - intros (m & E & -> & -> & ->). eexists tt, _. split; [apply map_assign_Ok; eauto | reflexivity].
Qed.

End Encoder.

(** ** The decoder *)

Section Decoder.

Implicit Types (g : Go) (w : World) (addr : Z).

(** What [loadValue] returns for the handle [r] read from the slot. *)
Lemma loadValue_Ok g addr w x w' :
  loadValue g addr w = Ok (x, w') <->
  in_bounds8 w addr /\ w' = w /\
  x = default zeroValue
        (table w (values g) !!
           (if Int.int (word32_at w addr) >? Z.of_nat (size (table w (values g)))
            then jsValueUndefined else word32_at w addr)).
Proof.
  unfold loadValue, getRef. rewrite bind_Ok. split.
  - intros (r & w1 & H1 & H2). apply getUInt32_Ok in H1. destruct H1 as (Hb & -> & ->).
    bind_inv H2. apply map_len_Ok in Hstep. destruct Hstep as (-> & ->).
    destruct (Int.int _ >? _); apply map_index_Ok in H2; destruct H2 as (-> & ->); auto.
  - intros (Hb & -> & ->). exists (word32_at w addr), w.
    split; [apply getUInt32_Ok; auto|].
    apply bind_Ok. exists (Z.of_nat (size (table w (values g)))), w.
    split; [apply map_len_Ok; auto|].
    destruct (Int.int _ >? _); apply map_index_Ok; auto.
Qed.

(** A 32-bit handle is never negative as an [int]. *)
Lemma int_of_word32 w addr :
  in_bounds8 w addr -> Int.int (word32_at w addr) = word32_at w addr.
Proof.
  intros H. pose proof (word32_at_range w addr H).
  unfold Int.int. apply int64_small. lia.
Qed.

Lemma loadValue_world g addr w x w' : loadValue g addr w = Ok (x, w') -> w' = w.
Proof. intros H. apply loadValue_Ok in H. tauto. Qed.

Lemma loadSlice_world sp w s w' : loadSlice sp w = Ok (s, w') -> w' = w.
Proof.
  unfold loadSlice. intros H. bind_inv H. bind_inv H.
  apply getInt64_Ok in Hstep, Hstep0.
  destruct Hstep as (_ & _ & ->), Hstep0 as (_ & _ & ->).
  destruct (Mem.BufferAt _ _ _); now injection H as _ <-.
Qed.

Lemma loadString_world sp w s w' : loadString sp w = Ok (s, w') -> w' = w.
Proof.
  unfold loadString. intros H. bind_inv H. apply loadSlice_world in Hstep. subst.
  destruct a as [[off n]|].
  - unfold bind, peek, ret in H. now injection H as _ <-.
  - now ret_inv H.
Qed.

Lemma loadSliceOfValues_from_world g arrayAddr n :
  forall i w l w', loadSliceOfValues_from g arrayAddr i n w = Ok (l, w') -> w' = w.
Proof.
  induction n as [|n IH]; intros i w l w' H; cbn [loadSliceOfValues_from] in H.
  - now ret_inv H.
  - bind_inv H. bind_inv H. bind_inv H. ret_inv H.
    apply getUInt32_Ok in Hstep. destruct Hstep as (_ & _ & ->).
    apply map_index_Ok in Hstep0. destruct Hstep0 as (_ & ->).
    now apply IH in Hstep1.
Qed.

Lemma loadSliceOfValues_world g addr w l w' :
  loadSliceOfValues g addr w = Ok (l, w') -> w' = w.
Proof.
  unfold loadSliceOfValues. intros H. bind_inv H. bind_inv H.
  apply getInt64_Ok in Hstep, Hstep0.
  destruct Hstep as (_ & _ & ->), Hstep0 as (_ & _ & ->).
  destruct (_ <? 0); [discriminate|].
  now apply loadSliceOfValues_from_world in H.
Qed.

End Decoder.

(* ===================================================================== *)
(** ** Numbers: the fast path *)
(* ===================================================================== *)

Section FastPath.

Implicit Types (g : Go) (w : World) (addr d : Z).

(** [setFloat64] on its own stores the integer part of the number, not
    its bit pattern: 1.5 is stored as the integer 1. *)
Example setFloat64_1_5 :
  exists w',
    setFloat64 0 float64_1_5 (init_world (zeros 16)) = Ok (tt, w') /\
    word64_at w' 0 = 1.
Proof. eexists. split; [vm_compute; reflexivity | vm_compute; reflexivity]. Qed.

(** C1 — what [storeValue] leaves in the slot for a [float64] that is not
    a NaN, and so for every finite double [d]: the case has no [return],
    so the tail of the function runs and overwrites what [setFloat64]
    stored with the tag word [nanHead] and the payload 0.  The slot never
    holds the bit pattern of [d], whatever [d] is; no handle is allocated;
    decoding the slot gives the table entry of handle 0. *)
Theorem storeValue_float64_slot_overwritten g addr d w g' w' :
  is_int32 addr ->
  Float64.IsNaN d = false ->
  storeValue g addr (DFloat64 d) w = Ok (g', w') ->
  word64_at w' addr = float64_quiet_NaN /\
  word64_at w' addr <> d /\
  g' = g /\ heap w' = heap w /\
  loadValue g' addr w' =
    Ok (default zeroValue (table w' (values g') !! jsValueNaN), w').
Proof.
  intros Hi Hnan H. unfold storeValue in H. rewrite Hnan in H.
  bind_inv H. apply setUInt64_Ok in Hstep. destruct Hstep as (Hb & ->).
  apply storeValue_tail_Ok in H. destruct H as (t & Ht & -> & Ha4 & Ha & ->).
  injection Ht as <-.
  match type of Ha with in_bounds8 ?x _ => set (w1 := x) in * end.
  destruct (slot_written_words w1 addr (Z.lor nanHead (typeFlag_of (Kind_of TFloat64)))
              (Int.uint32 0) Hi Ha4 Ha) as (E & L & P & T & Hh & _).
  match goal with |- word64_at ?x _ = _ /\ _ => set (w2 := x) in * end.
  assert (W : word64_at w2 addr = float64_quiet_NaN).
  { rewrite word64_of_words by (destruct Ha; lia). rewrite P, T. reflexivity. }
  split; [exact W|]. split.
  { rewrite W. intros <-. vm_compute in Hnan. discriminate. }
  split; [reflexivity|]. split; [exact Hh|].
  apply loadValue_Ok.
  assert (Hb2 : in_bounds8 w2 addr).
  { destruct Ha as [Ha1 Ha2]. split; [exact Ha1|]. rewrite L. exact Ha2. }
  split; [exact Hb2|]. split; [reflexivity|].
  rewrite P. change (Int.uint32 (Int.uint32 0)) with 0. change (Int.int 0) with 0.
  rewrite Z.gtb_ltb. destruct (Z.ltb_spec (Z.of_nat (size (table w2 (values g)))) 0);
    [lia | reflexivity].
Qed.

(** The run of C1 on the double 1.5. *)
Lemma storeValue_float64_slot_overwritten_witness :
  exists w',
    storeValue first_Go 0 (DFloat64 float64_1_5) (init_world (zeros 16)) = Ok (first_Go, w') /\
    word64_at w' 0 = float64_quiet_NaN /\
    word64_at w' 0 <> float64_1_5 /\
    heap w' = heap (init_world (zeros 16)) /\
    loadValue first_Go 0 w' = Ok (mkValue jsValueNaN nan, w').
Proof.
  eexists. split; [vm_compute; reflexivity|].
  pose proof (storeValue_float64_slot_overwritten first_Go 0 float64_1_5
                (init_world (zeros 16)) first_Go _
                ltac:(vm_compute; split; congruence) eq_refl eq_refl)
    as (W & N & _ & Hh & Hl).
  split; [exact W|]. split; [exact N|]. split; [exact Hh|]. exact Hl.
Defined.

End FastPath.

(* ===================================================================== *)
(** ** Lookup of handles *)
(* ===================================================================== *)

Section Lookup.

Implicit Types (g : Go) (w : World) (addr : Z).

(** A handle greater than the size of the table resolves to the entry of
    handle 1, the undefined sentinel. *)
Lemma loadValue_above_size g addr w :
  in_bounds8 w addr ->
  word32_at w addr > Z.of_nat (size (table w (values g))) ->
  loadValue g addr w =
    Ok (default zeroValue (table w (values g) !! jsValueUndefined), w).
Proof.
  intros Hb Hgt. apply loadValue_Ok. split; [exact Hb|]. split; [reflexivity|].
  rewrite int_of_word32 by exact Hb.
  rewrite Z.gtb_ltb. destruct (Z.ltb_spec (Z.of_nat (size (table w (values g))))
                                 (word32_at w addr)); [reflexivity | lia].
Qed.

(** A handle up to the size of the table is looked up as it is. *)
Lemma loadValue_up_to_size g addr w :
  in_bounds8 w addr ->
  word32_at w addr <= Z.of_nat (size (table w (values g))) ->
  loadValue g addr w =
    Ok (default zeroValue (table w (values g) !! word32_at w addr), w).
Proof.
  intros Hb Hle. apply loadValue_Ok. split; [exact Hb|]. split; [reflexivity|].
  rewrite int_of_word32 by exact Hb.
  rewrite Z.gtb_ltb. destruct (Z.ltb_spec (Z.of_nat (size (table w (values g))))
                                 (word32_at w addr)); [lia | reflexivity].
Qed.

(** C2 — the handle equal to the size of the table is the first one that
    is not in the table, and the test [int(r) > len(g.values)] lets it
    through: the lookup gives the zero [Value] (handle 0, nil datum), which
    is not the undefined sentinel (handle 1). *)
Theorem loadValue_handle_equal_to_size g addr w :
  in_bounds8 w addr ->
  word32_at w addr = Z.of_nat (size (table w (values g))) ->
  table w (values g) !! word32_at w addr = None ->
  loadValue g addr w = Ok (zeroValue, w) /\
  zeroValue <> mkValue jsValueUndefined undefined.
Proof.
  intros Hb Hr Hn. split; [|discriminate].
  rewrite loadValue_up_to_size by (auto; lia). now rewrite Hn.
Qed.

(** The run of C2 on a new instance: handle 8 against a table of size 8,
    and handle 9 next to it. *)
Lemma loadValue_handle_equal_to_size_witness :
  let w := init_world (Bytes.le_encode 4 8 ++ zeros 12) in
  let w9 := init_world (Bytes.le_encode 4 9 ++ zeros 12) in
  size (table w (values first_Go)) = 8%nat /\
  word32_at w 0 = 8 /\
  (loadValue first_Go 0 w = Ok (zeroValue, w) /\
   zeroValue <> mkValue jsValueUndefined undefined) /\
  loadValue first_Go 0 w9 = Ok (mkValue jsValueUndefined undefined, w9).
Proof.
  intros w w9. split; [reflexivity|]. split; [reflexivity|]. split.
  - apply (loadValue_handle_equal_to_size first_Go 0 w).
    + vm_compute. split; congruence.
    + reflexivity.
    + reflexivity.
  - reflexivity.
Defined.

(** Every element that [loadSliceOfValues] returns is the plain map index
    of the handle read for it. *)
Lemma loadSliceOfValues_from_lookup g arrayAddr n :
  forall i w l w', loadSliceOfValues_from g arrayAddr i n w = Ok (l, w') ->
  forall (j : nat) x, l !! j = Some x ->
    x = of_Value (default zeroValue
          (table w (values g) !!
             word32_at w (Int.int32 (Int.add64 arrayAddr (Int.mul64 (i + Z.of_nat j) 4))))).
Proof.
  induction n as [|n IH]; intros i w l w' H j x Hj; cbn [loadSliceOfValues_from] in H.
  - ret_inv H. discriminate.
  - bind_inv H. bind_inv H. bind_inv H. ret_inv H.
    apply getUInt32_Ok in Hstep. destruct Hstep as (_ & -> & ->).
    apply map_index_Ok in Hstep0. destruct Hstep0 as (-> & ->).
    destruct j as [|j]; simpl in Hj.
    + injection Hj as <-. now rewrite Z.add_0_r.
    + eapply IH in Hstep1; [|exact Hj]. rewrite Hstep1.
      replace (i + 1 + Z.of_nat j) with (i + Z.of_nat (S j)) by lia. reflexivity.
Qed.

(** C9 — a handle of an argument list that is not in the table: the loop
    of [loadSliceOfValues] indexes the map directly, without the test that
    [loadValue] makes, so the element is the zero [Value] (handle 0, nil
    datum) and not the undefined sentinel. *)
Theorem loadSliceOfValues_unknown_handle g addr w l w' (j : nat) x :
  loadSliceOfValues g addr w = Ok (l, w') ->
  l !! j = Some x ->
  table w (values g) !!
    word32_at w (Int.int32 (Int.add64 (Int.int64 (word64_at w addr))
                                      (Int.mul64 (Z.of_nat j) 4))) = None ->
  x = of_Value zeroValue /\
  x <> of_Value (mkValue jsValueUndefined undefined).
Proof.
  unfold loadSliceOfValues. intros H Hj Hn. bind_inv H. bind_inv H.
  apply getInt64_Ok in Hstep. destruct Hstep as (_ & -> & ->).
  apply getInt64_Ok in Hstep0. destruct Hstep0 as (_ & -> & ->).
  destruct (_ <? 0); [discriminate|].
  eapply loadSliceOfValues_from_lookup in H; [|exact Hj].
  rewrite Z.add_0_l, Hn in H. subst x. split; [reflexivity | discriminate].
Qed.

(** The run of C9 on a new instance: an argument list of the two handles
    3 and 100, and the single-value lookup of that handle 100. *)
Lemma loadSliceOfValues_unknown_handle_witness :
  let w := init_world (Bytes.le_encode 8 16 ++ Bytes.le_encode 8 2 ++
                       Bytes.le_encode 4 3 ++ Bytes.le_encode 4 100 ++ zeros 8) in
  loadSliceOfValues first_Go 0 w =
    Ok ([of_Value (mkValue jsValueTrue (DBool true)); of_Value zeroValue], w) /\
  (of_Value zeroValue = of_Value zeroValue /\
   of_Value zeroValue <> of_Value (mkValue jsValueUndefined undefined)) /\
  loadValue first_Go 20 w = Ok (mkValue jsValueUndefined undefined, w).
Proof.
  intros w. split; [vm_compute; reflexivity|]. split.
  - apply (loadSliceOfValues_unknown_handle first_Go 0 w
             [of_Value (mkValue jsValueTrue (DBool true)); of_Value zeroValue] w 1).
    + vm_compute; reflexivity.
    + reflexivity.
    + vm_compute; reflexivity.
  - vm_compute; reflexivity.
Defined.

End Lookup.

(* ===================================================================== *)
(** ** The tag word *)
(* ===================================================================== *)

Section TagWord.

Implicit Types (g : Go) (w : World) (addr : Z) (v : datum).

Lemma uint32_tag v : Int.uint32 (Z.lor nanHead (own_typeFlag v)) = Z.lor nanHead (own_typeFlag v).
Proof. destruct v; reflexivity. Qed.

(** For a value of the [default] case the flag follows its own kind. *)
Lemma typeFlag_of_new v t :
  is_new v = true -> TypeOf v = Some t -> typeFlag_of (Kind_of t) = own_typeFlag v.
Proof. destruct v; simpl; intros Hn [= <-]; try discriminate; reflexivity. Qed.

(** The tag word that the two writes of a returning case leave. *)
Lemma tag_after_two_words g addr v payload w g' w' :
  is_int32 addr ->
  (setUInt32 (Int.add32 addr 4) nanHead ;;; setUInt32 addr payload ;;; ret g) w = Ok (g', w') ->
  own_typeFlag v = 0 ->
  word32_at w' (addr + 4) = Z.lor nanHead (own_typeFlag v).
Proof.
  intros Hi H Hz. apply two_words_then in H. destruct H as (Ha & Hb & Hk).
  ret_inv Hk.
  destruct (slot_written_words w addr nanHead payload Hi Ha Hb) as (_ & _ & _ & T & _).
  rewrite T, Hz. reflexivity.
Qed.

(** The tag word that the [default] case leaves. *)
Lemma tag_after_allocate g addr v w g' w' :
  is_int32 addr -> is_new v = true ->
  (a <- allocate g v ;; storeValue_tail (snd a) addr v (fst a)) w = Ok (g', w') ->
  word32_at w' (addr + 4) = Z.lor nanHead (own_typeFlag v).
Proof.
  intros Hi Hn H. bind_inv H. destruct a as [r g1].
  apply storeValue_tail_Ok in H. destruct H as (t & Ht & -> & Ha & Hb & ->).
  destruct (slot_written_words w0 addr (Z.lor nanHead (typeFlag_of (Kind_of t)))
              (Int.uint32 (fst (r, g1))) Hi Ha Hb) as (_ & _ & _ & T & _).
  rewrite T, (typeFlag_of_new v t Hn Ht). apply uint32_tag.
Qed.

(** C3 (as amended) — the tag word for every value that is neither a
    [float64] other than a NaN nor an existing [Value]: [nanHead] with flag
    1 for a string, 3 for a function, 0 for anything else, never 2.  For
    an existing [Value] equal to the undefined or to the null sentinel no
    tag word is written: the payload word becomes 0, respectively 1, and
    the word after it keeps what it held. *)
Theorem storeValue_tag_word g addr v w g' w' :
  is_int32 addr ->
  storeValue g addr v w = Ok (g', w') ->
  (writes_tag_word v = true ->
     word32_at w' (addr + 4) = Z.lor nanHead (own_typeFlag v) /\
     own_typeFlag v <> typeFlagSymbol) /\
  (forall r d, v = DValue r d ->
     let u := default zeroValue (table w (values g) !! jsValueUndefined) in
     let n := default zeroValue (table w (values g) !! jsValueNull) in
     (Value_eq (mkValue r d) u = Some true ->
        word32_at w' addr = 0 /\ word32_at w' (addr + 4) = word32_at w (addr + 4)) /\
     (Value_eq (mkValue r d) u = Some false ->
      Value_eq (mkValue r d) n = Some true ->
        word32_at w' addr = 1 /\ word32_at w' (addr + 4) = word32_at w (addr + 4))).
Proof.
  intros Hi H. split.
  - intros Hw. split; [|destruct v; discriminate].
    destruct v as [| |b| | |d| | | | | |]; simpl in Hw; try discriminate;
      unfold storeValue in H;
      try (eapply (tag_after_allocate g); [exact Hi | reflexivity | exact H]).
    + now apply (tag_after_two_words g addr DNil jsValueNull w g' w').
    + destruct b.
      * now apply (tag_after_two_words g addr (DBool true) jsValueTrue w g' w').
      * now apply (tag_after_two_words g addr (DBool false) jsValueFalse w g' w').
    + rewrite Hw in H.
      now apply (tag_after_two_words g addr (DFloat64 d) 0 w g' w').
  - intros r d -> u n. unfold storeValue in H.
    bind_inv H. apply map_index_Ok in Hstep. destruct Hstep as (-> & ->).
    fold u in H. split.
    + intros Hu. rewrite Hu in H. bind_inv H. ret_inv H.
      apply setUInt32_Ok in Hstep. destruct Hstep as (Hb & ->).
      destruct (word_written w addr (Int.uint32 0) Hb) as (P & T & _). auto.
    + intros Hu Hnl. rewrite Hu in H.
      bind_inv H. apply map_index_Ok in Hstep. destruct Hstep as (-> & ->).
      fold n in H. rewrite Hnl in H. bind_inv H. ret_inv H.
      apply setUInt32_Ok in Hstep. destruct Hstep as (Hb & ->).
      destruct (word_written w addr (Int.uint32 1) Hb) as (P & T & _). auto.
Qed.

(** The run of C3 on a new string and on the undefined sentinel, over a
    memory of [0xFF] bytes. *)
Lemma storeValue_tag_word_witness :
  let w := init_world (ones 16) in
  (exists g' w',
     storeValue first_Go 0 (DString "hi") w = Ok (g', w') /\
     word32_at w' 4 = Z.lor nanHead typeFlagString) /\
  (exists g' w',
     storeValue first_Go 0 (DValue jsValueUndefined undefined) w = Ok (g', w') /\
     word32_at w' 0 = 0 /\ word32_at w' 4 = word32_at w 4).
Proof.
  intros w. split.
  - eexists _, _. split; [vm_compute; reflexivity|].
    refine (proj1 (proj1 (storeValue_tag_word first_Go 0 (DString "hi") w _ _ _ _) eq_refl)).
    + vm_compute. split; congruence.
    + vm_compute; reflexivity.
  - eexists _, _. split; [vm_compute; reflexivity|].
    refine (proj1 (proj2 (storeValue_tag_word first_Go 0
                            (DValue jsValueUndefined undefined) w _ _ _ _)
                     jsValueUndefined undefined eq_refl) eq_refl).
    + vm_compute. split; congruence.
    + vm_compute; reflexivity.
Defined.

(** C3, as the specification states it, fails on the undefined sentinel:
    it is not a finite [float64], yet no tag word is written, and the word
    at [addr + 4] keeps the [0xFFFFFFFF] that the memory held. *)
Lemma storeValue_sentinel_writes_no_tag_word :
  let w := init_world (ones 16) in
  let v := DValue jsValueUndefined undefined in
  non_fast_path v = true /\
  exists g' w',
    storeValue first_Go 0 v w = Ok (g', w') /\
    word32_at w' 4 = 0xFFFFFFFF /\
    word32_at w' 4 <> Z.lor nanHead (claimed_typeFlag v).
Proof.
  intros w v. split; [reflexivity|].
  eexists _, _. split; [vm_compute; reflexivity|].
  split; [vm_compute; reflexivity | vm_compute; discriminate].
Qed.

(** An existing [Value] that is neither sentinel keeps its handle: nothing
    is allocated, the payload word is the low 32 bits of its handle, and the
    flag is that of the wrapper, a struct, whatever it wraps. *)
Lemma storeValue_existing_Value g addr r d w g' w' :
  is_int32 addr ->
  Value_eq (mkValue r d)
    (default zeroValue (table w (values g) !! jsValueUndefined)) = Some false ->
  Value_eq (mkValue r d)
    (default zeroValue (table w (values g) !! jsValueNull)) = Some false ->
  storeValue g addr (DValue r d) w = Ok (g', w') ->
  g' = g /\ heap w' = heap w /\
  word32_at w' addr = Int.uint32 r /\ word32_at w' (addr + 4) = nanHead.
Proof.
  intros Hi Hu Hn H. unfold storeValue in H.
  bind_inv H. apply map_index_Ok in Hstep. destruct Hstep as (-> & ->).
  rewrite Hu in H.
  bind_inv H. apply map_index_Ok in Hstep. destruct Hstep as (-> & ->).
  rewrite Hn in H.
  apply storeValue_tail_Ok in H. destruct H as (t & Ht & -> & Ha & Hb & ->).
  injection Ht as <-.
  destruct (slot_written_words w addr (Z.lor nanHead (typeFlag_of (Kind_of TValue)))
              (Int.uint32 r) Hi Ha Hb) as (_ & _ & P & T & Hh & _).
  split; [reflexivity|]. split; [exact Hh|]. split.
  - rewrite <- (uint32_small (Int.uint32 r)) by apply uint32_range. exact P.
  - exact T.
Qed.

(** So a [Value] that wraps a string is encoded with flag 0. *)
Lemma storeValue_wrapped_string :
  let w := init_world (ones 16) in
  let v := DValue 8 (DString "hi") in
  exists g' w',
    storeValue first_Go 0 v w = Ok (g', w') /\
    word32_at w' 0 = 8 /\
    word32_at w' 4 = nanHead /\
    claimed_typeFlag v = 1.
Proof.
  intros w v. eexists _, _. split; [vm_compute; reflexivity|].
  repeat split; vm_compute; reflexivity.
Qed.

End TagWord.

(* ===================================================================== *)
(** ** What an encode does to the table *)
(* ===================================================================== *)

Section Effects.

Implicit Types (g : Go) (w : World) (addr sp : Z) (v : datum).

Lemma length_slot_written w addr tag payload :
  in_bounds8 w (Int.add32 addr 4) -> in_bounds8 w addr ->
  length (memory (slot_written w addr tag payload)) = length (memory w).
Proof.
  intros [Ha1 Ha2] [Hb1 Hb2]. unfold slot_written. cbn [memory set_memory].
  assert (L : length (Mem.write (memory w) (Z.to_nat (Int.add32 addr 4))
                        (Bytes.le_encode 4 tag)) = length (memory w))
    by (apply length_write; rewrite length_le_encode; lia).
  rewrite length_write by (rewrite length_le_encode, L; lia). exact L.
Qed.

Lemma storeValue_new_unfold g addr v :
  is_new v = true ->
  storeValue g addr v = (a <- allocate g v ;; storeValue_tail (snd a) addr v (fst a)).
Proof. destruct v; cbn [is_new]; intros H; try discriminate; reflexivity. Qed.

Lemma allocate_allocated g v w r g' w' :
  allocate g v w = Ok ((r, g'), w') <->
  is_Some (heap w !! values g) /\ r = valueIndex g /\ g' = next_Go g /\
  w' = allocated g w v.
Proof.
  rewrite allocate_Ok. unfold allocated, table. split.
  - intros (m & E & -> & -> & ->). rewrite E. eauto.
  - intros ([m E] & -> & -> & ->). exists m. rewrite E. auto.
Qed.

(** The [default] case: one handle is taken and the slot gets the tag word
    of the value's own kind over the low 32 bits of the handle. *)
Lemma storeValue_new_Ok g addr v w g' w' :
  is_new v = true ->
  storeValue g addr v w = Ok (g', w') <->
  is_Some (heap w !! values g) /\
  in_bounds8 w (Int.add32 addr 4) /\ in_bounds8 w addr /\
  g' = next_Go g /\
  w' = slot_written (allocated g w v) addr
         (Z.lor nanHead (own_typeFlag v)) (Int.uint32 (valueIndex g)).
Proof.
  intros Hn. rewrite (storeValue_new_unfold g addr v Hn), bind_Ok. split.
  - intros ([r g1] & w1 & H1 & H2).
    apply allocate_allocated in H1. destruct H1 as (Hs & -> & -> & ->).
    apply storeValue_tail_Ok in H2. destruct H2 as (t & Ht & -> & Ha & Hb & ->).
    rewrite (typeFlag_of_new v t Hn Ht). auto.
  - intros (Hs & Ha & Hb & -> & ->).
    exists (valueIndex g, next_Go g), (allocated g w v).
    split; [apply allocate_allocated; auto|].
    apply storeValue_tail_Ok.
    destruct (TypeOf v) as [t|] eqn:Ht; [|destruct v; discriminate].
    exists t. rewrite (typeFlag_of_new v t Hn Ht). auto.
Qed.

(** Every encode leaves the size of memory and the termination flag alone,
    and either leaves the instance and the heap alone or allocates once. *)
Lemma storeValue_effect g addr v w g' w' :
  storeValue g addr v w = Ok (g', w') ->
  length (memory w') = length (memory w) /\ terminated w' = terminated w /\
  ((g' = g /\ heap w' = heap w) \/
   (is_new v = true /\ is_Some (heap w !! values g) /\
    g' = next_Go g /\ heap w' = heap (allocated g w v))).
Proof.
  intros H. destruct (is_new v) eqn:Hn.
  - apply (storeValue_new_Ok g addr v w g' w' Hn) in H.
    destruct H as (Hs & Ha & Hb & -> & ->).
    split; [now rewrite length_slot_written|]. split; [reflexivity|]. right. auto.
  - assert (Hstay : forall tag payload,
      (setUInt32 (Int.add32 addr 4) tag ;;; setUInt32 addr payload ;;; ret g) w = Ok (g', w') ->
      length (memory w') = length (memory w) /\ terminated w' = terminated w /\
      ((g' = g /\ heap w' = heap w) \/
       (false = true /\ is_Some (heap w !! values g) /\
        g' = next_Go g /\ heap w' = heap (allocated g w v)))).
    { intros tag payload Hk. apply two_words_then in Hk. destruct Hk as (Ha & Hb & Hk).
      ret_inv Hk. split; [now rewrite length_slot_written|]. split; [reflexivity|]. left. auto. }
    assert (Hone : forall payload,
      (setInt32 addr payload ;;; ret g) w = Ok (g', w') ->
      length (memory w') = length (memory w) /\ terminated w' = terminated w /\
      ((g' = g /\ heap w' = heap w) \/
       (false = true /\ is_Some (heap w !! values g) /\
        g' = next_Go g /\ heap w' = heap (allocated g w v)))).
    { intros payload Hk. bind_inv Hk. ret_inv Hk.
      apply setUInt32_Ok in Hstep. destruct Hstep as ([Hb1 Hb2] & ->).
      cbn [memory set_memory].
      split; [apply length_write; rewrite length_le_encode; lia|].
      split; [reflexivity|]. left. auto. }
    assert (Htail : forall w1 r,
      length (memory w1) = length (memory w) -> terminated w1 = terminated w ->
      heap w1 = heap w ->
      storeValue_tail g addr v r w1 = Ok (g', w') ->
      length (memory w') = length (memory w) /\ terminated w' = terminated w /\
      ((g' = g /\ heap w' = heap w) \/
       (false = true /\ is_Some (heap w !! values g) /\
        g' = next_Go g /\ heap w' = heap (allocated g w v)))).
    { intros w1 r L T Hh Hk. apply storeValue_tail_Ok in Hk.
      destruct Hk as (t & Ht & -> & Ha & Hb & ->).
      split; [now rewrite length_slot_written|]. split; [exact T|]. left. auto. }
    destruct v as [| |b| | |d| | | | | |r d]; cbn [is_new] in Hn; try discriminate;
      unfold storeValue in H.
    + eapply Hstay; eauto.
    + destruct b; eapply Hstay; eauto.
    + destruct (Float64.IsNaN d); [eapply Hstay; eauto|].
      bind_inv H. apply setUInt64_Ok in Hstep. destruct Hstep as ([Hb1 Hb2] & ->).
      eapply Htail; [| | |exact H]; cbn [memory set_memory]; try reflexivity.
      apply length_write. rewrite length_le_encode. lia.
    + bind_inv H. apply map_index_Ok in Hstep. destruct Hstep as (-> & ->).
      destruct (Value_eq _ _) as [[|]|]; [eapply Hone; eauto| |discriminate].
      bind_inv H. apply map_index_Ok in Hstep. destruct Hstep as (-> & ->).
      destruct (Value_eq _ _) as [[|]|]; [eapply Hone; eauto| |discriminate].
      eapply Htail; [| | |exact H]; reflexivity.
Qed.

End Effects.

(* ===================================================================== *)
(** ** Property access and construction *)
(* ===================================================================== *)

Section Capabilities.

Implicit Types (g : Go) (w : World) (addr sp : Z) (v : datum).

Lemma exportValueGet_not_a_getter g sp w x name :
  loadValue g (Int.add32 sp 8) w = Ok (x, w) ->
  loadString (Int.add32 sp 16) w = Ok (Some name, w) ->
  getter (Value_v x) = None ->
  exportValueGet g sp w = Ok (g, set_terminated w).
Proof.
  intros Hv Hs Hg. unfold exportValueGet.
  rewrite (bind_run _ _ _ _ _ Hv), (bind_run _ _ _ _ _ Hs), Hg. reflexivity.
Qed.

Lemma exportValueCall_not_a_getter g sp w x name :
  loadValue g (Int.add32 sp 8) w = Ok (x, w) ->
  loadString (Int.add32 sp 16) w = Ok (Some name, w) ->
  getter (Value_v x) = None ->
  exportValueCall g sp w = Ok (g, set_terminated w).
Proof.
  intros Hv Hs Hg. unfold exportValueCall.
  rewrite (bind_run _ _ _ _ _ Hv), (bind_run _ _ _ _ _ Hs), Hg. reflexivity.
Qed.

(** Whenever either call returns on such a target, it has done just
    that. *)
Lemma exportValueGet_returns_terminated g sp w x g' w' :
  loadValue g (Int.add32 sp 8) w = Ok (x, w) ->
  getter (Value_v x) = None ->
  exportValueGet g sp w = Ok (g', w') ->
  g' = g /\ w' = set_terminated w.
Proof.
  intros Hv Hg H. unfold exportValueGet in H.
  rewrite (bind_run _ _ _ _ _ Hv) in H. bind_inv H.
  apply loadString_world in Hstep. subst.
  destruct a as [name|]; [|discriminate]. rewrite Hg in H.
  injection H as <- <-. auto.
Qed.

Lemma exportValueCall_returns_terminated g sp w x g' w' :
  loadValue g (Int.add32 sp 8) w = Ok (x, w) ->
  getter (Value_v x) = None ->
  exportValueCall g sp w = Ok (g', w') ->
  g' = g /\ w' = set_terminated w.
Proof.
  intros Hv Hg H. unfold exportValueCall in H.
  rewrite (bind_run _ _ _ _ _ Hv) in H. bind_inv H.
  apply loadString_world in Hstep. subst.
  destruct a as [name|]; [|discriminate]. rewrite Hg in H.
  injection H as <- <-. auto.
Qed.

(** C6 — get-property and call-method on a target that is not a [getter]:
    once the target and the name have been decoded, the process is
    terminated and the call returns with guest memory, the handle table and
    the instance as they were; nothing is written.  There is no other way
    for either call to return on such a target: where the name cannot be
    read the call panics instead. *)
Theorem valueGet_valueCall_not_a_getter g sp w x :
  loadValue g (Int.add32 sp 8) w = Ok (x, w) ->
  getter (Value_v x) = None ->
  (forall name, loadString (Int.add32 sp 16) w = Ok (Some name, w) ->
     exists w',
       exportValueGet g sp w = Ok (g, w') /\
       exportValueCall g sp w = Ok (g, w') /\
       terminated w' = true /\ memory w' = memory w /\ heap w' = heap w) /\
  (forall g' w',
     exportValueGet g sp w = Ok (g', w') \/ exportValueCall g sp w = Ok (g', w') ->
     g' = g /\ terminated w' = true /\ memory w' = memory w /\ heap w' = heap w).
Proof.
  intros Hv Hg. split.
  - intros name Hs. exists (set_terminated w).
    split; [eapply exportValueGet_not_a_getter; eauto|].
    split; [eapply exportValueCall_not_a_getter; eauto|].
    repeat split.
  - intros g' w' [H|H].
    + destruct (exportValueGet_returns_terminated g sp w x g' w' Hv Hg H) as (-> & ->).
      repeat split.
    + destruct (exportValueCall_returns_terminated g sp w x g' w' Hv Hg H) as (-> & ->).
      repeat split.
Qed.

(** The [default] case of [storeValue] at the result offset of
    construct-new, followed by the flag byte. *)
Lemma store_new_then_flag g sp w v flag :
  is_new v = true -> is_Some (heap w !! values g) ->
  0 <= sp -> sp + 56 <= Z.of_nat (length (memory w)) -> sp + 56 < 2 ^ 31 ->
  exists w',
    (g' <- storeValue g (Int.add32 sp 40) v ;; setUInt8 (Int.add32 sp 48) flag ;;; ret g') w
      = Ok (next_Go g, w') /\
    heap w' = heap (allocated g w v) /\
    word32_at w' (sp + 40) = Int.uint32 (valueIndex g) /\
    word32_at w' (sp + 44) = Z.lor nanHead (own_typeFlag v) /\
    byte_at w' (sp + 48) = Some (Bytes.of_Z flag) /\
    terminated w' = terminated w /\
    length (memory w') = length (memory w).
Proof.
  intros Hn Hs H0 Hlen H31.
  rewrite (add32_small sp 40), (add32_small sp 48) by lia.
  set (w1 := slot_written (allocated g w v) (sp + 40)
               (Z.lor nanHead (own_typeFlag v)) (Int.uint32 (valueIndex g))).
  assert (Hi : is_int32 (sp + 40)) by (unfold is_int32; lia).
  assert (Ha : in_bounds8 (allocated g w v) (Int.add32 (sp + 40) 4)).
  { rewrite add32_small by lia. unfold in_bounds8. cbn [memory allocated set_heap]. lia. }
  assert (Hb : in_bounds8 (allocated g w v) (sp + 40)).
  { unfold in_bounds8. cbn [memory allocated set_heap]. lia. }
  assert (Hst : storeValue g (sp + 40) v w = Ok (next_Go g, w1))
    by (apply storeValue_new_Ok; auto).
  destruct (slot_written_words (allocated g w v) (sp + 40)
              (Z.lor nanHead (own_typeFlag v)) (Int.uint32 (valueIndex g)) Hi Ha Hb)
    as (_ & L & P & T & Hh & Ht).
  fold w1 in L, P, T, Hh, Ht.
  assert (L1 : length (memory w1) = length (memory w)) by (rewrite L; reflexivity).
  exists (set_memory w1 (Mem.write (memory w1) (Z.to_nat (sp + 48)) [Bytes.of_Z flag])).
  split.
  { rewrite (bind_run _ _ _ _ _ Hst).
    assert (Hf : setUInt8 (sp + 48) flag w1 =
                 Ok (tt, set_memory w1 (Mem.write (memory w1) (Z.to_nat (sp + 48))
                                          [Bytes.of_Z flag]))).
    { apply setUInt8_Ok. split; [|reflexivity]. unfold in_bounds8. rewrite L1. lia. }
    rewrite (bind_run _ _ _ _ _ Hf). reflexivity. }
  split; [exact Hh|].
  unfold word32_at, byte_at. cbn [memory set_memory].
  split.
  { rewrite read_write_disjoint by (cbn [length]; rewrite ?L1; lia).
    rewrite <- (uint32_small (Int.uint32 (valueIndex g))) by apply uint32_range.
    exact P. }
  split.
  { rewrite read_write_disjoint by (cbn [length]; rewrite ?L1; lia).
    replace (sp + 44) with (sp + 40 + 4) by lia.
    rewrite <- uint32_tag. exact T. }
  split.
  { rewrite lookup_write by (cbn [length]; rewrite ?L1; lia).
    destruct (decide _) as [_|Hout]; [|cbn [length] in Hout; lia].
    now rewrite Nat.sub_diag. }
  split; [exact Ht|].
  rewrite length_write by (cbn [length]; rewrite ?L1; lia). exact L1.
Qed.

(** construct-new on a target that is not a [newer]: the error object is
    the one handle allocated, and the flag byte is 0. *)
Lemma exportValueNew_not_a_newer g sp w x args :
  loadValue g (Int.add32 sp 8) w = Ok (x, w) ->
  loadSliceOfValues g (Int.add32 sp 16) w = Ok (args, w) ->
  newer (Value_v x) = None ->
  is_Some (heap w !! values g) ->
  0 <= sp -> sp + 56 <= Z.of_nat (length (memory w)) -> sp + 56 < 2 ^ 31 ->
  exists w',
    exportValueNew g sp w = Ok (next_Go g, w') /\
    heap w' = heap (allocated g w (newJSError (Errorf_not_a_newer x))) /\
    word32_at w' (sp + 40) = Int.uint32 (valueIndex g) /\
    word32_at w' (sp + 44) = nanHead /\
    byte_at w' (sp + 48) = Some x00.
Proof.
  intros Hv Ha Hg Hs H0 Hlen H31. unfold exportValueNew.
  rewrite (bind_run _ _ _ _ _ Hv), (bind_run _ _ _ _ _ Ha), Hg.
  destruct (store_new_then_flag g sp w (newJSError (Errorf_not_a_newer x)) 0
              eq_refl Hs H0 Hlen H31) as (w' & Hr & Hh & P & T & B & _).
  exists w'. auto.
Qed.

(** construct-new on a [jsArray]: the new array holds the decoded
    arguments, it is the one handle allocated, and the flag byte is 1. *)
Lemma exportValueNew_on_jsArray g sp w x a args :
  loadValue g (Int.add32 sp 8) w = Ok (x, w) ->
  Value_v x = DJsArray a ->
  loadSliceOfValues g (Int.add32 sp 16) w = Ok (args, w) ->
  is_Some (heap w !! values g) ->
  0 <= sp -> sp + 56 <= Z.of_nat (length (memory w)) -> sp + 56 < 2 ^ 31 ->
  exists w',
    exportValueNew g sp w = Ok (next_Go g, w') /\
    heap w' = heap (allocated g w (DJsArray args)) /\
    word32_at w' (sp + 40) = Int.uint32 (valueIndex g) /\
    word32_at w' (sp + 44) = nanHead /\
    byte_at w' (sp + 48) = Some x01 /\
    terminated w' = terminated w /\
    length (memory w') = length (memory w).
Proof.
  intros Hv Hx Ha Hs H0 Hlen H31. unfold exportValueNew.
  rewrite (bind_run _ _ _ _ _ Hv), (bind_run _ _ _ _ _ Ha), Hx. cbn [newer].
  assert (Hc : jsArray_New args w = Ok (DJsArray args, w)) by reflexivity.
  rewrite (bind_run _ _ _ _ _ Hc).
  destruct (store_new_then_flag g sp w (DJsArray args) 1 eq_refl Hs H0 Hlen H31)
    as (w' & Hr & Hh & P & T & B & Ht & L).
  exists w'. repeat split; auto.
Qed.

(** What the table holds once a handle has been allocated. *)
Lemma table_allocated g w v l :
  is_Some (heap w !! values g) ->
  table (allocated g w v) l =
  if decide (values g = l)
  then <[valueIndex g := mkValue (valueIndex g) v]> (table w (values g))
  else table w l.
Proof.
  intros [m E]. unfold allocated.
  assert (Em : table w (values g) = m) by (unfold table; now rewrite E).
  rewrite Em. rewrite (table_assign w (values g) _ _ m l E). now rewrite Em.
Qed.

Lemma table_heap w w' l : heap w' = heap w -> table w' l = table w l.
Proof. unfold table. now intros ->. Qed.

End Capabilities.

Section Scenarios.

(** The run of C6 on a new instance, with the boolean [true] as target. *)
Lemma valueGet_valueCall_not_a_getter_witness :
  let w := init_world scenario_bool_memory in
  loadValue first_Go 8 w = Ok (mkValue jsValueTrue (DBool true), w) /\
  loadString 16 w = Ok (Some "x"%string, w) /\
  exists w',
    exportValueGet first_Go 0 w = Ok (first_Go, w') /\
    exportValueCall first_Go 0 w = Ok (first_Go, w') /\
    terminated w' = true /\ memory w' = memory w /\ heap w' = heap w.
Proof.
  intros w.
  split; [vm_compute; reflexivity|]. split; [vm_compute; reflexivity|].
  refine (proj1 (valueGet_valueCall_not_a_getter first_Go 0 w
                   (mkValue jsValueTrue (DBool true)) _ eq_refl) "x"%string _).
  - vm_compute; reflexivity.
  - vm_compute; reflexivity.
Defined.

(** C4 (as amended) — construct-new on a [jsArray] target succeeds: one
    handle is allocated and bound to a new [jsArray] of the decoded
    arguments in order, the slot at the result offset gets that handle under
    the tag word [nanHead], and the flag byte is 1.  The new array is a
    [newer] and not a [getter]: get-property on it terminates the process
    whatever the name. *)
Theorem valueNew_on_jsArray g sp w x a args :
  loadValue g (Int.add32 sp 8) w = Ok (x, w) ->
  Value_v x = DJsArray a ->
  loadSliceOfValues g (Int.add32 sp 16) w = Ok (args, w) ->
  is_Some (heap w !! values g) ->
  0 <= sp -> sp + 56 <= Z.of_nat (length (memory w)) -> sp + 56 < 2 ^ 31 ->
  exists w',
    exportValueNew g sp w = Ok (next_Go g, w') /\
    table w' (values g) !! valueIndex g = Some (mkValue (valueIndex g) (DJsArray args)) /\
    word32_at w' (sp + 40) = Int.uint32 (valueIndex g) /\
    word32_at w' (sp + 44) = nanHead /\
    byte_at w' (sp + 48) = Some x01 /\
    is_Some (newer (DJsArray args)) /\
    getter (DJsArray args) = None /\
    forall sp' name,
      loadValue (next_Go g) (Int.add32 sp' 8) w' =
        Ok (mkValue (valueIndex g) (DJsArray args), w') ->
      loadString (Int.add32 sp' 16) w' = Ok (Some name, w') ->
      exportValueGet (next_Go g) sp' w' = Ok (next_Go g, set_terminated w').
Proof.
  intros Hv Hx Ha Hs H0 Hlen H31.
  destruct (exportValueNew_on_jsArray g sp w x a args Hv Hx Ha Hs H0 Hlen H31)
    as (w' & Hr & Hh & P & T & B & _).
  exists w'. split; [exact Hr|]. split.
  { rewrite (table_heap _ _ _ Hh), table_allocated by exact Hs.
    destruct (decide _) as [_|Hne]; [|congruence]. apply lookup_insert_eq. }
  split; [exact P|]. split; [exact T|]. split; [exact B|].
  split; [eexists; reflexivity|]. split; [reflexivity|].
  intros sp' name Hv' Hs'.
  eapply exportValueGet_not_a_getter; eauto.
Qed.

(** The run of C4 on scenario B. *)
Lemma valueNew_on_jsArray_witness :
  exists w',
    exportValueNew scenario_B_Go 0 scenario_B_world = Ok (next_Go scenario_B_Go, w') /\
    table w' defaultValues !! 11 = Some (mkValue 11 scenario_B_array) /\
    word32_at w' 40 = 11 /\
    word32_at w' 44 = nanHead /\
    byte_at w' 48 = Some x01 /\
    exportValueGet (next_Go scenario_B_Go) 80 w' =
      Ok (next_Go scenario_B_Go, set_terminated w').
Proof.
  destruct (valueNew_on_jsArray scenario_B_Go 0 scenario_B_world
              (mkValue 8 (DJsArray [])) [] 
              [DValue 9 (DFloat64 float64_1_0); DValue 10 (DFloat64 float64_2_0)])
    as (w' & Hr & Ht & P & T & B & _ & _ & Hget).
  - vm_compute; reflexivity.
  - reflexivity.
  - vm_compute; reflexivity.
  - eexists; reflexivity.
  - lia.
  - vm_compute; congruence.
  - vm_compute; reflexivity.
  - exists w'. split; [exact Hr|]. split; [exact Ht|]. split; [exact P|].
    split; [exact T|]. split; [exact B|].
    assert (E : exportValueNew scenario_B_Go 0 scenario_B_world = Ok (next_Go scenario_B_Go, w'))
      by exact Hr.
    vm_compute in E. injection E as <-.
    apply (Hget 80 "0"); vm_compute; reflexivity.
Defined.

(** C4, as the specification states it, fails on scenario B: the call
    succeeds and the new array holds the two numbers, but the array is not a
    [getter]; get-property on it with the name [0] terminates the process
    and leaves the result slot at 112 as it was.  The same holds for the
    method itself on the bare numbers. *)
Lemma scenario_B_array_is_not_a_getter :
  (exists g' w',
     exportValueNew scenario_B_Go 0 scenario_B_world = Ok (g', w') /\
     byte_at w' 48 = Some x01 /\
     word32_at w' 40 = 11 /\
     table w' (values g') !! 11 = Some (mkValue 11 scenario_B_array) /\
     getter scenario_B_array = None /\
     loadString 96 w' = Ok (Some "0"%string, w') /\
     exportValueGet g' 80 w' = Ok (g', set_terminated w') /\
     word64_at (set_terminated w') 112 = word64_at scenario_B_world 112) /\
  jsArray_New [DFloat64 float64_1_0; DFloat64 float64_2_0] scenario_B_world =
    Ok (DJsArray [DFloat64 float64_1_0; DFloat64 float64_2_0], scenario_B_world) /\
  getter (DJsArray [DFloat64 float64_1_0; DFloat64 float64_2_0]) = None.
Proof.
  split; [|split; reflexivity].
  eexists _, _. split; [vm_compute; reflexivity|].
  repeat split; vm_compute; reflexivity.
Qed.

(** No argument that [loadSliceOfValues] decodes is an [int8]: each one is a
    [Value] struct. *)
Lemma jsInt8Array_fill_decoded g addr w args w' :
  loadSliceOfValues g addr w = Ok (args, w') ->
  args <> [] ->
  exists e, jsInt8Array_fill args = Panic e.
Proof.
  unfold loadSliceOfValues. intros H Hne. bind_inv H. bind_inv H.
  destruct (_ <? 0); [discriminate|].
  destruct args as [|x args]; [congruence|].
  eapply loadSliceOfValues_from_lookup with (j := 0%nat) in H; [|reflexivity].
  rewrite H. eexists. reflexivity.
Qed.

(** C5 — construct-new on the other constructible stand-in: with a
    [jsInt8Array] target and an argument list that is not empty, the
    assertion [v.(int8)] of [jsInt8Array.New] fails on the first decoded
    argument, a [Value] struct, and the call panics before anything is
    encoded or any flag is set. *)
Theorem valueNew_on_jsInt8Array_panics g sp w x a args :
  loadValue g (Int.add32 sp 8) w = Ok (x, w) ->
  Value_v x = DJsInt8Array a ->
  loadSliceOfValues g (Int.add32 sp 16) w = Ok (args, w) ->
  args <> [] ->
  is_Some (newer (Value_v x)) /\
  exists e, exportValueNew g sp w = Panic e.
Proof.
  intros Hv Hx Ha Hne. rewrite Hx. split; [eexists; reflexivity|].
  destruct (jsInt8Array_fill_decoded _ _ _ _ _ Ha Hne) as (e & He).
  exists e. unfold exportValueNew.
  rewrite (bind_run _ _ _ _ _ Hv), (bind_run _ _ _ _ _ Ha), Hx. cbn [newer].
  apply bind_Panic. unfold jsInt8Array_New. now rewrite He.
Qed.

(** The run of C5: a new instance gets the typed-array constructor from
    the global object, which takes handle 8, and constructs from it with the
    one argument [true]. *)
Lemma valueNew_on_jsInt8Array_panics_witness :
  let w := init_world scenario_Int8Array_memory in
  exists g1 w1,
    NewGo 0 w = Ok (first_Go, w) /\
    exportValueGet first_Go 0 w = Ok (g1, w1) /\
    word32_at w1 32 = 8 /\
    table w1 (values g1) !! 8 = Some (mkValue 8 (DJsInt8Array [])) /\
    (is_Some (newer (DJsInt8Array [])) /\
     exists e, exportValueNew g1 64 w1 = Panic e).
Proof.
  intros w. eexists _, _. split; [vm_compute; reflexivity|].
  split; [vm_compute; reflexivity|].
  split; [vm_compute; reflexivity|].
  split; [vm_compute; reflexivity|].
  refine (valueNew_on_jsInt8Array_panics _ 64 _ (mkValue 8 (DJsInt8Array [])) []
            [DValue jsValueTrue (DBool true)] _ eq_refl _ _).
  - vm_compute; reflexivity.
  - vm_compute; reflexivity.
  - discriminate.
Defined.

(** The part of C5 that holds, on the same session: construct-new on the
    boolean [true] encodes the error object under the one new handle 9 and
    sets the flag byte to 0. *)
Example valueNew_on_a_boolean :
  let w := init_world scenario_Int8Array_memory in
  exists g1 w1 w2,
    exportValueGet first_Go 0 w = Ok (g1, w1) /\
    exportValueNew g1 64 (set_memory w1 (Mem.write (memory w1) 72 (Bytes.le_encode 4 3)))
      = Ok (next_Go g1, w2) /\
    word32_at w2 104 = 9 /\ word32_at w2 108 = nanHead /\
    byte_at w2 112 = Some x00 /\
    size (table w2 (values g1)) = 10%nat.
Proof.
  intros w. eexists _, _, _. split; [vm_compute; reflexivity|].
  split; [vm_compute; reflexivity|].
  repeat split; vm_compute; reflexivity.
Qed.

End Scenarios.

(* ===================================================================== *)
(** ** What a host call does to the table *)
(* ===================================================================== *)

Section Calls.

Implicit Types (g : Go) (w : World) (addr sp : Z) (v : datum).

Lemma setUInt32_heap addr x w u w' : setUInt32 addr x w = Ok (u, w') -> heap w' = heap w.
Proof. intros H. apply setUInt32_Ok in H. destruct H as (_ & ->). reflexivity. Qed.

Lemma setUInt64_heap addr x w u w' : setUInt64 addr x w = Ok (u, w') -> heap w' = heap w.
Proof. intros H. apply setUInt64_Ok in H. destruct H as (_ & ->). reflexivity. Qed.

Lemma setUInt8_heap addr x w u w' : setUInt8 addr x w = Ok (u, w') -> heap w' = heap w.
Proof. intros H. apply setUInt8_Ok in H. destruct H as (_ & ->). reflexivity. Qed.

Lemma setSlice_heap sp bs w u w' : setSlice sp bs w = Ok (u, w') -> heap w' = heap w.
Proof.
  unfold setSlice. intros H. bind_inv H. apply loadSlice_world in Hstep. subst.
  destruct a as [[off n]|]; [|discriminate].
  unfold poke in H. injection H as _ <-. reflexivity.
Qed.

Lemma table_effect_refl g w : table_effect g w g w.
Proof. left. auto. Qed.

(** An effect followed by steps that leave the heap alone. *)
Lemma table_effect_then g w g' w1 w' :
  table_effect g w g' w1 -> heap w' = heap w1 -> table_effect g w g' w'.
Proof.
  intros [[-> Hh]|(v & Hn & Hs & -> & Hh)] E.
  - left. split; [reflexivity | congruence].
  - right. exists v. repeat split; auto. congruence.
Qed.

Lemma storeValue_table_effect g addr v w g' w' :
  storeValue g addr v w = Ok (g', w') -> table_effect g w g' w'.
Proof.
  intros H. apply storeValue_effect in H. destruct H as (_ & _ & [H|(Hn & Hs & Hg & Hh)]).
  - left. exact H.
  - right. exists v. auto.
Qed.

Lemma exportStringVal_effect g sp w g' w' :
  exportStringVal g sp w = Ok (g', w') -> table_effect g w g' w'.
Proof.
  unfold exportStringVal. intros H. bind_inv H. apply loadString_world in Hstep. subst.
  destruct a; [|discriminate]. now apply storeValue_table_effect in H.
Qed.

Lemma exportValuePrepareString_effect g sp w g' w' :
  exportValuePrepareString g sp w = Ok (g', w') -> table_effect g w g' w'.
Proof.
  unfold exportValuePrepareString. intros H. bind_inv H.
  apply loadString_world in Hstep. subst.
  destruct a; [|discriminate]. bind_inv H. bind_inv H. ret_inv H.
  apply storeValue_table_effect in Hstep. apply setUInt64_heap in Hstep0.
  eapply table_effect_then; eauto.
Qed.

Lemma exportValueLoadString_effect g sp w g' w' :
  exportValueLoadString g sp w = Ok (g', w') -> table_effect g w g' w'.
Proof.
  unfold exportValueLoadString. intros H. bind_inv H.
  apply loadValue_world in Hstep. subst.
  destruct (Value_v a); try discriminate.
  bind_inv H. ret_inv H. apply setSlice_heap in Hstep. left. auto.
Qed.

Lemma exportValueGet_effect g sp w g' w' :
  exportValueGet g sp w = Ok (g', w') -> table_effect g w g' w'.
Proof.
  unfold exportValueGet. intros H. bind_inv H. apply loadValue_world in Hstep. subst.
  bind_inv H. apply loadString_world in Hstep. subst.
  destruct a0; [|discriminate].
  destruct (getter (Value_v a)) as [Get|].
  - now apply storeValue_table_effect in H.
  - injection H as <- <-. left. auto.
Qed.

Lemma exportValueCall_effect g sp w g' w' :
  exportValueCall g sp w = Ok (g', w') -> table_effect g w g' w'.
Proof.
  unfold exportValueCall. intros H. bind_inv H. apply loadValue_world in Hstep. subst.
  bind_inv H. apply loadString_world in Hstep. subst.
  destruct a0; [|discriminate].
  destruct (getter (Value_v a)) as [Get|].
  - bind_inv H. apply loadSliceOfValues_world in Hstep. subst. ret_inv H. left. auto.
  - injection H as <- <-. left. auto.
Qed.

Lemma newer_world x New args c w w' :
  newer x = Some New -> New args w = Ok (c, w') -> w' = w.
Proof.
  destruct x; try discriminate; intros [= <-] H.
  - now ret_inv H.
  - unfold jsInt8Array_New in H. destruct (jsInt8Array_fill args); [|discriminate].
    now injection H as _ <-.
Qed.

Lemma exportValueNew_effect g sp w g' w' :
  exportValueNew g sp w = Ok (g', w') -> table_effect g w g' w'.
Proof.
  unfold exportValueNew. intros H. bind_inv H. apply loadValue_world in Hstep. subst.
  bind_inv H. apply loadSliceOfValues_world in Hstep. subst.
  destruct (newer (Value_v a)) as [New|] eqn:Hn.
  - bind_inv H. apply (newer_world _ _ _ _ _ _ Hn) in Hstep. subst.
    bind_inv H. bind_inv H. ret_inv H.
    apply storeValue_table_effect in Hstep. apply setUInt8_heap in Hstep0.
    eapply table_effect_then; eauto.
  - bind_inv H. bind_inv H. ret_inv H.
    apply storeValue_table_effect in Hstep. apply setUInt8_heap in Hstep0.
    eapply table_effect_then; eauto.
Qed.

Lemma call_effect e env g sp w g' w' :
  call e g env sp w = Ok (g', w') -> table_effect g w g' w'.
Proof.
  destruct e; cbn [call]; intros H.
  - injection H as <- <-. apply table_effect_refl.
  - injection H as <- <-. left. auto.
  - unfold exportWasmWrite in H. bind_inv H. apply loadString_world in Hstep. subst.
    destruct a; [|discriminate]. ret_inv H. apply table_effect_refl.
  - unfold exportNanotime in H. bind_inv H. ret_inv H.
    apply setUInt64_heap in Hstep. left. auto.
  - unfold exportWalltime in H. bind_inv H. bind_inv H. ret_inv H.
    apply setUInt64_heap in Hstep. apply setUInt32_heap in Hstep0. left. split; congruence.
  - injection H as <- <-. apply table_effect_refl.
  - injection H as <- <-. apply table_effect_refl.
  - unfold exportGetRandomData in H. bind_inv H. apply loadSlice_world in Hstep. subst.
    destruct a as [[off n]|]; [|discriminate]. bind_inv H. ret_inv H.
    unfold poke in Hstep. injection Hstep as _ <-. left. auto.
  - now apply exportStringVal_effect in H.
  - now apply exportValueGet_effect in H.
  - now apply exportValueCall_effect in H.
  - now apply exportValueNew_effect in H.
  - now apply exportValuePrepareString_effect in H.
  - now apply exportValueLoadString_effect in H.
Qed.

(** Every event of a session does nothing to the table or allocates one
    handle. *)
Lemma step_effect ev g w g' w' :
  step ev g w = Ok (g', w') -> table_effect g w g' w'.
Proof.
  destruct ev as [e env sp|m|addr v]; cbn [step]; intros H.
  - now apply call_effect in H.
  - injection H as <- <-. left. auto.
  - now apply storeValue_table_effect in H.
Qed.

End Calls.

(* ===================================================================== *)
(** ** The reserved handles *)
(* ===================================================================== *)

Section Reserved.

Implicit Types (g : Go) (w : World) (addr sp : Z) (v : datum).

Lemma defaultValues_init_above (k : Z) : 8 <= k -> defaultValues_init !! k = None.
Proof.
  intros H. unfold defaultValues_init, jsValueNaN, jsValueUndefined, jsValueNull,
    jsValueTrue, jsValueFalse, jsValueGlobal, jsValueMemory, jsVsGo.
  rewrite !lookup_insert_ne by lia. apply lookup_empty.
Qed.

Lemma defaultValues_init_below (k : Z) : k < 0 -> defaultValues_init !! k = None.
Proof.
  intros H. unfold defaultValues_init, jsValueNaN, jsValueUndefined, jsValueNull,
    jsValueTrue, jsValueFalse, jsValueGlobal, jsValueMemory, jsVsGo.
  rewrite !lookup_insert_ne by lia. apply lookup_empty.
Qed.

Lemma size_defaultValues_init : size defaultValues_init = 8%nat.
Proof. vm_compute. reflexivity. Qed.

(** A table that binds the reserved handles has at least 8 entries. *)
Lemma reserved_bound_size g w :
  reserved_bound g w -> (8 <= size (table w (values g)))%nat.
Proof.
  intros Hr. rewrite <- size_defaultValues_init. apply map_subseteq_size.
  apply map_subseteq_spec. intros k x Hk.
  destruct (Z_lt_dec k 0) as [Hneg|Hpos].
  { rewrite defaultValues_init_below in Hk by lia. discriminate. }
  destruct (Z_le_dec 8 k) as [Hbig|Hsmall].
  { rewrite defaultValues_init_above in Hk by lia. discriminate. }
  rewrite Hr by lia. exact Hk.
Qed.

Lemma init_world_reserved_bound m now : reserved_bound (mkGo now defaultValues 8) (init_world m).
Proof. intros h Hh. reflexivity. Qed.

Lemma init_world_fresh_above m now : fresh_above (mkGo now defaultValues 8) (init_world m).
Proof. intros k Hk. cbn in Hk. apply defaultValues_init_above. exact Hk. Qed.

Lemma NewGo_init_world m now :
  NewGo now (init_world m) = Ok (mkGo now defaultValues 8, init_world m).
Proof. reflexivity. Qed.

Lemma NewGo_Ok now w g w' :
  NewGo now w = Ok (g, w') <->
  w' = w /\ g = mkGo now defaultValues (Int.uint64 (Z.of_nat (size (table w defaultValues)))).
Proof.
  unfold NewGo. rewrite bind_Ok. split.
  - intros (n & w1 & H1 & H2). apply map_len_Ok in H1. destruct H1 as (-> & ->).
    ret_inv H2. auto.
  - intros (-> & ->). eexists _, _. split; [apply map_len_Ok; eauto | reflexivity].
Qed.

(** An instance made by [NewGo] over a table that binds the reserved
    handles starts its counter at 8 or above. *)
Lemma NewGo_counter now w g w' :
  reserved_bound (mkGo now defaultValues 0) w ->
  Z.of_nat (size (table w defaultValues)) < 2 ^ 64 ->
  NewGo now w = Ok (g, w') ->
  w' = w /\ values g = defaultValues /\ reserved_bound g w' /\ 8 <= valueIndex g.
Proof.
  intros Hr Hs H. apply NewGo_Ok in H. destruct H as (-> & ->).
  split; [reflexivity|]. split; [reflexivity|]. split; [exact Hr|].
  pose proof (reserved_bound_size _ _ Hr) as H8. cbn [values] in H8.
  cbn [valueIndex]. rewrite uint64_small by lia. lia.
Qed.

Lemma table_effect_values g w g' w' : table_effect g w g' w' -> values g' = values g.
Proof. intros [[-> _]|(v & _ & _ & -> & _)]; reflexivity. Qed.

(** The counter stays or moves on by one. *)
Lemma table_effect_index g w g' w' :
  table_effect g w g' w' -> 0 <= valueIndex g -> valueIndex g + 1 < 2 ^ 64 ->
  valueIndex g <= valueIndex g' <= valueIndex g + 1.
Proof.
  intros [[-> _]|(v & _ & _ & -> & _)] H0 H1; [lia|].
  cbn [valueIndex next_Go set_valueIndex]. rewrite uint64_small by lia. lia.
Qed.

(** Only the entry of the counter can change. *)
Lemma table_effect_lookup g w g' w' (k : Z) :
  table_effect g w g' w' -> k <> valueIndex g ->
  table w' (values g') !! k = table w (values g) !! k.
Proof.
  intros [[-> Hh]|(v & _ & Hs & -> & Hh)] Hk.
  - now rewrite (table_heap _ _ _ Hh).
  - cbn [values next_Go set_valueIndex].
    rewrite (table_heap _ _ _ Hh), table_allocated by exact Hs.
    destruct (decide _) as [_|Hne]; [|congruence]. now rewrite lookup_insert_ne.
Qed.

(** No entry is ever removed. *)
Lemma table_effect_keeps g w g' w' (k : Z) :
  table_effect g w g' w' -> is_Some (table w (values g) !! k) ->
  is_Some (table w' (values g') !! k).
Proof.
  intros He Hk. destruct (Z.eq_dec k (valueIndex g)) as [->|Hne].
  - destruct He as [[-> Hh]|(v & _ & Hs & -> & Hh)].
    + now rewrite (table_heap _ _ _ Hh).
    + cbn [values next_Go set_valueIndex].
      rewrite (table_heap _ _ _ Hh), table_allocated by exact Hs.
      destruct (decide _) as [_|Hne]; [|congruence]. rewrite lookup_insert_eq. eauto.
  - now rewrite (table_effect_lookup g w g' w' k He Hne).
Qed.

(** Along a session the instance keeps its map, the counter only grows, by
    at most one per event, and the entries below the counter stay as they
    are. *)
Lemma run_invariant evs :
  forall g w g' w',
    0 <= valueIndex g -> valueIndex g + Z.of_nat (length evs) < 2 ^ 64 ->
    run evs g w = Ok (g', w') ->
    values g' = values g /\
    valueIndex g <= valueIndex g' <= valueIndex g + Z.of_nat (length evs) /\
    (forall k, k < valueIndex g ->
       table w' (values g') !! k = table w (values g) !! k) /\
    (forall k, is_Some (table w (values g) !! k) -> is_Some (table w' (values g') !! k)).
Proof.
  induction evs as [|ev evs IH]; intros g w g' w' H0 Hn H; cbn [run] in H.
  - ret_inv H. cbn [length]. repeat split; auto; lia.
  - bind_inv H. rename a into g1, w0 into w1.
    cbn [length] in Hn. rewrite Nat2Z.inj_succ in Hn.
    apply step_effect in Hstep.
    pose proof (table_effect_values _ _ _ _ Hstep) as Hv.
    pose proof (table_effect_index _ _ _ _ Hstep H0 ltac:(lia)) as Hi.
    destruct (IH g1 w1 g' w' ltac:(lia) ltac:(lia) H) as (Hv' & Hi' & Hl & Hk).
    split; [congruence|]. split; [cbn [length]; lia|]. split.
    + intros k Hlt. rewrite Hl by lia.
      apply (table_effect_lookup g w g1 w1 k Hstep). lia.
    + intros k Hs. apply Hk. eapply table_effect_keeps; eauto.
Qed.

(** C7 — the reserved handles along a session: whatever the events
    (host calls, guest writes, encodes of any values), as long as the 64-bit
    counter does not wrap, every handle [h] in 0..7 stays bound to the
    sentinel that [defaultValues] binds it to, and looking it up through a
    slot returns that sentinel. *)
Theorem reserved_handles_stable evs g w g' w' :
  reserved_bound g w ->
  8 <= valueIndex g ->
  valueIndex g + Z.of_nat (length evs) < 2 ^ 64 ->
  run evs g w = Ok (g', w') ->
  forall h, 0 <= h < 8 ->
    table w' (values g') !! h = defaultValues_init !! h /\
    is_Some (defaultValues_init !! h) /\
    forall addr, in_bounds8 w' addr -> word32_at w' addr = h ->
      loadValue g' addr w' = Ok (default zeroValue (defaultValues_init !! h), w').
Proof.
  intros Hr H8 Hn H h Hh.
  destruct (run_invariant evs g w g' w' ltac:(lia) Hn H) as (Hv & Hi & Hl & _).
  assert (Hr' : reserved_bound g' w').
  { intros k Hk. rewrite Hl by lia. now apply Hr. }
  split; [now apply Hr'|]. split.
  { assert (h = 0 \/ h = 1 \/ h = 2 \/ h = 3 \/ h = 4 \/ h = 5 \/ h = 6 \/ h = 7) as Hc by lia.
    destruct Hc as [->|[->|[->|[->|[->|[->|[->| ->]]]]]]]; eexists; reflexivity. }
  intros addr Hb Hw.
  pose proof (reserved_bound_size g' w' Hr') as Hs.
  rewrite loadValue_up_to_size by (auto; lia).
  rewrite Hw, Hr' by lia. reflexivity.
Qed.

(** The run of C7 on a sample session of a new instance. *)
Lemma reserved_handles_stable_witness :
  exists g' w',
    run sample_session first_Go (init_world scenario_Int8Array_memory) = Ok (g', w') /\
    valueIndex g' = 10 /\
    table w' (values g') !! 5 = Some (mkValue jsValueGlobal jsGlobal) /\
    loadValue g' 0 w' = Ok (mkValue jsValueGlobal jsGlobal, w').
Proof.
  eexists _, _. split; [vm_compute; reflexivity|]. split; [reflexivity|].
  match goal with |- table ?w' (values ?g') !! _ = _ /\ _ =>
    pose proof (reserved_handles_stable sample_session first_Go
                  (init_world scenario_Int8Array_memory) g' w'
                  (init_world_reserved_bound _ _)
                  ltac:(cbn; lia) ltac:(cbn; lia)
                  ltac:(vm_compute; reflexivity) 5 ltac:(lia)) as (Ht & _ & Hl)
  end.
  split; [exact Ht|].
  apply Hl; [vm_compute; split; congruence | vm_compute; reflexivity].
Defined.

End Reserved.

(* ===================================================================== *)
(** ** Allocation *)
(* ===================================================================== *)

Section Allocation.

Implicit Types (g : Go) (w : World) (addr sp : Z) (v : datum).

Lemma lookup_handles_from (n : nat) :
  forall (r : Z) (i : nat) (h : Z),
    handles_from r n !! i = Some h <-> h = r + Z.of_nat i /\ (i < n)%nat.
Proof.
  induction n as [|n IH]; intros r i h; cbn [handles_from].
  - split; [discriminate | lia].
  - destruct i as [|i]; cbn [lookup list_lookup].
    + split; [intros [= <-]; split; lia | intros [-> _]; f_equal; lia].
    + change ((r :: handles_from (r + 1) n) !! S i) with (handles_from (r + 1) n !! i).
      rewrite IH. split; intros [-> Hi]; split; lia.
Qed.

(** One encode of a new value, in terms of the table. *)
Lemma storeValue_new_table g addr v w g' w' :
  is_new v = true ->
  storeValue g addr v w = Ok (g', w') ->
  g' = next_Go g /\
  table w' (values g) = <[valueIndex g := mkValue (valueIndex g) v]> (table w (values g)) /\
  word32_at w' addr = Int.uint32 (valueIndex g) /\
  in_bounds8 w' addr.
Proof.
  intros Hn H. apply (storeValue_new_Ok g addr v w g' w' Hn) in H.
  destruct H as (Hs & Ha & Hb & -> & ->). split; [reflexivity|]. split.
  { rewrite (table_heap (allocated g w v)) by reflexivity.
    rewrite table_allocated by exact Hs.
    destruct (decide _) as [_|Hne]; [reflexivity | congruence]. }
  assert (L : length (memory (slot_written (allocated g w v) addr
                 (Z.lor nanHead (own_typeFlag v)) (Int.uint32 (valueIndex g))))
              = length (memory w)) by (now rewrite length_slot_written).
  destruct Hb as [Hb1 Hb2]. split.
  - unfold slot_written, word32_at. cbn [memory set_memory allocated set_heap].
    destruct Ha as [Ha1 Ha2].
    rewrite read_write_same.
    + rewrite le_decode_encode_4. apply uint32_small, uint32_range.
    + now rewrite length_le_encode.
    + rewrite length_write by (rewrite length_le_encode; lia). lia.
  - split; [exact Hb1|]. rewrite L. exact Hb2.
Qed.

(** A sequence of encodes of new values takes consecutive handles. *)
Lemma storeValues_spec l :
  forall g w hs g' w',
    Forall (fun p => is_new (snd p) = true) l ->
    0 <= valueIndex g -> valueIndex g + Z.of_nat (length l) < 2 ^ 64 ->
    fresh_above g w ->
    storeValues g l w = Ok ((hs, g'), w') ->
    hs = handles_from (valueIndex g) (length l) /\
    values g' = values g /\
    valueIndex g' = valueIndex g + Z.of_nat (length l) /\
    fresh_above g' w' /\
    size (table w' (values g)) = (size (table w (values g)) + length l)%nat /\
    (forall (i : nat) p, l !! i = Some p ->
       table w' (values g) !! (valueIndex g + Z.of_nat i) =
         Some (mkValue (valueIndex g + Z.of_nat i) (snd p))) /\
    (forall k : Z, k < valueIndex g ->
       table w' (values g) !! k = table w (values g) !! k).
Proof.
  induction l as [|[addr v] l IH]; intros g w hs g' w' Hnew H0 Hn Hf H;
    cbn [storeValues] in H.
  - ret_inv H. cbn [length handles_from]. rewrite Z.add_0_r, Nat.add_0_r.
    repeat split; auto. intros i p Hi. discriminate.
  - apply Forall_cons in Hnew. destruct Hnew as [Hv Hnew]. cbn [snd] in Hv.
    cbn [length] in Hn. rewrite Nat2Z.inj_succ in Hn.
    bind_inv H. rename a into g1, w0 into w1. bind_inv H. destruct a as [hs1 g2]. ret_inv H.
    cbn [fst snd].
    destruct (storeValue_new_table g addr v w g1 w1 Hv Hstep) as (-> & Ht & _ & _).
    assert (Hi1 : valueIndex (next_Go g) = valueIndex g + 1)
      by (cbn [valueIndex next_Go set_valueIndex]; apply uint64_small; lia).
    assert (Hf1 : fresh_above (next_Go g) w1).
    { intros k Hk. rewrite Hi1 in Hk. cbn [values next_Go set_valueIndex]. rewrite Ht.
      rewrite lookup_insert_ne by lia. apply Hf. lia. }
    destruct (IH (next_Go g) w1 hs1 g' w' Hnew ltac:(lia) ltac:(lia) Hf1 Hstep0)
      as (Hhs & Hval & Hidx & Hf' & Hsz & Hin & Hout).
    cbn [values next_Go set_valueIndex] in Hval, Hsz, Hin, Hout.
    rewrite Hi1 in Hhs, Hidx, Hin, Hout.
    split; [cbn [length handles_from]; now rewrite Hhs|].
    split; [exact Hval|]. split; [cbn [length]; lia|]. split; [exact Hf'|]. split.
    { rewrite Hsz, Ht. rewrite map_size_insert_None by (apply Hf; lia). cbn [length]. lia. }
    split.
    + intros [|i] p Hp.
      * injection Hp as <-. cbn [snd]. rewrite Z.add_0_r.
        rewrite Hout by lia. rewrite Ht. apply lookup_insert_eq.
      * change (((addr, v) :: l) !! S i) with (l !! i) in Hp.
        replace (valueIndex g + Z.of_nat (S i)) with (valueIndex g + 1 + Z.of_nat i) by lia.
        now apply Hin.
    + intros k Hk. rewrite Hout by lia. rewrite Ht. now rewrite lookup_insert_ne by lia.
Qed.

(** C8 — a sequence of allocations by the new-value path of [storeValue],
    as long as the 64-bit counter does not wrap: the handles taken are the
    consecutive integers from the counter on, so they are strictly
    increasing; none is a reserved handle and none was in the table before;
    at the end each is bound to the value it was taken for, and every entry
    that the table had before is still there, unchanged. *)
Theorem allocation_is_monotonic l g w hs g' w' :
  Forall (fun p => is_new (snd p) = true) l ->
  8 <= valueIndex g ->
  valueIndex g + Z.of_nat (length l) < 2 ^ 64 ->
  fresh_above g w ->
  storeValues g l w = Ok ((hs, g'), w') ->
  hs = handles_from (valueIndex g) (length l) /\
  (forall (i j : nat) hi hj, (i < j)%nat ->
     hs !! i = Some hi -> hs !! j = Some hj -> hi < hj) /\
  (forall (i : nat) h, hs !! i = Some h ->
     8 <= h /\ table w (values g) !! h = None) /\
  (forall (i : nat) h p, hs !! i = Some h -> l !! i = Some p ->
     table w' (values g') !! h = Some (mkValue h (snd p))) /\
  (forall (k : Z) x, table w (values g) !! k = Some x ->
     table w' (values g') !! k = Some x).
Proof.
  intros Hnew H8 Hn Hf H.
  destruct (storeValues_spec l g w hs g' w' Hnew ltac:(lia) Hn Hf H)
    as (Hhs & Hval & Hidx & Hf' & Hsz & Hin & Hout).
  rewrite Hval. split; [exact Hhs|]. split.
  { intros i j hi hj Hij Hi Hj. rewrite Hhs in Hi, Hj.
    apply lookup_handles_from in Hi, Hj. lia. }
  split.
  { intros i h Hi. rewrite Hhs in Hi. apply lookup_handles_from in Hi.
    destruct Hi as [-> Hi]. split; [lia|]. apply Hf. lia. }
  split.
  { intros i h p Hi Hp. rewrite Hhs in Hi. apply lookup_handles_from in Hi.
    destruct Hi as [-> Hi]. now apply Hin. }
  intros k x Hk. rewrite Hout; [exact Hk|].
  destruct (Z_lt_dec k (valueIndex g)) as [Hlt|Hge]; [exact Hlt|].
  rewrite Hf in Hk by lia. discriminate.
Qed.

(** The run of C8 on a new instance. *)
Lemma allocation_is_monotonic_witness :
  exists g' w',
    storeValues first_Go sample_stores (init_world (zeros 24)) = Ok (([8; 9; 10], g'), w') /\
    valueIndex g' = 11 /\
    table w' (values g') !! 8 = Some (mkValue 8 (DString "a")) /\
    table w' (values g') !! 9 = Some (mkValue 9 (DJsArray [])) /\
    table w' (values g') !! 10 = Some (mkValue 10 (DFunc 4096)) /\
    table w' (values g') !! 5 = Some (mkValue jsValueGlobal jsGlobal).
Proof.
  eexists _, _. split; [vm_compute; reflexivity|]. split; [reflexivity|].
  match goal with |- table ?w' (values ?g') !! _ = _ /\ _ =>
    pose proof (allocation_is_monotonic sample_stores first_Go (init_world (zeros 24))
                  [8; 9; 10] g' w'
                  ltac:(repeat constructor)
                  ltac:(cbn; lia) ltac:(cbn; lia)
                  (init_world_fresh_above _ _)
                  ltac:(vm_compute; reflexivity)) as (_ & _ & _ & Hb & Hk)
  end.
  split; [exact (Hb 0%nat 8 _ eq_refl eq_refl)|].
  split; [exact (Hb 1%nat 9 _ eq_refl eq_refl)|].
  split; [exact (Hb 2%nat 10 _ eq_refl eq_refl)|].
  exact (Hk 5 _ eq_refl).
Defined.

End Allocation.

(* ===================================================================== *)
(** ** One table for every instance *)
(* ===================================================================== *)

Section Sharing.

Implicit Types (g : Go) (w : World) (addr sp : Z) (v : datum).

Lemma size_insert_ge (m : gmap Z Value) (k : Z) (x : Value) :
  (size m <= size (<[k := x]> m))%nat.
Proof. rewrite map_size_insert. destruct (m !! k); simpl; lia. Qed.

(** A handle just allocated through one instance, looked up through any
    instance that holds the same map. *)
Lemma loadValue_after_store g ga addr v w g' w' :
  is_new v = true ->
  0 <= valueIndex g < 2 ^ 32 ->
  values ga = values g ->
  valueIndex g <= Z.of_nat (size (table w (values g))) ->
  storeValue g addr v w = Ok (g', w') ->
  loadValue ga addr w' = Ok (mkValue (valueIndex g) v, w').
Proof.
  intros Hn Hr Hv Hs H.
  destruct (storeValue_new_table g addr v w g' w' Hn H) as (_ & Ht & Hw & Hb).
  rewrite uint32_small in Hw by lia.
  rewrite loadValue_up_to_size; rewrite ?Hv, ?Hw, ?Ht; auto.
  - now rewrite lookup_insert_eq.
  - pose proof (size_insert_ge (table w (values g)) (valueIndex g)
                  (mkValue (valueIndex g) v)). lia.
Qed.

(** C10 — [NewGo] hands out the package-level map itself.  After a first
    instance has encoded [n] new values, a second instance made by [NewGo]
    holds the same map object; its table has [8 + n] entries, among them
    the values of the first instance under the handles from 8 on; its
    counter starts at [8 + n]; and a value encoded through either instance
    is found by a lookup through the other. *)
Theorem NewGo_shares_defaultValues m now1 now2 l g1 w1 hs g1' w2 g2 w3 :
  NewGo now1 (init_world m) = Ok (g1, w1) ->
  Forall (fun p => is_new (snd p) = true) l ->
  8 + Z.of_nat (length l) < 2 ^ 32 ->
  storeValues g1 l w1 = Ok ((hs, g1'), w2) ->
  NewGo now2 w2 = Ok (g2, w3) ->
  w3 = w2 /\
  values g1' = defaultValues /\ values g2 = defaultValues /\
  size (table w3 (values g2)) = (8 + length l)%nat /\
  valueIndex g2 = 8 + Z.of_nat (length l) /\
  (forall (i : nat) p, l !! i = Some p ->
     table w3 (values g2) !! (8 + Z.of_nat i) = Some (mkValue (8 + Z.of_nat i) (snd p))) /\
  (forall addr v g2' w4, is_new v = true ->
     storeValue g2 addr v w3 = Ok (g2', w4) ->
     loadValue g1' addr w4 = Ok (mkValue (8 + Z.of_nat (length l)) v, w4)) /\
  (forall addr v g1'' w4, is_new v = true ->
     storeValue g1' addr v w3 = Ok (g1'', w4) ->
     loadValue g2 addr w4 = Ok (mkValue (8 + Z.of_nat (length l)) v, w4)).
Proof.
  intros H1 Hnew Hn Hst H2.
  rewrite NewGo_init_world in H1. injection H1 as <- <-.
  destruct (storeValues_spec l (mkGo now1 defaultValues 8) (init_world m) hs g1' w2
              Hnew ltac:(cbn; lia) ltac:(cbn; lia)
              (init_world_fresh_above m now1) Hst)
    as (_ & Hval & Hidx & Hf & Hsz & Hin & _).
  cbn [values valueIndex] in Hval, Hidx, Hsz, Hin.
  change (table (init_world m) defaultValues) with defaultValues_init in Hsz.
  rewrite size_defaultValues_init in Hsz.
  apply NewGo_Ok in H2. destruct H2 as (-> & ->).
  cbn [values valueIndex]. rewrite Hsz.
  assert (Hu : Int.uint64 (Z.of_nat (8 + length l)) = 8 + Z.of_nat (length l))
    by (rewrite uint64_small; lia).
  rewrite Hu.
  split; [reflexivity|]. split; [exact Hval|]. split; [reflexivity|].
  split; [reflexivity|]. split; [reflexivity|]. split; [exact Hin|]. split.
  - intros addr v g2' w4 Hv Hs.
    pose proof (loadValue_after_store (mkGo now2 defaultValues (8 + Z.of_nat (length l)))
                  g1' addr v w2 g2' w4 Hv) as Hl.
    cbn [values valueIndex] in Hl.
    apply Hl; [lia | exact Hval | rewrite Hsz; lia | exact Hs].
  - intros addr v g1'' w4 Hv Hs.
    pose proof (loadValue_after_store g1' (mkGo now2 defaultValues (8 + Z.of_nat (length l)))
                  addr v w2 g1'' w4 Hv) as Hl.
    rewrite Hidx, Hval in Hl. cbn [values valueIndex] in Hl.
    apply Hl; [lia | reflexivity | rewrite Hsz; lia | exact Hs].
Qed.

(** The run of C10: a first instance encodes three new values, a second
    one is made, and each encodes a function that the other then looks
    up. *)
Lemma NewGo_shares_defaultValues_witness :
  let w1 := init_world (zeros 32) in
  exists g1' w2 g2,
    NewGo 0 w1 = Ok (first_Go, w1) /\
    storeValues first_Go sample_stores w1 = Ok (([8; 9; 10], g1'), w2) /\
    NewGo 7 w2 = Ok (g2, w2) /\
    values g2 = values g1' /\
    size (table w2 (values g2)) = 11%nat /\
    valueIndex g2 = 11 /\
    table w2 (values g2) !! 9 = Some (mkValue 9 (DJsArray [])) /\
    (exists g2' w4,
       storeValue g2 16 (DFunc 1) w2 = Ok (g2', w4) /\
       loadValue g1' 16 w4 = Ok (mkValue 11 (DFunc 1), w4)) /\
    (exists g1'' w4,
       storeValue g1' 16 (DFunc 2) w2 = Ok (g1'', w4) /\
       loadValue g2 16 w4 = Ok (mkValue 11 (DFunc 2), w4)).
Proof.
  intros w1. eexists _, _, _.
  split; [reflexivity|]. split; [vm_compute; reflexivity|].
  split; [vm_compute; reflexivity|].
  match goal with |- values ?g2 = values ?g1' /\ size (table ?w2 _) = _ /\ _ =>
    pose proof (NewGo_shares_defaultValues (zeros 32) 0 7 sample_stores
                  first_Go w1 [8; 9; 10] g1' w2 g2 w2
                  eq_refl ltac:(repeat constructor) ltac:(cbn; lia)
                  ltac:(vm_compute; reflexivity) ltac:(vm_compute; reflexivity))
      as (_ & Hv1 & Hv2 & Hsz & Hidx & Hin & H21 & H12)
  end.
  split; [reflexivity|]. split; [exact Hsz|]. split; [exact Hidx|].
  split; [exact (Hin 1%nat _ eq_refl)|]. split.
  - eexists _, _. split; [vm_compute; reflexivity|].
    eapply (H21 16 (DFunc 1)); [reflexivity | vm_compute; reflexivity].
  - eexists _, _. split; [vm_compute; reflexivity|].
    eapply (H12 16 (DFunc 2)); [reflexivity | vm_compute; reflexivity].
Defined.

(** The other side of the shared table: two instances made before either
    allocates both start at 8, so the second encode takes the handle of
    the first and replaces its value. *)
Example two_instances_take_the_same_handle :
  let w := init_world (zeros 32) in
  exists g1 g2 g1' w1 g2' w2,
    NewGo 0 w = Ok (g1, w) /\ NewGo 7 w = Ok (g2, w) /\
    storeValue g1 0 (DString "one") w = Ok (g1', w1) /\
    table w1 defaultValues !! 8 = Some (mkValue 8 (DString "one")) /\
    storeValue g2 16 (DString "two") w1 = Ok (g2', w2) /\
    word32_at w2 0 = 8 /\ word32_at w2 16 = 8 /\
    table w2 defaultValues !! 8 = Some (mkValue 8 (DString "two")).
Proof.
  intros w. eexists _, _, _, _, _, _.
  split; [reflexivity|]. split; [reflexivity|].
  split; [vm_compute; reflexivity|]. split; [vm_compute; reflexivity|].
  split; [vm_compute; reflexivity|].
  repeat split; vm_compute; reflexivity.
Qed.

End Sharing.

(* ===================================================================== *)
(** * Further properties of the code *)
(* ===================================================================== *)

(** ** Fixed-width accessors *)

Section AccessorProperties.

Implicit Types (g : Go) (w : World) (addr sp : Z).

Lemma int64_uint64 (x : Z) : - 2 ^ 63 <= x < 2 ^ 63 -> Int.int64 (Int.uint64 x) = x.
Proof.
  intros H. unfold Int.int64, Int.uint64.
  destruct (Z_lt_dec x 0) as [Hneg|Hpos].
  - rewrite <- (Z.mod_unique x (2 ^ 64) (-1) (x + 2 ^ 64)) by lia.
    rewrite <- (Z.mod_unique (x + 2 ^ 64 + 2 ^ 63) (2 ^ 64) 1 (x + 2 ^ 63)) by lia. lia.
  - rewrite (Z.mod_small x) by lia. rewrite Z.mod_small by lia. lia.
Qed.

Lemma int32_uint32 (x : Z) : is_int32 x -> Int.int32 (Int.uint32 x) = x.
Proof.
  unfold is_int32. intros H. unfold Int.int32, Int.uint32.
  destruct (Z_lt_dec x 0) as [Hneg|Hpos].
  - rewrite <- (Z.mod_unique x (2 ^ 32) (-1) (x + 2 ^ 32)) by lia.
    rewrite <- (Z.mod_unique (x + 2 ^ 32 + 2 ^ 31) (2 ^ 32) 1 (x + 2 ^ 31)) by lia. lia.
  - rewrite (Z.mod_small x) by lia. rewrite Z.mod_small by lia. lia.
Qed.

Lemma uint64_idemp (x : Z) : Int.uint64 (Int.uint64 x) = Int.uint64 x.
Proof. unfold Int.uint64. apply Z.mod_mod. lia. Qed.

Lemma uint32_idemp (x : Z) : Int.uint32 (Int.uint32 x) = Int.uint32 x.
Proof. unfold Int.uint32. apply Z.mod_mod. lia. Qed.

(** One 64-bit word written at [addr]: it reads back, and every byte
    outside it is untouched. *)
Lemma word64_written w addr x :
  in_bounds8 w addr ->
  let w' := set_memory w (Mem.write (memory w) (Z.to_nat addr) (Bytes.le_encode 8 x)) in
  word64_at w' addr = Int.uint64 x /\
  length (memory w') = length (memory w) /\
  forall i : nat, (i < Z.to_nat addr \/ Z.to_nat addr + 8 <= i)%nat ->
    memory w' !! i = memory w !! i.
Proof.
  intros [H0 H1] w'. unfold w', word64_at. cbn [memory set_memory].
  split; [|split].
  - rewrite read_write_same by (rewrite ?length_le_encode; lia).
    rewrite le_decode_encode. reflexivity.
  - apply length_write. rewrite length_le_encode. lia.
  - intros i Hi. rewrite lookup_write by (rewrite length_le_encode; lia).
    rewrite length_le_encode. destruct (decide _); [lia | reflexivity].
Qed.

(** Writing a signed 64-bit integer and reading it back, signed or
    unsigned; no byte outside the eight is touched. *)
Theorem setInt64_getInt64 addr x w :
  in_bounds8 w addr ->
  - 2 ^ 63 <= x < 2 ^ 63 ->
  exists w',
    setInt64 addr x w = Ok (tt, w') /\
    getInt64 addr w' = Ok (x, w') /\
    getUInt64 addr w' = Ok (Int.uint64 x, w') /\
    length (memory w') = length (memory w) /\
    heap w' = heap w /\
    forall i : nat, (i < Z.to_nat addr \/ Z.to_nat addr + 8 <= i)%nat ->
      memory w' !! i = memory w !! i.
Proof.
  intros Hb Hx.
  exists (set_memory w (Mem.write (memory w) (Z.to_nat addr)
                          (Bytes.le_encode 8 (Int.uint64 x)))).
  destruct (word64_written w addr (Int.uint64 x) Hb) as (W & L & F).
  rewrite uint64_idemp in W.
  assert (Hb' : in_bounds8 (set_memory w (Mem.write (memory w) (Z.to_nat addr)
                              (Bytes.le_encode 8 (Int.uint64 x)))) addr).
  { destruct Hb as [H0 H1]. split; [exact H0|]. rewrite L. exact H1. }
  split; [apply setUInt64_Ok; auto|].
  split; [apply getInt64_Ok; rewrite W, int64_uint64 by exact Hx; auto|].
  split; [apply getUInt64_Ok; rewrite W; auto|].
  split; [exact L|]. split; [reflexivity | exact F].
Qed.

Lemma setInt64_getInt64_witness :
  exists w',
    setInt64 8 (-5) (init_world (ones 16)) = Ok (tt, w') /\
    getInt64 8 w' = Ok (-5, w') /\
    getUInt64 8 w' = Ok (2 ^ 64 - 5, w') /\
    memory w' !! 7%nat = Some xff.
Proof.
  destruct (setInt64_getInt64 8 (-5) (init_world (ones 16))
              ltac:(vm_compute; split; congruence) ltac:(lia))
    as (w' & Hs & Hg & Hu & _ & _ & F).
  exists w'. split; [exact Hs|]. split; [exact Hg|]. split; [exact Hu|].
  rewrite F by (left; vm_compute; lia). reflexivity.
Defined.

(** Writing a signed 32-bit integer and reading it back, signed or
    unsigned: although the accessor asks for eight bytes it touches four,
    and the word after it keeps its content. *)
Theorem setInt32_getInt32 addr x w :
  in_bounds8 w addr ->
  is_int32 x ->
  exists w',
    setInt32 addr x w = Ok (tt, w') /\
    getInt32 addr w' = Ok (x, w') /\
    getUInt32 addr w' = Ok (Int.uint32 x, w') /\
    word32_at w' (addr + 4) = word32_at w (addr + 4) /\
    length (memory w') = length (memory w) /\
    heap w' = heap w.
Proof.
  intros Hb Hx.
  exists (set_memory w (Mem.write (memory w) (Z.to_nat addr)
                          (Bytes.le_encode 4 (Int.uint32 x)))).
  destruct (word_written w addr (Int.uint32 x) Hb) as (P & T & _).
  rewrite uint32_idemp in P.
  assert (L : length (Mem.write (memory w) (Z.to_nat addr)
                        (Bytes.le_encode 4 (Int.uint32 x))) = length (memory w)).
  { destruct Hb. apply length_write. rewrite length_le_encode. lia. }
  assert (Hb' : in_bounds8 (set_memory w (Mem.write (memory w) (Z.to_nat addr)
                              (Bytes.le_encode 4 (Int.uint32 x)))) addr).
  { destruct Hb as [H0 H1]. split; [exact H0|]. cbn [memory set_memory]. rewrite L. exact H1. }
  split; [apply setUInt32_Ok; auto|].
  split.
  { unfold getInt32. apply bind_Ok. eexists _, _.
    split; [apply getUInt32_Ok; eauto|]. rewrite P, int32_uint32 by exact Hx. reflexivity. }
  split; [apply getUInt32_Ok; rewrite P; auto|].
  split; [exact T|]. split; [exact L | reflexivity].
Qed.

Lemma setInt32_getInt32_witness :
  exists w',
    setInt32 0 (-2) (init_world (ones 16)) = Ok (tt, w') /\
    getInt32 0 w' = Ok (-2, w') /\
    getUInt32 0 w' = Ok (2 ^ 32 - 2, w') /\
    word32_at w' 4 = 2 ^ 32 - 1.
Proof.
  destruct (setInt32_getInt32 0 (-2) (init_world (ones 16))
              ltac:(vm_compute; split; congruence) ltac:(unfold is_int32; lia))
    as (w' & Hs & Hg & Hu & T & _).
  exists w'. split; [exact Hs|]. split; [exact Hg|]. split; [exact Hu|].
  transitivity (word32_at (init_world (ones 16)) (0 + 4)); [exact T | reflexivity].
Defined.

(** Every accessor asks [BufferAt] for eight bytes: when the eight bytes
    from [addr] on are not all inside memory, each of them panics, the
    one-byte and four-byte ones included. *)
Theorem accessors_need_eight_bytes addr x w :
  ~ in_bounds8 w addr ->
  (exists e, setUInt8 addr x w = Panic e) /\
  (exists e, setUInt32 addr x w = Panic e) /\
  (exists e, setUInt64 addr x w = Panic e) /\
  (exists e, getUInt32 addr w = Panic e) /\
  (exists e, getUInt64 addr w = Panic e).
Proof.
  intros Hout.
  assert (Hp : buffer8 addr w = Panic "out of bounds memory access").
  { unfold buffer8. destruct (Mem.BufferAt (memory w) addr 8) as [off|] eqn:E; [|reflexivity].
    apply BufferAt_Some in E. exfalso. apply Hout. unfold in_bounds8. lia. }
  repeat split; eexists; apply (bind_Panic _ _ _ _ Hp).
Qed.

Lemma accessors_need_eight_bytes_witness :
  let w := init_world (zeros 10) in
  byte_at w 4 = Some x00 /\
  (exists e, setUInt8 4 1 w = Panic e) /\
  (exists e, getUInt32 4 w = Panic e) /\
  (exists w', setUInt8 2 1 w = Ok (tt, w')).
Proof.
  intros w. split; [reflexivity|].
  destruct (accessors_need_eight_bytes 4 1 w ltac:(vm_compute; intros [_ H]; apply H; reflexivity))
    as (H8 & _ & _ & H32 & _).
  split; [exact H8|]. split; [exact H32|].
  eexists. vm_compute. reflexivity.
Defined.

End AccessorProperties.

(** ** The float accessors *)

Section FloatAccessors.

Implicit Types (g : Go) (w : World) (addr sp : Z).

(** The three fields of a bit pattern put together from an exponent field
    and a fraction. *)
Lemma float64_fields (a f : Z) :
  0 <= a < 2048 -> 0 <= f < 2 ^ 52 ->
  Float64.sign (Z.shiftl a 52 + f) = 0 /\
  Float64.expo (Z.shiftl a 52 + f) = a /\
  Float64.frac (Z.shiftl a 52 + f) = f.
Proof.
  intros Ha Hf. unfold Float64.sign, Float64.expo, Float64.frac.
  rewrite Z.shiftl_mul_pow2 by lia. rewrite !Z.shiftr_div_pow2 by lia.
  assert (E52 : (a * 2 ^ 52 + f) / 2 ^ 52 = a).
  { symmetry. apply (Z.div_unique _ _ a f); lia. }
  split; [|split].
  - apply Z.div_small. lia.
  - rewrite E52. change 2047 with (Z.ones 11). rewrite Z.land_ones by lia.
    apply Z.mod_small. lia.
  - change (2 ^ 52 - 1) with (Z.ones 52). rewrite Z.land_ones by lia.
    symmetry. apply (Z.mod_unique _ _ a f); lia.
Qed.

(** An integer below [2^53] converted to a double and back. *)
Lemma to_uint64_of_uint64 (u : Z) :
  0 <= u < 2 ^ 53 ->
  Float64.finite (Float64.of_uint64 u) = true /\
  Float64.to_uint64 (Float64.of_uint64 u) = u.
Proof.
  intros Hu. destruct (Z.eq_dec u 0) as [->|Hne]; [split; reflexivity|].
  assert (Hpos : 0 < u) by lia.
  pose proof (Z.log2_spec u Hpos) as [Hlo Hhi].
  pose proof (Z.log2_nonneg u) as He0.
  set (e := Z.log2 u) in *.
  assert (He : e <= 52).
  { destruct (Z_le_dec e 52) as [H|H]; [exact H|].
    assert (2 ^ 53 <= 2 ^ e) by (apply Z.pow_le_mono_r; lia). lia. }
  assert (Hof : Float64.of_uint64 u =
                Z.shiftl (e + 1023) 52 + (Z.shiftl u (52 - e) - 2 ^ 52)).
  { unfold Float64.of_uint64. fold e.
    destruct (Z.leb_spec u 0); [lia|]. destruct (Z.leb_spec e 52); [reflexivity | lia]. }
  assert (Hm : Z.shiftl u (52 - e) = u * 2 ^ (52 - e)) by (apply Z.shiftl_mul_pow2; lia).
  assert (Hsplit : 2 ^ 52 = 2 ^ e * 2 ^ (52 - e)).
  { rewrite <- Z.pow_add_r by lia. f_equal. lia. }
  assert (Hp : 0 < 2 ^ (52 - e)) by (apply Z.pow_pos_nonneg; lia).
  assert (Hsucc : 2 ^ Z.succ e = 2 * 2 ^ e) by (apply Z.pow_succ_r; lia).
  assert (Hrange : 0 <= Z.shiftl u (52 - e) - 2 ^ 52 < 2 ^ 52).
  { rewrite Hm, Hsplit. nia. }
  destruct (float64_fields (e + 1023) (Z.shiftl u (52 - e) - 2 ^ 52)
              ltac:(lia) Hrange) as (Hs & Hx & Hf).
  rewrite <- Hof in Hs, Hx, Hf.
  assert (Hfin : Float64.finite (Float64.of_uint64 u) = true).
  { unfold Float64.finite. rewrite Hx. destruct (Z.eqb_spec (e + 1023) 2047); [lia | reflexivity]. }
  split; [exact Hfin|].
  assert (Ht : Float64.trunc (Float64.of_uint64 u) = u).
  { unfold Float64.trunc. rewrite Hs, Hx, Hf.
    destruct (Z.eqb_spec (e + 1023) 0); [lia|]. cbn [Z.eqb].
    replace (Z.shiftl u (52 - e) - 2 ^ 52 + 2 ^ 52) with (Z.shiftl u (52 - e)) by lia.
    destruct (Z.leb_spec 0 (e + 1023 - 1075)) as [Hge|Hlt].
    - assert (e = 52) by lia. subst e.
      replace (Z.log2 u + 1023 - 1075) with 0 by lia.
      replace (52 - Z.log2 u) with 0 by lia. now rewrite !Z.shiftl_0_r.
    - rewrite Z.shiftr_div_pow2 by lia. rewrite Hm.
      replace (- (e + 1023 - 1075)) with (52 - e) by lia.
      apply Z.div_mul. lia. }
  unfold Float64.to_uint64. rewrite Hfin. cbv zeta. rewrite Ht.
  destruct (Z.leb_spec (- 2 ^ 63) u); [|lia].
  destruct (Z.ltb_spec u (2 ^ 64)); [|lia].
  cbn [andb]. apply uint64_small. lia.
Qed.

(** The float accessors convert between the number and an integer; they do
    not copy bits.  A double whose value is an integer [n] below [2^53] is
    stored as the integer [n] and read back as the same double. *)
Theorem setFloat64_getFloat64_integers addr n w :
  in_bounds8 w addr ->
  0 <= n < 2 ^ 53 ->
  exists w',
    setFloat64 addr (Float64.of_uint64 n) w = Ok (tt, w') /\
    word64_at w' addr = n /\
    getFloat64 addr w' = Ok (Float64.of_uint64 n, w').
Proof.
  intros Hb Hn. destruct (to_uint64_of_uint64 n Hn) as (_ & Hto).
  exists (set_memory w (Mem.write (memory w) (Z.to_nat addr)
                          (Bytes.le_encode 8 (Float64.to_uint64 (Float64.of_uint64 n))))).
  destruct (word64_written w addr (Float64.to_uint64 (Float64.of_uint64 n)) Hb)
    as (W & L & _).
  rewrite Hto in W. rewrite uint64_small in W by lia.
  split; [apply setUInt64_Ok; auto|]. split; [rewrite <- Hto at 2; rewrite Hto; exact W|].
  unfold getFloat64. apply bind_Ok. eexists _, _. split.
  - apply getUInt64_Ok. split; [|split; reflexivity].
    destruct Hb as [H0 H1]. split; [exact H0|]. rewrite L. exact H1.
  - rewrite Hto in *. rewrite W. reflexivity.
Qed.

Lemma setFloat64_getFloat64_integers_witness :
  exists w',
    setFloat64 0 0x4008000000000000 (init_world (zeros 8)) = Ok (tt, w') /\
    word64_at w' 0 = 3 /\
    getFloat64 0 w' = Ok (0x4008000000000000, w').
Proof.
  exact (setFloat64_getFloat64_integers 0 3 (init_world (zeros 8))
           ltac:(vm_compute; split; congruence) ltac:(lia)).
Defined.

(** A double with a fraction does not survive: 1.5 is stored as the integer
    1 and read back as 1.0. *)
Example setFloat64_getFloat64_1_5 :
  exists w',
    setFloat64 0 float64_1_5 (init_world (zeros 8)) = Ok (tt, w') /\
    getFloat64 0 w' = Ok (float64_1_0, w').
Proof. eexists. split; [vm_compute; reflexivity | vm_compute; reflexivity]. Qed.

End FloatAccessors.

(** ** What an encode touches *)

Section Frames.

Implicit Types (g : Go) (w : World) (addr sp : Z) (v : datum) (m : list byte).

Lemma same_outside_refl m off n : same_outside m m off n.
Proof. split; auto. Qed.

Lemma same_outside_trans m1 m2 m3 off n :
  same_outside m1 m2 off n -> same_outside m2 m3 off n -> same_outside m1 m3 off n.
Proof.
  intros [L1 F1] [L2 F2]. split; [congruence|].
  intros i Hi. rewrite F2, F1 by exact Hi. reflexivity.
Qed.

(** A write inside the span leaves the outside alone. *)
Lemma same_outside_write m off n o bs :
  (o + length bs <= length m)%nat ->
  (off <= o)%nat -> (o + length bs <= off + n)%nat ->
  same_outside m (Mem.write m o bs) off n.
Proof.
  intros Hb Hlo Hhi. split; [now apply length_write|].
  intros i Hi. rewrite lookup_write by exact Hb.
  destruct (decide _); [lia | reflexivity].
Qed.

Lemma same_outside_slot_written w addr tag payload :
  is_int32 addr -> in_bounds8 w (Int.add32 addr 4) -> in_bounds8 w addr ->
  same_outside (memory w) (memory (slot_written w addr tag payload)) (Z.to_nat addr) 8.
Proof.
  intros Hi Ha Hb.
  assert (E : Int.add32 addr 4 = addr + 4).
  { destruct Hb. eapply add32_in_bounds; eauto. lia. }
  unfold slot_written. cbn [memory set_memory]. rewrite E.
  destruct Ha as [Ha1 Ha2], Hb as [Hb1 Hb2]. rewrite E in Ha1, Ha2.
  eapply same_outside_trans.
  - apply (same_outside_write _ _ _ (Z.to_nat (addr + 4)) (Bytes.le_encode 4 tag));
      rewrite ?length_le_encode; lia.
  - apply same_outside_write; rewrite ?length_le_encode;
      rewrite ?length_write by (rewrite length_le_encode; lia); lia.
Qed.

(** Whatever the value, an encode that returns has changed no byte of guest
    memory outside the eight bytes of its slot, nor the size of memory, nor
    the termination flag. *)
Theorem storeValue_touches_only_its_slot g addr v w g' w' :
  is_int32 addr ->
  storeValue g addr v w = Ok (g', w') ->
  same_outside (memory w) (memory w') (Z.to_nat addr) 8 /\
  terminated w' = terminated w.
Proof.
  intros Hi H. destruct (is_new v) eqn:Hn.
  - apply (storeValue_new_Ok g addr v w g' w' Hn) in H.
    destruct H as (Hs & Ha & Hb & -> & ->). split; [|reflexivity].
    apply (same_outside_slot_written (allocated g w v)); auto.
  - assert (Hstay : forall tag payload,
      (setUInt32 (Int.add32 addr 4) tag ;;; setUInt32 addr payload ;;; ret g) w = Ok (g', w') ->
      same_outside (memory w) (memory w') (Z.to_nat addr) 8 /\ terminated w' = terminated w).
    { intros tag payload Hk. apply two_words_then in Hk. destruct Hk as (Ha & Hb & Hk).
      ret_inv Hk. split; [now apply same_outside_slot_written | reflexivity]. }
    assert (Hone : forall payload,
      (setInt32 addr payload ;;; ret g) w = Ok (g', w') ->
      same_outside (memory w) (memory w') (Z.to_nat addr) 8 /\ terminated w' = terminated w).
    { intros payload Hk. bind_inv Hk. ret_inv Hk.
      apply setUInt32_Ok in Hstep. destruct Hstep as ([Hb1 Hb2] & ->).
      cbn [memory set_memory terminated]. split; [|reflexivity].
      apply same_outside_write; rewrite ?length_le_encode; lia. }
    assert (Htail : forall w1 r,
      same_outside (memory w) (memory w1) (Z.to_nat addr) 8 ->
      terminated w1 = terminated w ->
      storeValue_tail g addr v r w1 = Ok (g', w') ->
      same_outside (memory w) (memory w') (Z.to_nat addr) 8 /\ terminated w' = terminated w).
    { intros w1 r S T Hk. apply storeValue_tail_Ok in Hk.
      destruct Hk as (t & Ht & -> & Ha & Hb & ->). split; [|exact T].
      eapply same_outside_trans; [exact S|]. now apply same_outside_slot_written. }
    destruct v as [| |b| | |d| | | | | |r d]; cbn [is_new] in Hn; try discriminate;
      unfold storeValue in H.
    + eapply Hstay; eauto.
    + destruct b; eapply Hstay; eauto.
    + destruct (Float64.IsNaN d); [eapply Hstay; eauto|].
      bind_inv H. apply setUInt64_Ok in Hstep. destruct Hstep as ([Hb1 Hb2] & ->).
      eapply Htail; [| |exact H]; cbn [memory set_memory terminated]; [|reflexivity].
      apply same_outside_write; rewrite ?length_le_encode; lia.
    + bind_inv H. apply map_index_Ok in Hstep. destruct Hstep as (-> & ->).
      destruct (Value_eq _ _) as [[|]|]; [eapply Hone; eauto| |discriminate].
      bind_inv H. apply map_index_Ok in Hstep. destruct Hstep as (-> & ->).
      destruct (Value_eq _ _) as [[|]|]; [eapply Hone; eauto| |discriminate].
      eapply Htail; [| |exact H]; [apply same_outside_refl | reflexivity].
Qed.

Lemma storeValue_touches_only_its_slot_witness :
  exists g' w',
    storeValue first_Go 8 (DString "hi") (init_world (ones 24)) = Ok (g', w') /\
    length (memory w') = 24%nat /\
    memory w' !! 7%nat = Some xff /\ memory w' !! 16%nat = Some xff /\
    word32_at w' 8 = 8.
Proof.
  eexists _, _. split; [vm_compute; reflexivity|].
  match goal with |- length (memory ?w') = _ /\ _ =>
    pose proof (storeValue_touches_only_its_slot first_Go 8 (DString "hi")
                  (init_world (ones 24)) _ w'
                  ltac:(unfold is_int32; lia) ltac:(vm_compute; reflexivity))
      as ((L & F) & _)
  end.
  split; [exact L|].
  split; [exact (F 7%nat ltac:(left; vm_compute; lia))|].
  split; [exact (F 16%nat ltac:(right; vm_compute; lia))|].
  vm_compute; reflexivity.
Defined.

End Frames.

(** ** Encode, then decode *)

Section RoundTrips.

Implicit Types (g : Go) (w : World) (addr sp : Z) (v : datum).

(** The two writes of a returning case, when the slot is in bounds. *)
Lemma two_words_run g addr tag payload w :
  is_int32 addr -> in_bounds8 w addr -> in_bounds8 w (Int.add32 addr 4) ->
  let w' := slot_written w addr tag payload in
  (setUInt32 (Int.add32 addr 4) tag ;;; setUInt32 addr payload ;;; ret g) w = Ok (g, w') /\
  in_bounds8 w' addr /\
  word32_at w' addr = Int.uint32 payload /\
  word32_at w' (addr + 4) = Int.uint32 tag /\
  heap w' = heap w.
Proof.
  intros Hi Hb Ha w'.
  destruct (slot_written_words w addr tag payload Hi Ha Hb) as (_ & L & P & T & Hh & _).
  split; [apply two_words_then; auto|].
  split; [destruct Hb as [Hb1 Hb2]; split; [exact Hb1|]; unfold w'; rewrite L; exact Hb2|].
  auto.
Qed.

(** A value that [storeValue] encodes by a reserved handle (nil, a
    boolean, a NaN): nothing is allocated, the slot holds that handle under
    the bare tag word, and decoding the slot gives the reserved entry, whose
    datum is the value itself for nil and the booleans. *)
Theorem storeValue_loadValue_reserved g addr v h w :
  reserved_handle_of v = Some h ->
  reserved_bound g w ->
  is_int32 addr -> in_bounds8 w addr -> in_bounds8 w (Int.add32 addr 4) ->
  exists w' x,
    storeValue g addr v w = Ok (g, w') /\
    heap w' = heap w /\
    word32_at w' addr = h /\ word32_at w' (addr + 4) = nanHead /\
    loadValue g addr w' = Ok (x, w') /\
    Value_ref x = h /\
    match v with DFloat64 _ => Value_v x = nan | _ => Value_v x = v end.
Proof.
  intros Hv Hr Hi H0 Hlen.
  assert (Hcase : forall payload, payload = h -> 0 <= h < 8 ->
    storeValue g addr v w =
      (setUInt32 (Int.add32 addr 4) nanHead ;;; setUInt32 addr payload ;;; ret g) w ->
    exists w', storeValue g addr v w = Ok (g, w') /\ heap w' = heap w /\
      word32_at w' addr = h /\ word32_at w' (addr + 4) = nanHead /\
      loadValue g addr w' = Ok (default zeroValue (defaultValues_init !! h), w')).
  { intros payload -> Hh Hst.
    destruct (two_words_run g addr nanHead h w Hi H0 Hlen) as (Hrun & Hb & P & T & Hh').
    rewrite uint32_small in P by lia.
    exists (slot_written w addr nanHead h). rewrite Hst.
    split; [exact Hrun|]. split; [exact Hh'|]. split; [exact P|]. split; [exact T|].
    assert (Hr' : reserved_bound g (slot_written w addr nanHead h)).
    { intros k Hk. rewrite (table_heap w) by exact Hh'. now apply Hr. }
    pose proof (reserved_bound_size _ _ Hr') as Hs.
    rewrite loadValue_up_to_size by (auto; lia).
    rewrite P, Hr' by lia. reflexivity. }
  destruct v as [| |[|]| | |d| | | | | |]; cbn [reserved_handle_of] in Hv; try discriminate.
  - injection Hv as <-.
    destruct (Hcase jsValueNull eq_refl ltac:(cbv; split; congruence) eq_refl)
      as (w' & Hs & Hh & P & T & Hl).
    exists w', (mkValue jsValueNull DNil). auto 10.
  - injection Hv as <-.
    destruct (Hcase jsValueTrue eq_refl ltac:(cbv; split; congruence) eq_refl)
      as (w' & Hs & Hh & P & T & Hl).
    exists w', (mkValue jsValueTrue (DBool true)). auto 10.
  - injection Hv as <-.
    destruct (Hcase jsValueFalse eq_refl ltac:(cbv; split; congruence) eq_refl)
      as (w' & Hs & Hh & P & T & Hl).
    exists w', (mkValue jsValueFalse (DBool false)). auto 10.
  - destruct (Float64.IsNaN d) eqn:Hnan; [|discriminate]. injection Hv as <-.
    destruct (Hcase 0 eq_refl ltac:(cbv; split; congruence)) as (w' & Hs & Hh & P & T & Hl).
    { unfold storeValue. now rewrite Hnan. }
    exists w', (mkValue jsValueNaN nan). auto 10.
Qed.

Lemma storeValue_loadValue_reserved_witness :
  exists w',
    storeValue first_Go 0 (DBool false) (init_world (ones 16)) = Ok (first_Go, w') /\
    word32_at w' 0 = 4 /\
    loadValue first_Go 0 w' = Ok (mkValue jsValueFalse (DBool false), w').
Proof.
  destruct (storeValue_loadValue_reserved first_Go 0 (DBool false) jsValueFalse
              (init_world (ones 16)) eq_refl (init_world_reserved_bound _ _)
              ltac:(unfold is_int32; lia) ltac:(vm_compute; split; congruence)
              ltac:(vm_compute; split; congruence))
    as (w' & x & Hs & _ & P & _ & Hl & Hx & Hv).
  exists w'. split; [exact Hs|]. split; [exact P|].
  destruct x as [r d]. cbn in Hx, Hv. subst. exact Hl.
Defined.

(** The shorthand for the two sentinels does not decode to them: encoding
    the undefined sentinel writes payload 0, which decodes to the entry of
    handle 0 (the NaN marker), and encoding the null sentinel writes
    payload 1, which decodes to the undefined sentinel. *)
Theorem storeValue_loadValue_sentinels g addr w :
  reserved_bound g w ->
  in_bounds8 w addr ->
  exists w0 w1,
    storeValue g addr (DValue jsValueUndefined undefined) w = Ok (g, w0) /\
    word32_at w0 addr = 0 /\
    loadValue g addr w0 = Ok (mkValue jsValueNaN nan, w0) /\
    storeValue g addr (DValue jsValueNull DNil) w = Ok (g, w1) /\
    word32_at w1 addr = 1 /\
    loadValue g addr w1 = Ok (mkValue jsValueUndefined undefined, w1).
Proof.
  intros Hr Hb.
  assert (Hu : default zeroValue (table w (values g) !! jsValueUndefined)
               = mkValue jsValueUndefined undefined)
    by (rewrite Hr by (cbv; split; congruence); reflexivity).
  assert (Hn : default zeroValue (table w (values g) !! jsValueNull)
               = mkValue jsValueNull DNil)
    by (rewrite Hr by (cbv; split; congruence); reflexivity).
  assert (Hone : forall p, 0 <= p < 8 ->
    let w' := set_memory w (Mem.write (memory w) (Z.to_nat addr)
                              (Bytes.le_encode 4 (Int.uint32 p))) in
    (setInt32 addr p ;;; ret g) w = Ok (g, w') /\
    word32_at w' addr = p /\
    loadValue g addr w' = Ok (default zeroValue (defaultValues_init !! p), w')).
  { intros p Hp w'.
    destruct (word_written w addr (Int.uint32 p) Hb) as (P & _ & Hh). fold w' in P, Hh.
    rewrite uint32_idemp, uint32_small in P by lia.
    assert (L : length (memory w') = length (memory w)).
    { destruct Hb. unfold w'. cbn [memory set_memory]. apply length_write.
      rewrite length_le_encode. lia. }
    split.
    { apply bind_Ok. eexists tt, w'. split; [apply setUInt32_Ok; auto | reflexivity]. }
    split; [exact P|].
    assert (Hr' : reserved_bound g w').
    { intros k Hk. rewrite (table_heap w) by exact Hh. now apply Hr. }
    pose proof (reserved_bound_size _ _ Hr') as Hs.
    assert (Hb' : in_bounds8 w' addr) by (destruct Hb; split; [|rewrite L]; auto).
    rewrite loadValue_up_to_size by (auto; lia).
    rewrite P, Hr' by lia. reflexivity. }
  destruct (Hone 0 ltac:(lia)) as (S0 & P0 & L0).
  destruct (Hone 1 ltac:(lia)) as (S1 & P1 & L1).
  eexists _, _. split; [|split; [exact P0|split; [exact L0|split; [|split; [exact P1|exact L1]]]]].
  - unfold storeValue. apply bind_Ok. eexists _, w. split; [apply map_index_Ok; eauto|].
    rewrite Hu. exact S0.
  - unfold storeValue. apply bind_Ok. eexists _, w. split; [apply map_index_Ok; eauto|].
    rewrite Hu. cbn [Value_eq Value_ref Z.eqb jsValueNull jsValueUndefined Pos.eqb].
    apply bind_Ok. eexists _, w. split; [apply map_index_Ok; eauto|].
    rewrite Hn. exact S1.
Qed.

Lemma storeValue_loadValue_sentinels_witness :
  exists w0 w1,
    storeValue first_Go 0 (DValue jsValueUndefined undefined) (init_world (ones 8))
      = Ok (first_Go, w0) /\
    loadValue first_Go 0 w0 = Ok (mkValue jsValueNaN nan, w0) /\
    storeValue first_Go 0 (DValue jsValueNull DNil) (init_world (ones 8))
      = Ok (first_Go, w1) /\
    loadValue first_Go 0 w1 = Ok (mkValue jsValueUndefined undefined, w1).
Proof.
  destruct (storeValue_loadValue_sentinels first_Go 0 (init_world (ones 8))
              (init_world_reserved_bound _ _) ltac:(vm_compute; split; congruence))
    as (w0 & w1 & S0 & _ & L0 & S1 & _ & L1).
  exists w0, w1. auto.
Defined.

(** A value of the new-value path, encoded and decoded through the same
    slot: the decode gives the value under the handle just taken, provided
    the handle fits the 32-bit payload word and the table has at least as
    many entries as the counter says. *)
Theorem storeValue_loadValue_new g addr v w :
  is_new v = true ->
  is_Some (heap w !! values g) ->
  is_int32 addr -> in_bounds8 w addr -> in_bounds8 w (Int.add32 addr 4) ->
  0 <= valueIndex g < 2 ^ 32 ->
  valueIndex g <= Z.of_nat (size (table w (values g))) ->
  exists w',
    storeValue g addr v w = Ok (next_Go g, w') /\
    word32_at w' addr = valueIndex g /\
    word32_at w' (addr + 4) = Z.lor nanHead (own_typeFlag v) /\
    loadValue (next_Go g) addr w' = Ok (mkValue (valueIndex g) v, w').
Proof.
  intros Hn Hs Hi Hb Ha Hr Hsz.
  set (w' := slot_written (allocated g w v) addr
               (Z.lor nanHead (own_typeFlag v)) (Int.uint32 (valueIndex g))).
  assert (Hst : storeValue g addr v w = Ok (next_Go g, w'))
    by (apply storeValue_new_Ok; auto).
  exists w'. split; [exact Hst|].
  destruct (slot_written_words (allocated g w v) addr
              (Z.lor nanHead (own_typeFlag v)) (Int.uint32 (valueIndex g)) Hi Ha Hb)
    as (_ & _ & P & T & _).
  fold w' in P, T. rewrite uint32_idemp, uint32_small in P by lia.
  rewrite uint32_tag in T.
  split; [exact P|]. split; [exact T|].
  eapply loadValue_after_store; eauto.
Qed.

Lemma storeValue_loadValue_new_witness :
  exists w',
    storeValue first_Go 0 (DString "hi") (init_world (zeros 16)) = Ok (next_Go first_Go, w') /\
    word32_at w' 0 = 8 /\
    word32_at w' 4 = Z.lor nanHead typeFlagString /\
    loadValue (next_Go first_Go) 0 w' = Ok (mkValue 8 (DString "hi"), w').
Proof.
  exact (storeValue_loadValue_new first_Go 0 (DString "hi") (init_world (zeros 16))
           eq_refl ltac:(eexists; reflexivity) ltac:(unfold is_int32; lia)
           ltac:(vm_compute; split; congruence) ltac:(vm_compute; split; congruence)
           ltac:(cbn; lia) ltac:(vm_compute; congruence)).
Defined.

(** The payload word has 32 bits and the counter 64: a handle of [2^32] or
    more is written modulo [2^32], so the slot of a new value then decodes
    to whatever the table holds under the low 32 bits of its handle. *)
Theorem storeValue_truncates_the_handle g addr v w g' w' :
  is_new v = true ->
  storeValue g addr v w = Ok (g', w') ->
  table w' (values g) !! valueIndex g = Some (mkValue (valueIndex g) v) /\
  word32_at w' addr = valueIndex g mod 2 ^ 32 /\
  (valueIndex g mod 2 ^ 32 <= Z.of_nat (size (table w' (values g))) ->
   loadValue g' addr w' =
     Ok (default zeroValue (table w' (values g) !! (valueIndex g mod 2 ^ 32)), w')).
Proof.
  intros Hn H.
  destruct (storeValue_new_table g addr v w g' w' Hn H) as (-> & Ht & P & Hb).
  split; [rewrite Ht; apply lookup_insert_eq|]. split; [exact P|].
  intros Hsz. rewrite loadValue_up_to_size; cbn [values next_Go set_valueIndex];
    rewrite ?P; auto.
Qed.

Lemma storeValue_truncates_the_handle_witness :
  let g := mkGo 0 defaultValues (2 ^ 32 + 5) in
  exists g' w',
    storeValue g 0 (DString "hi") (init_world (zeros 16)) = Ok (g', w') /\
    table w' defaultValues !! (2 ^ 32 + 5) = Some (mkValue (2 ^ 32 + 5) (DString "hi")) /\
    word32_at w' 0 = 5 /\
    loadValue g' 0 w' = Ok (mkValue jsValueGlobal jsGlobal, w').
Proof.
  intros g. eexists _, _. split; [vm_compute; reflexivity|].
  match goal with |- table ?w' _ !! _ = _ /\ _ =>
    pose proof (storeValue_truncates_the_handle g 0 (DString "hi") (init_world (zeros 16))
                  _ w' eq_refl ltac:(vm_compute; reflexivity)) as (Ht & P & Hl)
  end.
  split; [exact Ht|]. split; [exact P|].
  apply Hl. vm_compute. congruence.
Defined.

(** An existing [Value] of the table, other than the two sentinels of the
    shorthand, encoded and decoded through the same slot: nothing is
    allocated and the decode gives that [Value] back. *)
Theorem storeValue_loadValue_existing g addr r d w :
  reserved_bound g w ->
  table w (values g) !! r = Some (mkValue r d) ->
  r <> jsValueUndefined -> r <> jsValueNull ->
  0 <= r < 2 ^ 32 ->
  r <= Z.of_nat (size (table w (values g))) ->
  is_int32 addr -> in_bounds8 w addr -> in_bounds8 w (Int.add32 addr 4) ->
  exists w',
    storeValue g addr (DValue r d) w = Ok (g, w') /\
    heap w' = heap w /\
    word32_at w' addr = r /\ word32_at w' (addr + 4) = nanHead /\
    loadValue g addr w' = Ok (mkValue r d, w').
Proof.
  intros Hr Ht Hu Hn Hr32 Hsz Hi Hb Ha.
  assert (Eu : default zeroValue (table w (values g) !! jsValueUndefined)
               = mkValue jsValueUndefined undefined)
    by (rewrite Hr by (cbv; split; congruence); reflexivity).
  assert (En : default zeroValue (table w (values g) !! jsValueNull)
               = mkValue jsValueNull DNil)
    by (rewrite Hr by (cbv; split; congruence); reflexivity).
  assert (Vu : Value_eq (mkValue r d) (mkValue jsValueUndefined undefined) = Some false).
  { unfold Value_eq. cbn [Value_ref]. destruct (Z.eqb_spec r jsValueUndefined); congruence. }
  assert (Vn : Value_eq (mkValue r d) (mkValue jsValueNull DNil) = Some false).
  { unfold Value_eq. cbn [Value_ref]. destruct (Z.eqb_spec r jsValueNull); congruence. }
  set (w' := slot_written w addr (Z.lor nanHead (typeFlag_of (Kind_of TValue))) (Int.uint32 r)).
  assert (Hst : storeValue g addr (DValue r d) w = Ok (g, w')).
  { unfold storeValue. apply bind_Ok. eexists _, w. split; [apply map_index_Ok; eauto|].
    rewrite Eu, Vu. apply bind_Ok. eexists _, w. split; [apply map_index_Ok; eauto|].
    rewrite En, Vn. apply storeValue_tail_Ok. exists TValue. auto. }
  destruct (slot_written_words w addr (Z.lor nanHead (typeFlag_of (Kind_of TValue)))
              (Int.uint32 r) Hi Ha Hb) as (_ & L & P & T & Hh & _).
  fold w' in L, P, T, Hh. rewrite uint32_idemp, uint32_small in P by lia.
  exists w'. split; [exact Hst|]. split; [exact Hh|]. split; [exact P|]. split; [exact T|].
  assert (Hb' : in_bounds8 w' addr) by (destruct Hb; split; [|rewrite L]; auto).
  rewrite loadValue_up_to_size; rewrite ?(table_heap w w') by exact Hh; rewrite ?P; auto.
  now rewrite Ht.
Qed.

Lemma storeValue_loadValue_existing_witness :
  exists w',
    storeValue first_Go 0 (DValue jsValueGlobal jsGlobal) (init_world (zeros 16))
      = Ok (first_Go, w') /\
    heap w' = heap (init_world (zeros 16)) /\
    word32_at w' 0 = 5 /\
    loadValue first_Go 0 w' = Ok (mkValue jsValueGlobal jsGlobal, w').
Proof.
  destruct (storeValue_loadValue_existing first_Go 0 jsValueGlobal jsGlobal
              (init_world (zeros 16)) (init_world_reserved_bound _ _) eq_refl
              ltac:(discriminate) ltac:(discriminate) ltac:(cbv; split; congruence)
              ltac:(vm_compute; congruence) ltac:(unfold is_int32; lia)
              ltac:(vm_compute; split; congruence) ltac:(vm_compute; split; congruence))
    as (w' & Hs & Hh & P & _ & Hl).
  exists w'. auto.
Defined.

(** The encoder keeps no record of the data it has seen: the same new
    value encoded twice takes two handles, one after the other, and both
    stay bound to it. *)
Theorem storeValue_twice_takes_two_handles g a1 a2 v w g1 w1 g2 w2 :
  is_new v = true ->
  0 <= valueIndex g -> valueIndex g + 1 < 2 ^ 64 ->
  storeValue g a1 v w = Ok (g1, w1) ->
  storeValue g1 a2 v w1 = Ok (g2, w2) ->
  valueIndex g1 = valueIndex g + 1 /\
  table w2 (values g) !! valueIndex g = Some (mkValue (valueIndex g) v) /\
  table w2 (values g) !! (valueIndex g + 1) = Some (mkValue (valueIndex g + 1) v) /\
  word32_at w1 a1 = Int.uint32 (valueIndex g) /\
  word32_at w2 a2 = Int.uint32 (valueIndex g + 1).
Proof.
  intros Hn H0 H1 S1 S2.
  destruct (storeValue_new_table g a1 v w g1 w1 Hn S1) as (-> & T1 & P1 & _).
  destruct (storeValue_new_table _ a2 v w1 g2 w2 Hn S2) as (-> & T2 & P2 & _).
  cbn [values valueIndex next_Go set_valueIndex] in *.
  rewrite uint64_small in * by lia.
  split; [reflexivity|]. rewrite T2, T1.
  split; [rewrite lookup_insert_ne by lia; apply lookup_insert_eq|].
  split; [apply lookup_insert_eq|]. auto.
Qed.

Lemma storeValue_twice_takes_two_handles_witness :
  exists g1 w1 g2 w2,
    storeValue first_Go 0 (DString "hi") (init_world (zeros 24)) = Ok (g1, w1) /\
    storeValue g1 8 (DString "hi") w1 = Ok (g2, w2) /\
    table w2 defaultValues !! 8 = Some (mkValue 8 (DString "hi")) /\
    table w2 defaultValues !! 9 = Some (mkValue 9 (DString "hi")) /\
    word32_at w1 0 = 8 /\ word32_at w2 8 = 9.
Proof.
  eexists _, _, _, _. split; [vm_compute; reflexivity|]. split; [vm_compute; reflexivity|].
  match goal with |- table ?w2 _ !! _ = _ /\ _ /\ word32_at ?w1 _ = _ /\ _ =>
    pose proof (storeValue_twice_takes_two_handles first_Go 0 8 (DString "hi")
                  (init_world (zeros 24)) _ w1 _ w2 eq_refl
                  ltac:(cbn; lia) ltac:(cbn; lia)
                  ltac:(vm_compute; reflexivity) ltac:(vm_compute; reflexivity))
      as (_ & T8 & T9 & P1 & P2)
  end.
  split; [exact T8|]. split; [exact T9|]. split; [exact P1 | exact P2].
Defined.

End RoundTrips.

(** ** Byte slices and strings *)

Section Slices.

Implicit Types (g : Go) (w : World) (addr sp : Z) (bs : list byte).

Lemma loadSlice_Ok sp w s w' :
  loadSlice sp w = Ok (s, w') <->
  in_bounds8 w sp /\ in_bounds8 w (Int.add32 sp 8) /\ w' = w /\ s = slice_at w sp.
Proof.
  unfold loadSlice, slice_at. split.
  - intros H. bind_inv H. bind_inv H.
    apply getInt64_Ok in Hstep. destruct Hstep as (Hb & -> & ->).
    apply getInt64_Ok in Hstep0. destruct Hstep0 as (Hb8 & -> & ->).
    destruct (Mem.BufferAt _ _ _); injection H as <- <-; auto.
  - intros (Hb & Hb8 & -> & ->).
    apply bind_Ok. eexists _, w. split; [apply getInt64_Ok; eauto|].
    apply bind_Ok. eexists _, w. split; [apply getInt64_Ok; eauto|].
    destruct (Mem.BufferAt _ _ _); reflexivity.
Qed.

Lemma slice_at_bounds w sp off n :
  slice_at w sp = Some (off, n) -> (off + n <= length (memory w))%nat.
Proof.
  unfold slice_at. destruct (Mem.BufferAt _ _ _) as [o|] eqn:E; [|discriminate].
  intros [= <- <-]. apply BufferAt_Some in E. lia.
Qed.

(** The descriptor reads the same after a write that stays clear of its
    sixteen bytes. *)
Lemma slice_at_write w sp o bs :
  in_bounds8 w sp -> in_bounds8 w (Int.add32 sp 8) -> is_int32 sp ->
  (o + length bs <= length (memory w))%nat ->
  (Z.to_nat sp + 16 <= o \/ o + length bs <= Z.to_nat sp)%nat ->
  slice_at (set_memory w (Mem.write (memory w) o bs)) sp = slice_at w sp.
Proof.
  intros Hb Hb8 Hi Hlen Hd.
  assert (E : Int.add32 sp 8 = sp + 8).
  { destruct Hb. eapply add32_in_bounds; eauto. lia. }
  destruct Hb as [H0 H1], Hb8 as [H2 H3]. rewrite E in H2, H3.
  unfold slice_at, word64_at. cbn [memory set_memory]. rewrite E.
  rewrite !read_write_disjoint by lia. unfold Mem.BufferAt. now rewrite length_write.
Qed.

(** [setSlice] copies into the slice that the descriptor denotes, as many
    bytes as fit, and touches nothing else; when the slice lies clear of
    its own descriptor and the bytes fill it, [loadString] on the same
    descriptor reads them back. *)
Theorem setSlice_loadString sp bs w off n :
  is_int32 sp -> in_bounds8 w sp -> in_bounds8 w (Int.add32 sp 8) ->
  slice_at w sp = Some (off, n) ->
  exists w',
    setSlice sp bs w = Ok (tt, w') /\
    Mem.read (memory w') off (length (take n bs)) = take n bs /\
    same_outside (memory w) (memory w') off n /\
    heap w' = heap w /\
    ((Z.to_nat sp + 16 <= off \/ off + n <= Z.to_nat sp)%nat -> length bs = n ->
     loadString sp w' = Ok (Some (string_of_list_byte bs), w')).
Proof.
  intros Hi Hb Hb8 Hs.
  pose proof (slice_at_bounds w sp off n Hs) as Hlen.
  assert (Lt : (length (take n bs) <= n)%nat) by (rewrite length_take; lia).
  set (w' := set_memory w (Mem.write (memory w) off (take n bs))).
  exists w'. split.
  { unfold setSlice. apply bind_Ok. eexists _, w.
    split; [apply loadSlice_Ok; eauto|]. rewrite Hs. reflexivity. }
  split; [unfold w'; cbn [memory set_memory]; apply read_write_same; [reflexivity | lia]|].
  split; [unfold w'; cbn [memory set_memory]; apply same_outside_write; lia|].
  split; [reflexivity|].
  intros Hd Hn.
  assert (Ht : take n bs = bs) by (apply take_ge; lia).
  assert (L : length (memory w') = length (memory w)).
  { unfold w'. cbn [memory set_memory]. apply length_write. lia. }
  assert (Hs' : slice_at w' sp = Some (off, n)).
  { unfold w'. rewrite slice_at_write; auto; rewrite ?Ht; lia. }
  unfold loadString. apply bind_Ok. eexists _, w'. split.
  { apply loadSlice_Ok. destruct Hb, Hb8. repeat split; try rewrite L; auto. }
  rewrite Hs'. unfold bind, peek, ret.
  unfold w' at 1. cbn [memory set_memory]. rewrite Ht.
  rewrite read_write_same by lia. reflexivity.
Qed.

Lemma setSlice_loadString_witness :
  let w := init_world scenario_slice_memory in
  exists w',
    setSlice 0 (list_byte_of_string "hi") w = Ok (tt, w') /\
    loadString 0 w' = Ok (Some "hi"%string, w') /\
    memory w' !! 15%nat = Some x00 /\ memory w' !! 18%nat = Some x00.
Proof.
  intros w.
  destruct (setSlice_loadString 0 (list_byte_of_string "hi") w 16 2
              ltac:(unfold is_int32; lia) ltac:(vm_compute; split; congruence)
              ltac:(vm_compute; split; congruence) eq_refl)
    as (w' & Hs & _ & (_ & F) & _ & Hl).
  exists w'. split; [exact Hs|].
  split; [exact (Hl ltac:(left; vm_compute; lia) eq_refl)|].
  split; [exact (F 15%nat ltac:(left; lia)) | exact (F 18%nat ltac:(right; lia))].
Defined.

(** A descriptor that [BufferAt] refuses (a negative offset or length, or a
    span that runs past the end of memory) makes [loadString] return its
    error and [setSlice] panic; neither changes anything. *)
Theorem refused_slice sp bs w :
  in_bounds8 w sp -> in_bounds8 w (Int.add32 sp 8) ->
  slice_at w sp = None ->
  loadString sp w = Ok (None, w) /\
  exists e, setSlice sp bs w = Panic e.
Proof.
  intros Hb Hb8 Hs.
  assert (Hl : loadSlice sp w = Ok (None, w)) by (apply loadSlice_Ok; rewrite Hs; auto).
  split.
  - unfold loadString. rewrite (bind_run _ _ _ _ _ Hl). reflexivity.
  - eexists. unfold setSlice. rewrite (bind_run _ _ _ _ _ Hl). reflexivity.
Qed.

Lemma refused_slice_witness :
  let w := init_world (layout 24 [(0%nat, Bytes.le_encode 8 16); (8%nat, Bytes.le_encode 8 9)]) in
  loadString 0 w = Ok (None, w) /\
  exists e, setSlice 0 [x01] w = Panic e.
Proof.
  intros w.
  exact (refused_slice 0 [x01] w ltac:(vm_compute; split; congruence)
           ltac:(vm_compute; split; congruence) eq_refl).
Defined.

End Slices.


(** ** Strings across the boundary *)

Section Strings.

Implicit Types (g : Go) (w : World) (addr sp : Z) (bs : list byte).

Lemma setSlice_run sp bs w off n :
  is_int32 sp -> in_bounds8 w sp -> in_bounds8 w (Int.add32 sp 8) ->
  slice_at w sp = Some (off, n) ->
  setSlice sp bs w = Ok (tt, set_memory w (Mem.write (memory w) off (take n bs))).
Proof.
  intros Hi Hb Hb8 Hs. unfold setSlice. apply bind_Ok. eexists _, w.
  split; [apply loadSlice_Ok; eauto|]. rewrite Hs. reflexivity.
Qed.

(** make-string: the text read from guest memory becomes a new table entry
    under the next handle; the result slot at [sp + 24] gets that handle
    under the string tag, and decodes to the string. *)
Theorem exportStringVal_makes_a_string g sp str w :
  loadString (Int.add32 sp 8) w = Ok (Some str, w) ->
  is_Some (heap w !! values g) ->
  0 <= sp -> sp + 36 <= Z.of_nat (length (memory w)) -> sp + 36 < 2 ^ 31 ->
  0 <= valueIndex g < 2 ^ 32 ->
  valueIndex g <= Z.of_nat (size (table w (values g))) ->
  exists w',
    exportStringVal g sp w = Ok (next_Go g, w') /\
    table w' (values g) !! valueIndex g = Some (mkValue (valueIndex g) (DString str)) /\
    word32_at w' (sp + 24) = valueIndex g /\
    word32_at w' (sp + 28) = Z.lor nanHead typeFlagString /\
    loadValue (next_Go g) (sp + 24) w' = Ok (mkValue (valueIndex g) (DString str), w').
Proof.
  intros Hl Hs H0 Hlen H31 Hr Hsz.
  set (w' := slot_written (allocated g w (DString str)) (sp + 24)
               (Z.lor nanHead (own_typeFlag (DString str))) (Int.uint32 (valueIndex g))).
  assert (Hi : is_int32 (sp + 24)) by (unfold is_int32; lia).
  assert (Hb : in_bounds8 w (sp + 24)) by (unfold in_bounds8; lia).
  assert (Ha : in_bounds8 w (Int.add32 (sp + 24) 4))
    by (rewrite add32_small by lia; unfold in_bounds8; lia).
  assert (Hst : storeValue g (sp + 24) (DString str) w = Ok (next_Go g, w'))
    by (apply storeValue_new_Ok; auto).
  destruct (slot_written_words (allocated g w (DString str)) (sp + 24)
              (Z.lor nanHead (own_typeFlag (DString str))) (Int.uint32 (valueIndex g))
              Hi Ha Hb) as (_ & _ & P & T & _).
  fold w' in P, T. rewrite uint32_idemp, uint32_small in P by lia.
  rewrite uint32_tag in T.
  assert (Hld : loadValue (next_Go g) (sp + 24) w'
                = Ok (mkValue (valueIndex g) (DString str), w'))
    by (eapply loadValue_after_store; eauto).
  exists w'. unfold exportStringVal.
  rewrite (bind_run _ _ _ _ _ Hl), (add32_small sp 24) by lia.
  split; [exact Hst|]. split.
  { destruct (storeValue_new_table g (sp + 24) (DString str) w _ w' eq_refl Hst)
      as (_ & Ht & _). rewrite Ht. apply lookup_insert_eq. }
  split; [exact P|]. split; [|exact Hld].
  replace (sp + 28) with (sp + 24 + 4) by lia. exact T.
Qed.

Lemma exportStringVal_makes_a_string_witness :
  let w := init_world scenario_string_memory in
  exists w',
    exportStringVal first_Go 0 w = Ok (next_Go first_Go, w') /\
    table w' defaultValues !! 8 = Some (mkValue 8 (DString "hi")) /\
    word32_at w' 24 = 8 /\
    word32_at w' 28 = Z.lor nanHead typeFlagString /\
    loadValue (next_Go first_Go) 24 w' = Ok (mkValue 8 (DString "hi"), w').
Proof.
  intros w.
  exact (exportStringVal_makes_a_string first_Go 0 "hi" w
           ltac:(vm_compute; reflexivity) ltac:(eexists; reflexivity)
           ltac:(lia) ltac:(vm_compute; congruence) ltac:(lia)
           ltac:(cbn; lia) ltac:(vm_compute; congruence)).
Defined.

(** prepare-string: as make-string, with the slot at [sp + 16] and the
    byte length of the text in the 8 bytes at [sp + 24]. *)
Theorem exportValuePrepareString_length g sp str w :
  loadString (Int.add32 sp 8) w = Ok (Some str, w) ->
  is_Some (heap w !! values g) ->
  0 <= sp -> sp + 32 <= Z.of_nat (length (memory w)) -> sp + 32 < 2 ^ 31 ->
  exists w',
    exportValuePrepareString g sp w = Ok (next_Go g, w') /\
    table w' (values g) !! valueIndex g = Some (mkValue (valueIndex g) (DString str)) /\
    word32_at w' (sp + 16) = Int.uint32 (valueIndex g) /\
    word32_at w' (sp + 20) = Z.lor nanHead typeFlagString /\
    word64_at w' (sp + 24) = Int.uint64 (Z.of_nat (String.length str)).
Proof.
  intros Hl Hs H0 Hlen H31.
  set (w1 := slot_written (allocated g w (DString str)) (sp + 16)
               (Z.lor nanHead (own_typeFlag (DString str))) (Int.uint32 (valueIndex g))).
  assert (Hi : is_int32 (sp + 16)) by (unfold is_int32; lia).
  assert (Ha : in_bounds8 (allocated g w (DString str)) (Int.add32 (sp + 16) 4))
    by (rewrite add32_small by lia; unfold in_bounds8; cbn [memory allocated set_heap]; lia).
  assert (Hb : in_bounds8 (allocated g w (DString str)) (sp + 16))
    by (unfold in_bounds8; cbn [memory allocated set_heap]; lia).
  assert (Hst : storeValue g (sp + 16) (DString str) w = Ok (next_Go g, w1))
    by (apply storeValue_new_Ok; auto).
  destruct (slot_written_words _ (sp + 16) (Z.lor nanHead (own_typeFlag (DString str)))
              (Int.uint32 (valueIndex g)) Hi Ha Hb) as (_ & L & P & T & _).
  fold w1 in L, P, T. cbn [memory allocated set_heap] in L.
  assert (Hb24 : in_bounds8 w1 (sp + 24)) by (unfold in_bounds8; rewrite L; lia).
  destruct (word64_written w1 (sp + 24) (Int.uint64 (Z.of_nat (String.length str))) Hb24)
    as (W & _ & F).
  set (w2 := set_memory w1 (Mem.write (memory w1) (Z.to_nat (sp + 24))
               (Bytes.le_encode 8 (Int.uint64 (Z.of_nat (String.length str)))))) in *.
  exists w2. split.
  { unfold exportValuePrepareString.
    rewrite (bind_run _ _ _ _ _ Hl), (add32_small sp 16), (add32_small sp 24) by lia.
    rewrite (bind_run _ _ _ _ _ Hst).
    assert (Hset : setInt64 (sp + 24) (Z.of_nat (String.length str)) w1 = Ok (tt, w2))
      by (apply setUInt64_Ok; auto).
    rewrite (bind_run _ _ _ _ _ Hset). reflexivity. }
  split.
  { destruct (storeValue_new_table g (sp + 16) (DString str) w _ w1 eq_refl Hst)
      as (_ & Ht & _). change (table w2 (values g)) with (table w1 (values g)).
    rewrite Ht. apply lookup_insert_eq. }
  assert (Hsame : forall a, sp + 16 <= a -> a + 4 <= sp + 24 ->
                    word32_at w2 a = word32_at w1 a).
  { intros a Ha1 Ha2. unfold word32_at, w2. cbn [memory set_memory].
    rewrite read_write_disjoint; [reflexivity | rewrite length_le_encode, L; lia | lia]. }
  split; [rewrite Hsame by lia; rewrite P; apply uint32_idemp|].
  split; [|rewrite W; apply uint64_idemp].
  rewrite Hsame by lia. replace (sp + 20) with (sp + 16 + 4) by lia.
  rewrite T. reflexivity.
Qed.

Lemma exportValuePrepareString_length_witness :
  let w := init_world scenario_string_memory in
  exists w',
    exportValuePrepareString first_Go 0 w = Ok (next_Go first_Go, w') /\
    table w' defaultValues !! 8 = Some (mkValue 8 (DString "hi")) /\
    word32_at w' 16 = 8 /\
    word64_at w' 24 = 2.
Proof.
  intros w.
  destruct (exportValuePrepareString_length first_Go 0 "hi" w
              ltac:(vm_compute; reflexivity) ltac:(eexists; reflexivity)
              ltac:(lia) ltac:(vm_compute; congruence) ltac:(lia))
    as (w' & Hr & Ht & P & _ & W).
  exists w'. auto.
Defined.

(** load-string-bytes on a target that is not a string panics on the type
    assertion, before anything is written. *)
Theorem exportValueLoadString_not_a_string g sp x w :
  loadValue g (Int.add32 sp 8) w = Ok (x, w) ->
  (forall s, Value_v x <> DString s) ->
  exists e, exportValueLoadString g sp w = Panic e.
Proof.
  intros Hv Hx. unfold exportValueLoadString. rewrite (bind_run _ _ _ _ _ Hv).
  destruct (Value_v x) eqn:E; try (eexists; reflexivity).
  exfalso. eapply Hx. reflexivity.
Qed.

Lemma exportValueLoadString_not_a_string_witness :
  let w := init_world (layout 32 [(8%nat, Bytes.le_encode 8 5); (16%nat, Bytes.le_encode 8 2)]) in
  loadValue first_Go 8 w = Ok (mkValue jsValueGlobal jsGlobal, w) /\
  exists e, exportValueLoadString first_Go 0 w = Panic e.
Proof.
  intros w. split; [vm_compute; reflexivity|].
  apply (exportValueLoadString_not_a_string first_Go 0 (mkValue jsValueGlobal jsGlobal) w).
  - vm_compute; reflexivity.
  - intros s. discriminate.
Defined.

(** load-string-bytes on a string: the destination is the slice that the
    16 bytes at [sp + 8] denote, the same bytes the target handle is read
    from, so the offset of the destination has the handle as its low 32
    bits.  The bytes of the string are copied there, as many as fit, and
    nothing else is touched. *)
Theorem exportValueLoadString_copies g sp x s w off n :
  loadValue g (Int.add32 sp 8) w = Ok (x, w) ->
  Value_v x = DString s ->
  is_int32 (Int.add32 sp 8) ->
  in_bounds8 w (Int.add32 (Int.add32 sp 8) 8) ->
  slice_at w (Int.add32 sp 8) = Some (off, n) ->
  exists w',
    exportValueLoadString g sp w = Ok (g, w') /\
    Z.of_nat off mod 2 ^ 32 = word32_at w (Int.add32 sp 8) /\
    Mem.read (memory w') off (length (take n (list_byte_of_string s)))
      = take n (list_byte_of_string s) /\
    same_outside (memory w) (memory w') off n /\
    heap w' = heap w.
Proof.
  intros Hv Hx Hi Hb8 Hs.
  pose proof Hv as Hv'. apply loadValue_Ok in Hv'. destruct Hv' as (Hb & _ & _).
  pose proof (slice_at_bounds w _ off n Hs) as Hlen.
  pose proof (setSlice_run (Int.add32 sp 8) (list_byte_of_string s) w off n
                Hi Hb Hb8 Hs) as Hset.
  eexists. split.
  { unfold exportValueLoadString. rewrite (bind_run _ _ _ _ _ Hv), Hx.
    rewrite (bind_run _ _ _ _ _ Hset). reflexivity. }
  cbn [memory set_memory heap].
  assert (Lt : (length (take n (list_byte_of_string s)) <= n)%nat)
    by (rewrite length_take; lia).
  split; [|split; [apply read_write_same; [reflexivity | lia]|
           split; [apply same_outside_write; lia | reflexivity]]].
  unfold slice_at in Hs.
  destruct (Mem.BufferAt _ _ _) as [o|] eqn:E; [|discriminate].
  injection Hs as -> _. apply BufferAt_Some in E. destruct E as (E0 & _ & _ & ->).
  rewrite Z2Nat.id by exact E0.
  pose proof (word32_at_range w (Int.add32 sp 8) Hb) as R.
  assert (R4 : 0 <= word32_at w (Int.add32 sp 8 + 4)).
  { unfold word32_at.
    assert (forall bs : list byte, 0 <= Bytes.le_decode bs) as Hnn.
    { induction bs as [|b bs IH]; cbn [Bytes.le_decode]; [lia|].
      unfold Bytes.to_Z. lia. }
    apply Hnn. }
  destruct Hb as [Hb0 Hb1].
  rewrite word64_of_words in E0 |- * by exact Hb0.
  set (lo := word32_at w (Int.add32 sp 8)) in *.
  set (hi := word32_at w (Int.add32 sp 8 + 4)) in *.
  unfold Int.int64 in *.
  assert (Hmod : (lo + 2 ^ 32 * hi + 2 ^ 63) mod 2 ^ 64 - 2 ^ 63 = lo + 2 ^ 32 * hi - 2 ^ 64 *
                   ((lo + 2 ^ 32 * hi + 2 ^ 63) / 2 ^ 64)).
  { pose proof (Z.div_mod (lo + 2 ^ 32 * hi + 2 ^ 63) (2 ^ 64) ltac:(lia)). lia. }
  rewrite Hmod.
  replace (lo + 2 ^ 32 * hi - 2 ^ 64 * ((lo + 2 ^ 32 * hi + 2 ^ 63) / 2 ^ 64))
    with (lo + (hi - 2 ^ 32 * ((lo + 2 ^ 32 * hi + 2 ^ 63) / 2 ^ 64)) * 2 ^ 32) by lia.
  rewrite Z.mod_add by lia. apply Z.mod_small. lia.
Qed.

Lemma exportValueLoadString_copies_witness :
  let w0 := init_world scenario_load_memory in
  exists g1 w1 w2,
    storeValue first_Go 24 (DString "hi") w0 = Ok (g1, w1) /\
    loadValue g1 8 w1 = Ok (mkValue 8 (DString "hi"), w1) /\
    exportValueLoadString g1 0 w1 = Ok (g1, w2) /\
    Mem.read (memory w2) 8 2 = list_byte_of_string "hi" /\
    memory w2 !! 7%nat = Some x00 /\ memory w2 !! 10%nat = Some x00.
Proof.
  intros w0. eexists _, _. 
  assert (Hst : exists g1 w1, storeValue first_Go 24 (DString "hi") w0 = Ok (g1, w1))
    by (eexists _, _; vm_compute; reflexivity).
  clear Hst.
  match goal with |- exists w2, storeValue _ _ _ _ = Ok (?g1, ?w1) /\ _ =>
    assert (Hst : storeValue first_Go 24 (DString "hi") w0 = Ok (g1, w1))
      by (vm_compute; reflexivity);
    destruct (exportValueLoadString_copies g1 0 (mkValue 8 (DString "hi")) "hi" w1 8 2
                ltac:(vm_compute; reflexivity) eq_refl
                ltac:(vm_compute; split; congruence)
                ltac:(vm_compute; split; congruence)
                ltac:(vm_compute; reflexivity))
      as (w2 & Hr & _ & Hrd & (_ & F) & _)
  end.
  exists w2. split; [exact Hst|]. split; [vm_compute; reflexivity|].
  split; [exact Hr|]. split; [exact Hrd|].
  split; [rewrite (F 7%nat) by (left; lia) | rewrite (F 10%nat) by (right; lia)];
    vm_compute; reflexivity.
Defined.

End Strings.

(** ** The clock and the random bytes *)

Section HostServices.

Implicit Types (g : Go) (w : World) (addr sp now : Z).

(** The wall clock splits the nanosecond reading by truncated division:
    seconds in the 8 bytes at [sp + 8], the remainder, which has the sign
    of the reading, in the 4 bytes at [sp + 16].  The 12 bytes are all that
    changes, but the second write asks for the 8 bytes up to [sp + 24]. *)
Theorem exportWalltime_splits_the_clock g now sp w :
  - 2 ^ 63 <= now < 2 ^ 63 ->
  0 <= sp -> sp + 24 <= Z.of_nat (length (memory w)) -> sp + 24 < 2 ^ 31 ->
  exists w',
    exportWalltime g now sp w = Ok (g, w') /\
    word64_at w' (sp + 8) = Int.uint64 (Z.quot now (10 ^ 9)) /\
    word32_at w' (sp + 16) = Int.uint32 (Z.rem now (10 ^ 9)) /\
    same_outside (memory w) (memory w') (Z.to_nat (sp + 8)) 12 /\
    heap w' = heap w /\ terminated w' = terminated w.
Proof.
  intros Hn H0 Hlen H31. change (10 ^ 9) with 1000000000.
  pose proof (Z.quot_rem' now 1000000000) as Hqr.
  pose proof (Z.rem_bound_abs now 1000000000 ltac:(lia)) as Hrb.
  assert (Hq : - 2 ^ 63 <= Z.quot now 1000000000 < 2 ^ 63).
  { destruct (Z.le_gt_cases 0 now) as [Hp|Hp].
    - pose proof (Z.quot_pos now 1000000000 Hp ltac:(lia)).
      pose proof (Z.rem_nonneg now 1000000000 ltac:(lia) Hp). lia.
    - pose proof (Z.quot_opp_l now 1000000000 ltac:(lia)) as Ho.
      pose proof (Z.quot_pos (- now) 1000000000 ltac:(lia) ltac:(lia)).
      pose proof (Z.rem_nonpos now 1000000000 ltac:(lia) ltac:(lia)). lia. }
  set (secs := Z.quot now 1000000000) in *.
  set (nsec := Z.rem now 1000000000) in *.
  assert (E1 : Int.int64 now = now) by (apply int64_small; lia).
  assert (E2 : Int.int64 secs = secs) by (apply int64_small; lia).
  assert (Hm : secs * 1000000000 = now - nsec) by (unfold secs, nsec; lia).
  assert (Hsg : - 2 ^ 63 <= now - nsec < 2 ^ 63).
  { destruct (Z.le_gt_cases 0 now) as [Hp|Hp].
    - pose proof (Z.rem_nonneg now 1000000000 ltac:(lia) Hp). unfold nsec. lia.
    - pose proof (Z.rem_nonpos now 1000000000 ltac:(lia) ltac:(lia)). unfold nsec. lia. }
  assert (E3 : Int.int64 (now - Int.mul64 secs 1000000000) = nsec).
  { unfold Int.mul64. rewrite Hm, (int64_small (now - nsec)) by exact Hsg.
    replace (now - (now - nsec)) with nsec by lia. apply int64_small. lia. }
  assert (E4 : Int.int32 nsec = nsec).
  { unfold Int.int32. rewrite Z.mod_small; lia. }
  set (w1 := set_memory w (Mem.write (memory w) (Z.to_nat (sp + 8))
               (Bytes.le_encode 8 (Int.uint64 secs)))).
  set (w2 := set_memory w1 (Mem.write (memory w1) (Z.to_nat (sp + 16))
               (Bytes.le_encode 4 (Int.uint32 nsec)))).
  assert (Hb1 : in_bounds8 w (sp + 8)) by (unfold in_bounds8; lia).
  destruct (word64_written w (sp + 8) (Int.uint64 secs) Hb1) as (W & L & F).
  fold w1 in W, L, F.
  assert (Hb2 : in_bounds8 w1 (sp + 16)) by (unfold in_bounds8; rewrite L; lia).
  exists w2. split.
  { unfold exportWalltime. rewrite E1. fold secs. rewrite E2, E3, E4.
    rewrite (add32_small sp 8), (add32_small sp 16) by lia.
    assert (S1 : setInt64 (sp + 8) secs w = Ok (tt, w1)) by (apply setUInt64_Ok; auto).
    assert (S2 : setInt32 (sp + 16) nsec w1 = Ok (tt, w2)) by (apply setUInt32_Ok; auto).
    rewrite (bind_run _ _ _ _ _ S1), (bind_run _ _ _ _ _ S2). reflexivity. }
  split.
  { unfold word64_at, w2. cbn [memory set_memory].
    rewrite read_write_disjoint by (rewrite length_le_encode; lia).
    fold (word64_at w1 (sp + 8)). rewrite W. apply uint64_idemp. }
  split.
  { destruct (word_written w1 (sp + 16) (Int.uint32 nsec) Hb2) as (P & _).
    fold w2 in P. rewrite P. apply uint32_idemp. }
  split; [|split; reflexivity].
  apply same_outside_trans with (memory w1) .
  - unfold w1. cbn [memory set_memory].
    apply same_outside_write; rewrite ?length_le_encode; lia.
  - unfold w2. cbn [memory set_memory].
    apply same_outside_write; rewrite ?length_le_encode; lia.
Qed.

Lemma exportWalltime_splits_the_clock_witness :
  exists w',
    exportWalltime first_Go (- 1500000000) 0 (init_world (ones 24)) = Ok (first_Go, w') /\
    word64_at w' 8 = 2 ^ 64 - 1 /\
    word32_at w' 16 = 2 ^ 32 - 500000000 /\
    word32_at w' 20 = 2 ^ 32 - 1.
Proof.
  destruct (exportWalltime_splits_the_clock first_Go (- 1500000000) 0 (init_world (ones 24))
              ltac:(lia) ltac:(lia) ltac:(vm_compute; congruence) ltac:(lia))
    as (w' & Hr & W & P & (L & F) & _).
  exists w'. split; [exact Hr|]. split; [exact W|]. split; [exact P|].
  unfold word32_at, Mem.read.
  assert (E : take 4 (drop (Z.to_nat 20) (memory w')) = [xff; xff; xff; xff]).
  { apply list_eq. intros i. rewrite lookup_take, lookup_drop.
    destruct (decide (i < 4)%nat) as [Hi|Hi].
    - rewrite F by (right; lia).
      destruct i as [|[|[|[|i]]]]; [reflexivity..|lia].
    - destruct i as [|[|[|[|i]]]]; [lia..|reflexivity]. }
  rewrite E. reflexivity.
Defined.

(** The monotonic clock writes the nanoseconds since the instance was
    made into the 8 bytes at [sp + 8], and nothing else. *)
Theorem exportNanotime_elapsed g now sp w :
  - 2 ^ 63 <= now - timeOrigin g < 2 ^ 63 ->
  0 <= sp -> sp + 16 <= Z.of_nat (length (memory w)) -> sp + 16 < 2 ^ 31 ->
  exists w',
    exportNanotime g now sp w = Ok (g, w') /\
    getInt64 (sp + 8) w' = Ok (now - timeOrigin g, w') /\
    same_outside (memory w) (memory w') (Z.to_nat (sp + 8)) 8 /\
    heap w' = heap w /\ terminated w' = terminated w.
Proof.
  intros Hn H0 Hlen H31.
  set (d := now - timeOrigin g) in *.
  set (w1 := set_memory w (Mem.write (memory w) (Z.to_nat (sp + 8))
               (Bytes.le_encode 8 (Int.uint64 d)))).
  assert (Hb1 : in_bounds8 w (sp + 8)) by (unfold in_bounds8; lia).
  destruct (word64_written w (sp + 8) (Int.uint64 d) Hb1) as (W & L & F).
  fold w1 in W, L, F. rewrite uint64_idemp in W.
  exists w1. split.
  { unfold exportNanotime. fold d. rewrite int64_small by lia.
    rewrite (add32_small sp 8) by lia.
    assert (S1 : setInt64 (sp + 8) d w = Ok (tt, w1)) by (apply setUInt64_Ok; auto).
    rewrite (bind_run _ _ _ _ _ S1). reflexivity. }
  split.
  { apply getInt64_Ok. split; [unfold in_bounds8; rewrite L; lia|].
    rewrite W, int64_uint64 by lia. auto. }
  split; [|split; reflexivity].
  split; [exact L|]. intros i Hi. apply F. lia.
Qed.

Lemma exportNanotime_elapsed_witness :
  exists w',
    exportNanotime (mkGo 100 defaultValues 8) 350 0 (init_world (zeros 16))
      = Ok (mkGo 100 defaultValues 8, w') /\
    getInt64 8 w' = Ok (250, w').
Proof.
  destruct (exportNanotime_elapsed (mkGo 100 defaultValues 8) 350 0 (init_world (zeros 16))
              ltac:(cbn; lia) ltac:(lia) ltac:(vm_compute; congruence) ltac:(lia))
    as (w' & Hr & Hg & _).
  exists w'. split; [exact Hr | exact Hg].
Defined.

(** The random bytes fill exactly the slice whose descriptor is at [sp]
    itself (the other exports keep their first operand at [sp + 8]): every
    byte of the slice is drawn, no byte outside it changes. *)
Theorem exportGetRandomData_fills_the_slice g rnd sp w off n :
  in_bounds8 w sp -> in_bounds8 w (Int.add32 sp 8) ->
  slice_at w sp = Some (off, n) ->
  exists w',
    exportGetRandomData g rnd sp w = Ok (g, w') /\
    (forall i : nat, (i < n)%nat -> memory w' !! (off + i)%nat = Some (rnd i)) /\
    same_outside (memory w) (memory w') off n /\
    heap w' = heap w /\ terminated w' = terminated w.
Proof.
  intros Hb Hb8 Hs.
  pose proof (slice_at_bounds w sp off n Hs) as Hlen.
  assert (L : length (map rnd (seq 0 n)) = n) by (rewrite length_map, length_seq; reflexivity).
  exists (set_memory w (Mem.write (memory w) off (map rnd (seq 0 n)))). split.
  { unfold exportGetRandomData.
    assert (Hl : loadSlice sp w = Ok (Some (off, n), w)) by (apply loadSlice_Ok; auto).
    rewrite (bind_run _ _ _ _ _ Hl). reflexivity. }
  cbn [memory set_memory heap terminated].
  split; [|split; [apply same_outside_write; lia | split; reflexivity]].
  intros i Hi. rewrite lookup_write by lia. rewrite L.
  destruct (decide _) as [_|Hc]; [|lia].
  replace (off + i - off)%nat with i by lia.
  rewrite list_lookup_fmap, lookup_seq_lt by lia. reflexivity.
Qed.

Lemma exportGetRandomData_fills_the_slice_witness :
  let w := init_world scenario_slice_memory in
  exists w',
    exportGetRandomData first_Go (fun _ => x2a) 0 w = Ok (first_Go, w') /\
    memory w' !! 16%nat = Some x2a /\ memory w' !! 17%nat = Some x2a /\
    memory w' !! 15%nat = Some x00 /\ memory w' !! 18%nat = Some x00.
Proof.
  intros w.
  destruct (exportGetRandomData_fills_the_slice first_Go (fun _ => x2a) 0 w 16 2
              ltac:(vm_compute; split; congruence) ltac:(vm_compute; split; congruence)
              ltac:(vm_compute; reflexivity))
    as (w' & Hr & Hf & (_ & F) & _).
  exists w'. split; [exact Hr|].
  split; [exact (Hf 0%nat ltac:(lia))|]. split; [exact (Hf 1%nat ltac:(lia))|].
  split; [rewrite (F 15%nat) by (left; lia) | rewrite (F 18%nat) by (right; lia)];
    vm_compute; reflexivity.
Defined.

End HostServices.

(** ** Property access and method calls *)

Section PropertyAccess.

Implicit Types (g : Go) (w : World) (addr sp : Z) (v : datum).

Lemma jsObject_index_missing (o : list (string * datum)) (name : string) :
  name ∉ o.*1 -> jsObject_index o name = DNil.
Proof.
  induction o as [|[k d] o IH]; intros Hn; cbn [jsObject_index]; [reflexivity|].
  rewrite fmap_cons in Hn. cbn [fst] in Hn. apply not_elem_of_cons in Hn.
  destruct Hn as [Hne Hn]. destruct (String.eqb_spec k name) as [->|_]; [congruence|].
  apply IH. exact Hn.
Qed.

(** get-property of a name the object does not have: the result slot at
    [sp + 32] gets the null handle under the bare tag word; no handle is
    taken and the process is not terminated. *)
Theorem exportValueGet_missing_property g sp x o name w :
  loadValue g (Int.add32 sp 8) w = Ok (x, w) ->
  Value_v x = DJsObject o ->
  loadString (Int.add32 sp 16) w = Ok (Some name, w) ->
  name ∉ o.*1 ->
  0 <= sp -> sp + 44 <= Z.of_nat (length (memory w)) -> sp + 44 < 2 ^ 31 ->
  exists w',
    exportValueGet g sp w = Ok (g, w') /\
    word32_at w' (sp + 32) = jsValueNull /\
    word32_at w' (sp + 36) = nanHead /\
    same_outside (memory w) (memory w') (Z.to_nat (sp + 32)) 8 /\
    heap w' = heap w /\ terminated w' = terminated w.
Proof.
  intros Hv Hx Hs Hn H0 Hlen H31.
  assert (Hi : is_int32 (sp + 32)) by (unfold is_int32; lia).
  assert (Hb : in_bounds8 w (sp + 32)) by (unfold in_bounds8; lia).
  assert (Ha : in_bounds8 w (Int.add32 (sp + 32) 4))
    by (rewrite add32_small by lia; unfold in_bounds8; lia).
  destruct (two_words_run g (sp + 32) nanHead jsValueNull w Hi Hb Ha)
    as (Hr & _ & P & T & Hh).
  exists (slot_written w (sp + 32) nanHead jsValueNull). split.
  { unfold exportValueGet.
    rewrite (bind_run _ _ _ _ _ Hv), (bind_run _ _ _ _ _ Hs), Hx. cbn [getter].
    unfold jsObject_Get. rewrite (jsObject_index_missing o name Hn).
    rewrite (add32_small sp 32) by lia. exact Hr. }
  split; [exact P|].
  split; [replace (sp + 36) with (sp + 32 + 4) by lia; exact T|].
  split; [|split; [exact Hh | reflexivity]].
  apply same_outside_slot_written; auto.
Qed.

Lemma exportValueGet_missing_property_witness :
  let w := init_world scenario_missing_memory in
  exists w',
    exportValueGet first_Go 0 w = Ok (first_Go, w') /\
    word32_at w' 32 = jsValueNull /\
    word32_at w' 36 = nanHead /\
    heap w' = heap w /\ terminated w' = false.
Proof.
  intros w.
  destruct (exportValueGet_missing_property first_Go 0 (mkValue jsValueGlobal jsGlobal)
              [("Array"%string, DJsArray []); ("Int8Array"%string, DJsInt8Array [])]
              "Nope" w
              ltac:(vm_compute; reflexivity) eq_refl ltac:(vm_compute; reflexivity)
              ltac:(cbn; repeat (apply not_elem_of_cons; split; [discriminate|]);
                    apply not_elem_of_nil) ltac:(lia) ltac:(vm_compute; congruence) ltac:(lia))
    as (w' & Hr & P & T & _ & Hh & Ht).
  exists w'. auto.
Defined.

(** get-property of a name whose value takes the new-value path (a
    string, a function, one of the stand-in objects): the value is stored
    under the next handle whether or not the table already holds it, and
    the result slot gets that handle under the tag word of the value's
    kind. *)
Theorem exportValueGet_takes_a_handle g sp x o name w :
  loadValue g (Int.add32 sp 8) w = Ok (x, w) ->
  Value_v x = DJsObject o ->
  loadString (Int.add32 sp 16) w = Ok (Some name, w) ->
  is_new (jsObject_Get o name) = true ->
  is_Some (heap w !! values g) ->
  0 <= sp -> sp + 44 <= Z.of_nat (length (memory w)) -> sp + 44 < 2 ^ 31 ->
  exists w',
    exportValueGet g sp w = Ok (next_Go g, w') /\
    table w' (values g) !! valueIndex g
      = Some (mkValue (valueIndex g) (jsObject_Get o name)) /\
    word32_at w' (sp + 32) = Int.uint32 (valueIndex g) /\
    word32_at w' (sp + 36) = Z.lor nanHead (own_typeFlag (jsObject_Get o name)) /\
    terminated w' = terminated w.
Proof.
  intros Hv Hx Hs Hn Hh H0 Hlen H31.
  set (v := jsObject_Get o name) in *.
  set (w' := slot_written (allocated g w v) (sp + 32)
               (Z.lor nanHead (own_typeFlag v)) (Int.uint32 (valueIndex g))).
  assert (Hi : is_int32 (sp + 32)) by (unfold is_int32; lia).
  assert (Hb : in_bounds8 w (sp + 32)) by (unfold in_bounds8; lia).
  assert (Ha : in_bounds8 w (Int.add32 (sp + 32) 4))
    by (rewrite add32_small by lia; unfold in_bounds8; lia).
  assert (Hst : storeValue g (sp + 32) v w = Ok (next_Go g, w'))
    by (apply storeValue_new_Ok; auto).
  destruct (slot_written_words (allocated g w v) (sp + 32)
              (Z.lor nanHead (own_typeFlag v)) (Int.uint32 (valueIndex g)) Hi Ha Hb)
    as (_ & _ & P & T & _ & Ht).
  fold w' in P, T, Ht. rewrite uint32_idemp in P. rewrite uint32_tag in T.
  exists w'. split.
  { unfold exportValueGet.
    rewrite (bind_run _ _ _ _ _ Hv), (bind_run _ _ _ _ _ Hs), Hx. cbn [getter].
    rewrite (add32_small sp 32) by lia. exact Hst. }
  split.
  { destruct (storeValue_new_table g (sp + 32) v w _ w' Hn Hst) as (_ & Ht' & _).
    rewrite Ht'. apply lookup_insert_eq. }
  split; [exact P|].
  split; [replace (sp + 36) with (sp + 32 + 4) by lia; exact T|].
  exact Ht.
Qed.

Lemma exportValueGet_takes_a_handle_witness :
  let w := init_world scenario_get_memory in
  exists w',
    exportValueGet first_Go 0 w = Ok (next_Go first_Go, w') /\
    table w' defaultValues !! 8 = Some (mkValue 8 (DJsArray [])) /\
    word32_at w' 32 = 8 /\
    word32_at w' 36 = nanHead /\
    exists w'', exportValueGet (next_Go first_Go) 0 w' = Ok (next_Go (next_Go first_Go), w'') /\
      table w'' defaultValues !! 9 = Some (mkValue 9 (DJsArray [])).
Proof.
  intros w.
  destruct (exportValueGet_takes_a_handle first_Go 0 (mkValue jsValueGlobal jsGlobal)
              [("Array"%string, DJsArray []); ("Int8Array"%string, DJsInt8Array [])]
              "Array" w
              ltac:(vm_compute; reflexivity) eq_refl ltac:(vm_compute; reflexivity)
              eq_refl ltac:(eexists; reflexivity)
              ltac:(lia) ltac:(vm_compute; congruence) ltac:(lia))
    as (w' & Hr & Ht & P & T & _).
  exists w'. split; [exact Hr|]. split; [exact Ht|]. split; [exact P|]. split; [exact T|].
  assert (Hc : exportValueGet first_Go 0 w
               = Ok (next_Go first_Go,
                     slot_written (allocated first_Go w (DJsArray [])) 32 nanHead 8))
    by (vm_compute; reflexivity).
  rewrite Hc in Hr. injection Hr as <-.
  eexists. split; vm_compute; reflexivity.
Defined.

(** call-method calls nothing.  It returns exactly when the target and
    the name can be decoded and, for a target with properties, the
    argument list too; then the instance, guest memory and the table are as
    they were, no result is written, and the one thing that can have
    changed is the termination flag, set for a target without
    properties. *)
Theorem exportValueCall_calls_nothing g sp w g' w' :
  exportValueCall g sp w = Ok (g', w') <->
  exists x name,
    loadValue g (Int.add32 sp 8) w = Ok (x, w) /\
    loadString (Int.add32 sp 16) w = Ok (Some name, w) /\
    g' = g /\
    match getter (Value_v x) with
    | Some _ =>
        (exists args, loadSliceOfValues g (Int.add32 sp 32) w = Ok (args, w)) /\ w' = w
    | None => w' = set_terminated w
    end.
Proof.
  unfold exportValueCall. split.
  - intros H. bind_inv H. pose proof (loadValue_world _ _ _ _ _ Hstep). subst.
    bind_inv H. pose proof (loadString_world _ _ _ _ Hstep0). subst.
    destruct a0 as [name|]; [|discriminate].
    exists a, name. split; [exact Hstep|]. split; [exact Hstep0|].
    destruct (getter (Value_v a)) as [Get|].
    + bind_inv H. pose proof (loadSliceOfValues_world _ _ _ _ _ Hstep1). subst.
      ret_inv H. eauto.
    + injection H as <- <-. auto.
  - intros (x & name & Hv & Hs & -> & H).
    rewrite (bind_run _ _ _ _ _ Hv), (bind_run _ _ _ _ _ Hs).
    destruct (getter (Value_v x)) as [Get|].
    + destruct H as ((args & Ha) & ->). rewrite (bind_run _ _ _ _ _ Ha). reflexivity.
    + subst. reflexivity.
Qed.

Lemma exportValueCall_calls_nothing_witness :
  let w := init_world scenario_call_memory in
  exportValueCall first_Go 0 w = Ok (first_Go, w).
Proof.
  intros w.
  apply (proj2 (exportValueCall_calls_nothing first_Go 0 w first_Go w)).
  exists (mkValue jsValueGlobal jsGlobal), "Nope"%string.
  split; [vm_compute; reflexivity|]. split; [vm_compute; reflexivity|].
  split; [reflexivity|]. cbn [getter Value_v jsGlobal].
  split; [|reflexivity]. eexists. vm_compute. reflexivity.
Defined.

End PropertyAccess.

(** ** Argument lists and the typed-array constructor *)

Section ArgumentLists.

Implicit Types (g : Go) (w : World) (addr sp : Z) (l : list datum).

Lemma loadSliceOfValues_from_run g arrayAddr n :
  forall i w,
    (forall j : nat, (j < n)%nat ->
       in_bounds8 w (Int.int32 (Int.add64 arrayAddr (Int.mul64 (i + Z.of_nat j) 4)))) ->
    exists l, loadSliceOfValues_from g arrayAddr i n w = Ok (l, w) /\ length l = n.
Proof.
  induction n as [|n IH]; intros i w Hb; cbn [loadSliceOfValues_from].
  - exists []. split; reflexivity.
  - destruct (IH (i + 1) w) as (l & Hl & Hn).
    { intros j Hj. replace (i + 1 + Z.of_nat j) with (i + Z.of_nat (S j)) by lia.
      apply Hb. lia. }
    eexists. split.
    + assert (Hg : getRef (Int.int32 (Int.add64 arrayAddr (Int.mul64 i 4))) w
                   = Ok (word32_at w (Int.int32 (Int.add64 arrayAddr (Int.mul64 i 4))), w)).
      { apply getUInt32_Ok. split; [|auto].
        specialize (Hb 0%nat ltac:(lia)). now rewrite Z.add_0_r in Hb. }
      rewrite (bind_run _ _ _ _ _ Hg).
      unfold bind at 1. unfold map_index at 1.
      rewrite (bind_run _ _ _ _ _ Hl). reflexivity.
    + cbn [length]. now rewrite Hn.
Qed.

Lemma loadSliceOfValues_from_bounds g arrayAddr n :
  forall i w l w', loadSliceOfValues_from g arrayAddr i n w = Ok (l, w') ->
  forall j : nat, (j < n)%nat ->
    in_bounds8 w (Int.int32 (Int.add64 arrayAddr (Int.mul64 (i + Z.of_nat j) 4))).
Proof.
  induction n as [|n IH]; intros i w l w' H j Hj; [lia|].
  cbn [loadSliceOfValues_from] in H.
  bind_inv H. bind_inv H. bind_inv H. ret_inv H.
  apply getUInt32_Ok in Hstep. destruct Hstep as (Hb & -> & ->).
  apply map_index_Ok in Hstep0. destruct Hstep0 as (-> & ->).
  destruct j as [|j]; [now rewrite Z.add_0_r|].
  replace (i + Z.of_nat (S j)) with (i + 1 + Z.of_nat j) by lia.
  eapply IH; [exact Hstep1 | lia].
Qed.

(** An argument list is decoded from the 16 bytes at [addr], the address
    of the handles and their number.  A negative number panics, and so does
    a handle that lies outside memory; otherwise the result has exactly
    that many elements, the [j]-th being whatever the table holds under the
    [j]-th handle, and nothing is changed. *)
Theorem loadSliceOfValues_elements g addr w :
  in_bounds8 w addr -> in_bounds8 w (Int.add32 addr 8) ->
  let arrayAddr := Int.int64 (word64_at w addr) in
  let len := Int.int64 (word64_at w (Int.add32 addr 8)) in
  (len < 0 -> exists e, loadSliceOfValues g addr w = Panic e) /\
  (forall j : nat, (j < Z.to_nat len)%nat -> ~ in_bounds8 w (element_addr arrayAddr j) ->
     exists e, loadSliceOfValues g addr w = Panic e) /\
  ((forall j : nat, (j < Z.to_nat len)%nat -> in_bounds8 w (element_addr arrayAddr j)) ->
   0 <= len ->
   exists l,
     loadSliceOfValues g addr w = Ok (l, w) /\
     length l = Z.to_nat len /\
     forall j : nat, (j < Z.to_nat len)%nat ->
       l !! j = Some (of_Value (default zeroValue
                  (table w (values g) !! word32_at w (element_addr arrayAddr j))))).
Proof.
  intros Hb Hb8 arrayAddr len.
  assert (H1 : getInt64 addr w = Ok (arrayAddr, w)) by (apply getInt64_Ok; auto).
  assert (H2 : getInt64 (Int.add32 addr 8) w = Ok (len, w)) by (apply getInt64_Ok; auto).
  assert (Hu : loadSliceOfValues g addr w =
               if len <? 0 then Panic "makeslice: len out of range"
               else loadSliceOfValues_from g arrayAddr 0 (Z.to_nat len) w).
  { unfold loadSliceOfValues.
    rewrite (bind_run _ _ _ _ _ H1), (bind_run _ _ _ _ _ H2).
    destruct (len <? 0); reflexivity. }
  split; [|split].
  - intros Hneg. rewrite Hu. destruct (Z.ltb_spec len 0); [eauto | lia].
  - intros j Hj Hout. rewrite Hu. destruct (Z.ltb_spec len 0); [eauto|].
    destruct (loadSliceOfValues_from g arrayAddr 0 (Z.to_nat len) w) as [[l w']|e] eqn:E;
      [|eauto].
    exfalso. apply Hout.
    pose proof (loadSliceOfValues_from_bounds g arrayAddr _ _ _ _ _ E j Hj) as Hin.
    now rewrite Z.add_0_l in Hin.
  - intros Hin Hlen. rewrite Hu. destruct (Z.ltb_spec len 0); [lia|].
    destruct (loadSliceOfValues_from_run g arrayAddr (Z.to_nat len) 0 w) as (l & Hl & Hn).
    { intros j Hj. rewrite Z.add_0_l. apply Hin. exact Hj. }
    exists l. split; [exact Hl|]. split; [exact Hn|].
    intros j Hj. destruct (l !! j) as [x|] eqn:Ej.
    + pose proof (loadSliceOfValues_from_lookup g arrayAddr _ _ _ _ _ Hl j x Ej) as Hx.
      rewrite Z.add_0_l in Hx. now subst x.
    + apply lookup_ge_None in Ej. lia.
Qed.

Lemma loadSliceOfValues_elements_witness :
  let w := init_world scenario_arguments_memory in
  exists l,
    loadSliceOfValues first_Go 0 w = Ok (l, w) /\
    length l = 2%nat /\
    l !! 0%nat = Some (DValue jsValueTrue (DBool true)) /\
    l !! 1%nat = Some (DValue 0 DNil).
Proof.
  intros w.
  destruct (loadSliceOfValues_elements first_Go 0 w
              ltac:(vm_compute; split; congruence) ltac:(vm_compute; split; congruence))
    as (_ & _ & H).
  destruct H as (l & Hl & Hn & He).
  - intros j Hj. change (Z.to_nat _) with 2%nat in Hj.
    destruct j as [|[|j]]; [vm_compute; split; congruence..|lia].
  - vm_compute; congruence.
  - exists l. split; [exact Hl|]. split; [exact Hn|].
    split; [exact (He 0%nat ltac:(vm_compute; lia)) | exact (He 1%nat ltac:(vm_compute; lia))].
Defined.

Lemma jsInt8Array_fill_Ok (args : list datum) (a : list Z) :
  jsInt8Array_fill args = Ok a <-> args = map DInt8 a.
Proof.
  revert a. induction args as [|d args IH]; intros a; cbn [jsInt8Array_fill].
  - split; [intros [= <-]; reflexivity | destruct a; [reflexivity | discriminate]].
  - destruct d; try (split; [discriminate | destruct a; discriminate]).
    destruct (jsInt8Array_fill args) as [a'|e].
    + split.
      * intros [= <-]. cbn [map]. f_equal. now apply IH.
      * destruct a as [|z a]; [discriminate|]. cbn [map]. intros [= -> Ha].
        f_equal. f_equal. apply IH in Ha. congruence.
    + split; [discriminate|]. destruct a as [|z a]; [discriminate|].
      cbn [map]. intros [= -> Ha]. apply IH in Ha. discriminate.
Qed.

(** The typed-array constructor returns exactly when every argument is an
    [int8], and then the new array holds them in order; one argument of
    any other type panics, a [Value] from the handle table included. *)
Theorem jsInt8Array_New_needs_int8 (args : list datum) (c : datum) w w' :
  jsInt8Array_New args w = Ok (c, w') <->
  exists a : list Z, args = map DInt8 a /\ c = DJsInt8Array a /\ w' = w.
Proof.
  unfold jsInt8Array_New. split.
  - destruct (jsInt8Array_fill args) as [a|e] eqn:E; [|discriminate].
    intros [= <- <-]. exists a. apply jsInt8Array_fill_Ok in E. auto.
  - intros (a & Ha & -> & ->). apply jsInt8Array_fill_Ok in Ha. now rewrite Ha.
Qed.

Lemma jsInt8Array_New_needs_int8_witness :
  jsInt8Array_New [DInt8 1; DInt8 (-2)] (init_world []) =
    Ok (DJsInt8Array [1; -2], init_world []) /\
  forall c w', jsInt8Array_New [DInt8 1; DValue 3 (DBool true)] (init_world []) <> Ok (c, w').
Proof.
  split.
  - apply (proj2 (jsInt8Array_New_needs_int8 _ _ _ _)). exists [1; -2]. auto.
  - intros c w' H. apply (proj1 (jsInt8Array_New_needs_int8 _ _ _ _)) in H.
    destruct H as ([|x [|y a]] & Ha & _); discriminate.
Defined.

End ArgumentLists.

(** ** What a host call does to memory and to the process *)

Section Shape.

Implicit Types (g : Go) (w : World) (addr sp : Z) (v : datum).

Lemma same_shape_refl w : same_shape w w.
Proof. split; reflexivity. Qed.

Lemma same_shape_trans w1 w2 w3 : same_shape w1 w2 -> same_shape w2 w3 -> same_shape w1 w3.
Proof. intros [L1 T1] [L2 T2]. split; congruence. Qed.

Lemma same_shape_write w off (bs : list byte) :
  (off + length bs <= length (memory w))%nat ->
  same_shape w (set_memory w (Mem.write (memory w) off bs)).
Proof. intros H. split; [cbn [memory set_memory]; now apply length_write | reflexivity]. Qed.

Lemma setUInt64_shape addr x w u w' : setUInt64 addr x w = Ok (u, w') -> same_shape w w'.
Proof.
  intros H. apply setUInt64_Ok in H. destruct H as ([H0 H1] & ->).
  apply same_shape_write. rewrite length_le_encode. lia.
Qed.

Lemma setUInt32_shape addr x w u w' : setUInt32 addr x w = Ok (u, w') -> same_shape w w'.
Proof.
  intros H. apply setUInt32_Ok in H. destruct H as ([H0 H1] & ->).
  apply same_shape_write. rewrite length_le_encode. lia.
Qed.

Lemma setUInt8_shape addr x w u w' : setUInt8 addr x w = Ok (u, w') -> same_shape w w'.
Proof.
  intros H. apply setUInt8_Ok in H. destruct H as ([H0 H1] & ->).
  apply same_shape_write. cbn [length]. lia.
Qed.

Lemma storeValue_shape g addr v w g' w' :
  storeValue g addr v w = Ok (g', w') ->
  same_shape w w' /\ values g' = values g /\ timeOrigin g' = timeOrigin g.
Proof.
  intros H. apply storeValue_effect in H.
  destruct H as (L & T & [[-> _]|(_ & _ & -> & _)]); repeat split; auto.
Qed.

(** A call through the export table that returns has done one of three
    things: nothing, set the termination flag, or written to memory. *)
Lemma call_inv e env g sp w g' w' :
  call e g env sp w = Ok (g', w') ->
  (g' = g /\ w' = w) \/
  (may_terminate e = true /\ g' = g /\ w' = set_terminated w) \/
  (may_write e = true /\ same_shape w w' /\
   values g' = values g /\ timeOrigin g' = timeOrigin g).
Proof.
  intros H. destruct e; cbn [call] in H.
  - unfold stub in H. ret_inv H. left. auto.
  - unfold exportExit, Terminate in H. injection H as <- <-. right. left. auto.
  - unfold exportWasmWrite in H. bind_inv H. apply loadString_world in Hstep. subst.
    destruct a; [|discriminate]. ret_inv H. left. auto.
  - unfold exportNanotime in H. bind_inv H. ret_inv H.
    apply setUInt64_shape in Hstep. right. right. auto.
  - unfold exportWalltime in H. bind_inv H. bind_inv H. ret_inv H.
    apply setUInt64_shape in Hstep. apply setUInt32_shape in Hstep0.
    right. right. split; [reflexivity|]. split; [eapply same_shape_trans; eauto | auto].
  - unfold stub in H. ret_inv H. left. auto.
  - unfold stub in H. ret_inv H. left. auto.
  - unfold exportGetRandomData in H. bind_inv H.
    apply loadSlice_Ok in Hstep. destruct Hstep as (_ & _ & -> & ->).
    destruct (slice_at w sp) as [[off n]|] eqn:Hs; [|discriminate].
    bind_inv H. ret_inv H. unfold poke in Hstep. injection Hstep as Hw. subst.
    right. right. split; [reflexivity|]. split; [|auto]. apply same_shape_write.
    rewrite length_map, length_seq. eapply slice_at_bounds; eauto.
  - unfold exportStringVal in H. bind_inv H. apply loadString_world in Hstep. subst.
    destruct a; [|discriminate]. apply storeValue_shape in H. right. right. auto.
  - unfold exportValueGet in H. bind_inv H. apply loadValue_world in Hstep. subst.
    bind_inv H. apply loadString_world in Hstep. subst.
    destruct a0; [|discriminate]. destruct (getter (Value_v a)) as [Get|].
    + apply storeValue_shape in H. right. right. auto.
    + injection H as <- <-. right. left. auto.
  - unfold exportValueCall in H. bind_inv H. apply loadValue_world in Hstep. subst.
    bind_inv H. apply loadString_world in Hstep. subst.
    destruct a0; [|discriminate]. destruct (getter (Value_v a)) as [Get|].
    + bind_inv H. apply loadSliceOfValues_world in Hstep. subst. ret_inv H. left. auto.
    + injection H as <- <-. right. left. auto.
  - unfold exportValueNew in H. bind_inv H. apply loadValue_world in Hstep. subst.
    bind_inv H. apply loadSliceOfValues_world in Hstep. subst.
    right. right. split; [reflexivity|].
    destruct (newer (Value_v a)) as [New|] eqn:En.
    + bind_inv H. apply (newer_world _ _ _ _ _ _ En) in Hstep. subst.
      bind_inv H. bind_inv H. ret_inv H.
      apply storeValue_shape in Hstep. destruct Hstep as (Hsh & Hv & Ho).
      apply setUInt8_shape in Hstep0.
      split; [eapply same_shape_trans; eauto | auto].
    + bind_inv H. bind_inv H. ret_inv H.
      apply storeValue_shape in Hstep. destruct Hstep as (Hsh & Hv & Ho).
      apply setUInt8_shape in Hstep0.
      split; [eapply same_shape_trans; eauto | auto].
  - unfold exportValuePrepareString in H. bind_inv H. apply loadString_world in Hstep. subst.
    destruct a; [|discriminate]. bind_inv H. bind_inv H. ret_inv H.
    apply storeValue_shape in Hstep. destruct Hstep as (Hsh & Hv & Ho).
    apply setUInt64_shape in Hstep0.
    right. right. split; [reflexivity|]. split; [eapply same_shape_trans; eauto | auto].
  - unfold exportValueLoadString in H. bind_inv H. apply loadValue_world in Hstep. subst.
    destruct (Value_v a); try discriminate. bind_inv H. ret_inv H.
    unfold setSlice in Hstep. bind_inv Hstep.
    apply loadSlice_Ok in Hstep0. destruct Hstep0 as (_ & _ & -> & ->).
    destruct (slice_at w _) as [[off n]|] eqn:Hs; [|discriminate].
    unfold poke in Hstep. injection Hstep as Hw. subst.
    right. right. split; [reflexivity|]. split; [|auto]. apply same_shape_write.
    pose proof (slice_at_bounds _ _ _ _ Hs). rewrite length_take. lia.
Qed.

(** Every export that returns leaves guest memory at its size and the
    instance on its table and its time origin; six of the exports never
    write to guest memory at all, and only three can set the termination
    flag, which none of them clears. *)
Theorem call_shape e env g sp w g' w' :
  call e g env sp w = Ok (g', w') ->
  length (memory w') = length (memory w) /\
  (may_write e = false -> memory w' = memory w /\ heap w' = heap w /\ g' = g) /\
  (terminated w' = terminated w \/ (may_terminate e = true /\ terminated w' = true)) /\
  values g' = values g /\ timeOrigin g' = timeOrigin g.
Proof.
  intros H.
  destruct (call_inv _ _ _ _ _ _ _ H) as [[-> ->]|[(Ht & -> & ->)|(Hw & [L T] & Hv & Ho)]].
  - repeat split; auto.
  - split; [reflexivity|]. split; [intros _; repeat split|].
    split; [right; split; [exact Ht | reflexivity]|]. split; reflexivity.
  - split; [exact L|]. split; [intros Hn; congruence|].
    split; [left; exact T|]. split; [exact Hv | exact Ho].
Qed.

Lemma call_shape_witness :
  let w := init_world scenario_call_memory in
  exists g' w',
    call syscall_js_valueCall first_Go (mkEnv 0 (fun _ => x00)) 0 w = Ok (g', w') /\
    memory w' = memory w /\ heap w' = heap w /\ g' = first_Go.
Proof.
  intros w. exists first_Go, w.
  assert (H : call syscall_js_valueCall first_Go (mkEnv 0 (fun _ => x00)) 0 w
              = Ok (first_Go, w)) by (vm_compute; reflexivity).
  split; [exact H|].
  destruct (call_shape _ _ _ _ _ _ _ H) as (_ & Hw & _).
  exact (Hw eq_refl).
Defined.

(** Along a session the termination flag, once set, stays set; and it can
    only have been set by one of the three exports that terminate. *)
Theorem run_termination evs :
  forall g w g' w',
    run evs g w = Ok (g', w') ->
    (terminated w = true -> terminated w' = true) /\
    (terminated w' = true ->
     terminated w = true \/
     exists e env sp, Call e env sp ∈ evs /\ may_terminate e = true) /\
    timeOrigin g' = timeOrigin g.
Proof.
  induction evs as [|ev evs IH]; intros g w g' w' H; cbn [run] in H.
  - ret_inv H. auto.
  - bind_inv H. rename a into g1, w0 into w1.
    destruct (IH _ _ _ _ H) as (Hup & Hdown & Ho).
    assert (Hs : (terminated w1 = terminated w /\ timeOrigin g1 = timeOrigin g) \/
                 (exists e env sp, ev = Call e env sp /\ may_terminate e = true /\
                    terminated w1 = true /\ timeOrigin g1 = timeOrigin g)).
    { destruct ev as [e env sp|m|addr v]; cbn [step] in Hstep.
      - destruct (call_inv _ _ _ _ _ _ _ Hstep)
          as [[-> ->]|[(Hm & -> & ->)|(_ & [_ Ht] & _ & Ho1)]].
        + left. auto.
        + right. exists e, env, sp. auto.
        + left. auto.
      - injection Hstep as <- <-. left. auto.
      - apply storeValue_shape in Hstep. destruct Hstep as ([_ Ht] & _ & Ho1). left. auto. }
    split; [|split].
    + intros Ht. apply Hup. destruct Hs as [[E _]|(_ & _ & _ & _ & _ & E & _)]; congruence.
    + intros Ht. destruct (Hdown Ht) as [Ht1|(e & env & sp & Hin & Hm)].
      * destruct Hs as [[E _]|(e & env & sp & -> & Hm & _)]; [left; congruence|].
        right. exists e, env, sp. split; [apply elem_of_cons; left; reflexivity | exact Hm].
      * right. exists e, env, sp. split; [apply elem_of_cons; right; exact Hin | exact Hm].
    + destruct Hs as [[_ E]|(_ & _ & _ & _ & _ & _ & E)]; congruence.
Qed.

Lemma run_termination_witness :
  let w := init_world (layout 160 [(8%nat, Bytes.le_encode 4 3);
                                   (16%nat, Bytes.le_encode 8 128);
                                   (24%nat, Bytes.le_encode 8 4)]) in
  let evs := [Call syscall_js_valueGet (mkEnv 0 (fun _ => x00)) 0;
              Store 40 (DString "a"); Guest (zeros 160);
              Call runtime_nanotime (mkEnv 5 (fun _ => x00)) 0] in
  exists g' w',
    run evs first_Go w = Ok (g', w') /\
    terminated w' = true /\
    exists e env sp, Call e env sp ∈ evs /\ may_terminate e = true.
Proof.
  intros w evs.
  assert (H : exists g' w', run evs first_Go w = Ok (g', w') /\ terminated w' = true).
  { eexists _, _. split; vm_compute; reflexivity. }
  destruct H as (g' & w' & H & Ht).
  exists g', w'. split; [exact H|]. split; [exact Ht|].
  destruct (run_termination evs _ _ _ _ H) as (_ & Hd & _).
  destruct (Hd Ht) as [Hc|Hc]; [discriminate Hc | exact Hc].
Defined.

End Shape.

(** ** The typed-array constructor through the wire *)

Section TypedArray.

Implicit Types (g : Go) (w : World) (addr sp : Z) (v : datum).

(** construct-new on a [jsInt8Array] with an empty argument list: the
    new array is empty whatever the target holds, it takes the next handle,
    and the flag byte is 1.  Since an argument decoded from the wire is
    never an [int8], this is the one typed array the call can make. *)
Theorem exportValueNew_empty_Int8Array g sp x a w :
  loadValue g (Int.add32 sp 8) w = Ok (x, w) ->
  Value_v x = DJsInt8Array a ->
  loadSliceOfValues g (Int.add32 sp 16) w = Ok ([], w) ->
  is_Some (heap w !! values g) ->
  0 <= sp -> sp + 56 <= Z.of_nat (length (memory w)) -> sp + 56 < 2 ^ 31 ->
  exists w',
    exportValueNew g sp w = Ok (next_Go g, w') /\
    table w' (values g) !! valueIndex g = Some (mkValue (valueIndex g) (DJsInt8Array [])) /\
    word32_at w' (sp + 40) = Int.uint32 (valueIndex g) /\
    word32_at w' (sp + 44) = nanHead /\
    byte_at w' (sp + 48) = Some x01.
Proof.
  intros Hv Hx Ha Hs H0 Hlen H31. unfold exportValueNew.
  rewrite (bind_run _ _ _ _ _ Hv), (bind_run _ _ _ _ _ Ha), Hx. cbn [newer].
  assert (Hc : jsInt8Array_New [] w = Ok (DJsInt8Array [], w)) by reflexivity.
  rewrite (bind_run _ _ _ _ _ Hc).
  destruct (store_new_then_flag g sp w (DJsInt8Array []) 1 eq_refl Hs H0 Hlen H31)
    as (w' & Hr & Hh & P & T & B & _).
  exists w'. split; [exact Hr|]. split; [|auto].
  rewrite (table_heap _ _ _ Hh), table_allocated by exact Hs.
  destruct (decide _) as [_|Hne]; [|congruence]. apply lookup_insert_eq.
Qed.

Lemma exportValueNew_empty_Int8Array_witness :
  let w := allocated first_Go (init_world (layout 64 [(8%nat, Bytes.le_encode 4 8)]))
             (DJsInt8Array [7]) in
  exists w',
    exportValueNew (next_Go first_Go) 0 w = Ok (next_Go (next_Go first_Go), w') /\
    table w' defaultValues !! 9 = Some (mkValue 9 (DJsInt8Array [])) /\
    word32_at w' 40 = 9 /\
    byte_at w' 48 = Some x01.
Proof.
  intros w.
  destruct (exportValueNew_empty_Int8Array (next_Go first_Go) 0
              (mkValue 8 (DJsInt8Array [7])) [7] w
              ltac:(vm_compute; reflexivity) eq_refl ltac:(vm_compute; reflexivity)
              ltac:(eexists; reflexivity)
              ltac:(lia) ltac:(vm_compute; congruence) ltac:(lia))
    as (w' & Hr & Ht & P & _ & B).
  exists w'. auto.
Defined.

End TypedArray.
